(** * perf-logger-sdk: the anomaly-detection core

    A shallow embedding of the streaming-statistics pipeline of the SDK
    ([RingBuffer], [BaselineManager], [ZScoreStrategy], [EMAStrategy],
    [EventBus]) together with the properties its specification states, and
    of [mergeConfig] and the marks of [Timer], with further properties that
    the code has.

    JavaScript numbers are IEEE 754 binary64 values; they are modelled by
    Rocq's primitive floats, whose operations are the same correctly rounded
    binary64 operations.  What the sign of Welford's increment needs of
    their rounding is proved from the definitions of [SpecFloat].  Array
    indices and lengths are natural numbers. *)

From Stdlib Require Import ZArith Zpower Floats QArith Lqa Lia.
From stdpp Require Import base option list gmap strings pretty.

Set Warnings "-register-all,-inexact-float".

Local Open Scope nat_scope.

(** ** src/utils/RingBuffer.js *)

Module RingBuffer.

(** The value of [this.head]: an array index, or [NaN], which is what
    [(this.head + 1) % this.capacity] evaluates to when the capacity is 0. *)
Inductive index := Idx (i : nat) | IdxNaN.

(** [a + b] and [a % b] on such values. *)
Definition idx_add (a : index) (b : nat) : index :=
  match a with Idx i => Idx (i + b) | IdxNaN => IdxNaN end.

Definition idx_mod (a : index) (b : nat) : index :=
  match a, b with
  | Idx _, 0 => IdxNaN
  | Idx i, _ => Idx (i mod b)
  | IdxNaN, _ => IdxNaN
  end.

Section Defs.
Context {A : Type}.

(** A JavaScript array of items is a [list (option A)]; [None] is a hole,
    which reads as [undefined]. *)

(** [arr[i]] *)
Definition array_get (arr : list (option A)) (i : index) : option A :=
  match i with
  | Idx i => mjoin (arr !! i)
  | IdxNaN => None
  end.

(** [arr[i] = x]: in range the slot is overwritten, past the end the
    array grows (with holes in between), and [arr[NaN] = x] sets a
    property that is no element of the array. *)
Definition array_set (arr : list (option A)) (i : index) (x : A) : list (option A) :=
  match i with
  | Idx i =>
      if decide (i < length arr) then <[i := Some x]> arr
      else arr ++ replicate (i - length arr) None ++ [Some x]
  | IdxNaN => arr
  end.

Record t := mk {
  capacity : nat;
  buffer : list (option A);
  head : index;
  count : nat
}.

(** [constructor(capacity)] *)
Definition new (capacity : nat) : t :=
  {| capacity := capacity;
     buffer := replicate capacity None;
     head := Idx 0;
     count := 0 |}.

(** [push(item)] *)
Definition push (rb : t) (item : A) : t :=
  {| capacity := capacity rb;
     buffer := array_set (buffer rb) (head rb) item;
     head := idx_mod (idx_add (head rb) 1) (capacity rb);
     count := if decide (count rb < capacity rb) then count rb + 1
              else count rb |}.

(** [toArray()] *)
Definition toArray (rb : t) : list (option A) :=
  if decide (count rb = 0) then []
  else
    let start := if decide (count rb < capacity rb) then Idx 0 else head rb in
    (λ i, array_get (buffer rb) (idx_mod (idx_add start i) (capacity rb)))
      <$> seq 0 (count rb).

(** [get length()] *)
Definition length (rb : t) : nat := count rb.

(** [get latest()]; [None] is [undefined].  With a count that is not 0 the
    capacity is not 0, and [head - 1 + capacity] is [head + (capacity - 1)]. *)
Definition latest (rb : t) : option A :=
  if decide (count rb = 0) then None
  else array_get (buffer rb)
         (idx_mod (idx_add (head rb) (capacity rb - 1)) (capacity rb)).

(** Pushing a sequence of items, first to last. *)
Definition pushAll (rb : t) (xs : list A) : t := foldl push rb xs.

End Defs.

Arguments t : clear implicits.

End RingBuffer.

(** ** JavaScript numbers *)

Module Num.

(** The arithmetic that Welford's recurrence uses.  The code runs it on
    binary64 numbers ([float_arith]); [Q_arith] is the same arithmetic
    without rounding, overflow or NaN. *)
Class Arith (F : Type) := {
  one : F;
  add : F → F → F;
  sub : F → F → F;
  mul : F → F → F;
  div : F → F → F
}.

#[global] Instance float_arith : Arith float := {|
  one := 1%float;
  add := PrimFloat.add;
  sub := PrimFloat.sub;
  mul := PrimFloat.mul;
  div := PrimFloat.div
|}.

#[global] Instance Q_arith : Arith Q := {|
  one := 1%Q;
  add := Qplus;
  sub := Qminus;
  mul := Qmult;
  div := Qdiv
|}.

(** [a >= b] and [a > b] on numbers: false as soon as an operand is NaN. *)
Definition geb (a b : float) : bool := (b <=? a)%float.
Definition gtb (a b : float) : bool := (b <? a)%float.

(** [Math.min(a, b)] and [Math.max(a, b)]: NaN if an operand is NaN, and
    -0 counts as smaller than +0. *)
Definition Math_min (a b : float) : float :=
  if is_nan a || is_nan b then nan
  else if (a <? b)%float then a
  else if (b <? a)%float then b
  else if get_sign a then a else b.

Definition Math_max (a b : float) : float :=
  if is_nan a || is_nan b then nan
  else if (a <? b)%float then b
  else if (b <? a)%float then a
  else if get_sign a then b else a.

(** The number of an array length or index. *)
Definition of_nat (n : nat) : float := of_uint63 (Uint63.of_Z (Z.of_nat n)).

(** [Math.floor(x)] as an array index, for a finite [x >= 0] (the products
    [n * 0.5], ..., [n * 0.99] of a length taken in [getBaseline]). *)
Definition floor_index (x : float) : nat :=
  match Prim2SF x with
  | S754_finite false m e => Z.to_nat (Z.shiftl (Zpos m) e)
  | _ => 0%nat
  end.

(** [arr.sort((a, b) => a - b)] on an array of numbers: [undefined]
    elements go last, the others are ordered by the sign of the comparator
    (a NaN result counts as 0), and the sort is stable.  Insertion from the
    right is one such sort; for a comparator that is consistent (no NaN and
    no infinite differences) every stable sort returns the same array. *)
Definition compare_numbers (a b : float) : float :=
  let v := (a - b)%float in if is_nan v then 0%float else v.

Fixpoint insert_sorted (x : float) (l : list float) : list float :=
  match l with
  | [] => [x]
  | y :: l' =>
      if (compare_numbers x y <=? 0)%float then x :: y :: l'
      else y :: insert_sorted x l'
  end.

Definition sort_numbers (arr : list (option float)) : list (option float) :=
  let defined := omap id arr in
  (Some <$> foldr insert_sorted [] defined)
    ++ replicate (length arr - length defined) None.

End Num.

(** ** BaselineManager (src/unnamed/part_003) *)

(** The record kept per metric. *)
Module BaselineData.

Record t := mk {
  values : RingBuffer.t float;
  count : float;
  mean : float;
  m2 : float;
  min : float;
  max : float
}.

End BaselineData.

(** The statistics that [getBaseline] returns. *)
Module Snapshot.

Record t := mk {
  mean : float;
  stdDev : float;
  variance : float;
  min : float;
  max : float;
  p50 : float;
  p90 : float;
  p95 : float;
  p99 : float;
  sampleCount : float
}.

End Snapshot.

(** What [JSON.parse] returns. *)
Module Json.

Inductive value :=
  | JNull
  | JBool (b : bool)
  | JNum (x : float)
  | JStr (s : string)
  | JArr (items : list value)
  | JObj (props : list (string * value)).
(* [props]: the own properties of the object, in the order in which
   [Object.entries] lists them. *)

(** A string handed to [JSON.parse] either is a JSON text, and is then
    modelled by the value that the text denotes, or is not one. *)
Inductive text :=
  | Text (doc : value)
  | Malformed (s : string).

(** [JSON.parse(s)]; [None] is the SyntaxError it throws. *)
Definition parse (s : text) : option value :=
  match s with
  | Text doc => Some doc
  | Malformed _ => None
  end.




(** [Object.entries(v)]; [None] is the TypeError thrown for [null]. *)
Definition entries (v : value) : option (list (string * value)) :=
  match v with
  | JNull => None
  | JObj props => Some props
  | JArr items => Some (imap (λ i x, (pretty i, x)) items)
  | JStr s =>
      Some (imap (λ i c, (pretty i, JStr (String c EmptyString)))
                 (String.list_ascii_of_string s))
  | JBool _ | JNum _ => Some []
  end.

(** [saved.key] for a value that is not [null]; [None] is [undefined]. *)
Fixpoint get_own (props : list (string * value)) (key : string) : option value :=
  match props with
  | [] => None
  | (k, v) :: props' => if decide (k = key) then Some v else get_own props' key
  end.

Definition get_prop (saved : value) (key : string) : option value :=
  match saved with
  | JObj props => get_own props key
  | _ => None
  end.

(** The number that arithmetic makes of a stored field (ToNumber).
    [restore] stores the parsed field as it is, and the code turns it into a
    number where it computes with it; the record of this model holds
    numbers, so the field is read as a number at once.  For a field that is
    a number this is the field itself.  The other fields are an
    approximation: [null] (what [serialize] writes for NaN and the
    infinities) and the booleans are read as arithmetic reads them, although
    [getBaseline] would hand such a mean, minimum or maximum out unchanged,
    and strings, arrays and objects are read as NaN, although arithmetic
    reads a numeric string as its number. *)
Definition to_number (v : option value) : float :=
  match v with
  | Some (JNum x) => x
  | Some JNull => 0%float
  | Some (JBool b) => if b then 1%float else 0%float
  | _ => nan
  end.

End Json.

Module BaselineManager.

Record t := mk {
  _baselines : gmap string BaselineData.t;
  _minSamples : float
}.

(** [constructor(learningPeriodSeconds, sampleRateHz = 1)] *)
Definition constructor (learningPeriodSeconds : float) (sampleRateHz : option float) : t :=
  {| _baselines := ∅;
     _minSamples := (learningPeriodSeconds * default 1 sampleRateHz)%float |}.

(** The record created for a metric on its first [record] call. *)
Definition fresh : BaselineData.t :=
  {| BaselineData.values := RingBuffer.new 500;
     BaselineData.count := 0;
     BaselineData.mean := 0;
     BaselineData.m2 := 0;
     BaselineData.min := infinity;
     BaselineData.max := neg_infinity |}.

(** Welford's online update of [(count, mean, m2)] by one value. *)
Definition welford {F : Type} `{Num.Arith F} (s : F * F * F) (value : F) : F * F * F :=
  let '(count, mean, m2) := s in
  let count := Num.add count Num.one in
  let delta := Num.sub value mean in
  let mean := Num.add mean (Num.div delta count) in
  let delta2 := Num.sub value mean in
  let m2 := Num.add m2 (Num.mul delta delta2) in
  (count, mean, m2).

(** The body of [record] on the metric's record. *)
Definition update (data : BaselineData.t) (value : float) : BaselineData.t :=
  let '(count, mean, m2) :=
    welford (BaselineData.count data, BaselineData.mean data, BaselineData.m2 data) value in
  {| BaselineData.values := RingBuffer.push (BaselineData.values data) value;
     BaselineData.count := count;
     BaselineData.mean := mean;
     BaselineData.m2 := m2;
     BaselineData.min := Num.Math_min (BaselineData.min data) value;
     BaselineData.max := Num.Math_max (BaselineData.max data) value |}.

(** [record(metricName, value)] *)
Definition record (bm : t) (metricName : string) (value : float) : t :=
  let data := default fresh (_baselines bm !! metricName) in
  {| _baselines := <[metricName := update data value]> (_baselines bm);
     _minSamples := _minSamples bm |}.

(** [isReady(metricName)] *)
Definition isReady (bm : t) (metricName : string) : bool :=
  let data := _baselines bm !! metricName in
  Num.geb (default 0%float (BaselineData.count <$> data)) (_minSamples bm).

(** [sorted[Math.floor(n * k)] ?? 0] *)
Definition percentile (sorted : list (option float)) (k : float) : float :=
  let n := length sorted in
  default 0%float (mjoin (sorted !! Num.floor_index (Num.of_nat n * k)%float)).

(** [getBaseline(metricName)]; [None] is [null]. *)
Definition getBaseline (bm : t) (metricName : string) : option Snapshot.t :=
  match _baselines bm !! metricName with
  | None => None
  | Some data =>
      if negb (isReady bm metricName) then None
      else
        let variance :=
          if Num.gtb (BaselineData.count data) 1
          then (BaselineData.m2 data / (BaselineData.count data - 1))%float
          else 0%float in
        let stdDev := sqrt variance in
        let sorted := Num.sort_numbers (RingBuffer.toArray (BaselineData.values data)) in
        Some {| Snapshot.mean := BaselineData.mean data;
                Snapshot.stdDev := stdDev;
                Snapshot.variance := variance;
                Snapshot.min := BaselineData.min data;
                Snapshot.max := BaselineData.max data;
                Snapshot.p50 := percentile sorted 0.5;
                Snapshot.p90 := percentile sorted 0.9;
                Snapshot.p95 := percentile sorted 0.95;
                Snapshot.p99 := percentile sorted 0.99;
                Snapshot.sampleCount := BaselineData.count data |}
  end.

(** [getValues(metricName)] *)
Definition getValues (bm : t) (metricName : string) : list (option float) :=
  default [] (RingBuffer.toArray ∘ BaselineData.values <$> _baselines bm !! metricName).




(** The record that [restore] builds from a saved entry. *)
Definition restored_of (saved : Json.value) : BaselineData.t :=
  {| BaselineData.values := RingBuffer.new 500;
     BaselineData.count := Json.to_number (Json.get_prop saved "count");
     BaselineData.mean := Json.to_number (Json.get_prop saved "mean");
     BaselineData.m2 := Json.to_number (Json.get_prop saved "m2");
     BaselineData.min := Json.to_number (Json.get_prop saved "min");
     BaselineData.max := Json.to_number (Json.get_prop saved "max") |}.

(** What the [try] block of [restore] can throw. *)
Inductive error := SyntaxError | TypeError.

(** The loop of [restore] over the entries: the map when the loop ends, and
    what it threw.  Reading [saved.count] of a [null] entry throws, with the
    entries before it already set. *)
Fixpoint restore_entries (baselines : gmap string BaselineData.t)
    (entries : list (string * Json.value))
  : gmap string BaselineData.t * option error :=
  match entries with
  | [] => (baselines, None)
  | (name, Json.JNull) :: _ => (baselines, Some TypeError)
  | (name, saved) :: rest =>
      restore_entries (<[name := restored_of saved]> baselines) rest
  end.

(** The [try] block of [restore(json)]: the manager when the block ends, and
    what it threw. *)
Definition restore_try (bm : t) (json : Json.text) : t * option error :=
  match Json.parse json with
  | None => (bm, Some SyntaxError)
  | Some parsed =>
      match Json.entries parsed with
      | None => (bm, Some TypeError)
      | Some entries =>
          let '(baselines, thrown) := restore_entries (_baselines bm) entries in
          ({| _baselines := baselines; _minSamples := _minSamples bm |}, thrown)
      end
  end.

(** [restore(json)]: whatever the block throws is caught and dropped. *)
Definition restore (bm : t) (json : Json.text) : t := (restore_try bm json).1.


(** Recording a sequence of values for one metric, first to last. *)
Definition recordAll (bm : t) (metricName : string) (vs : list float) : t :=
  foldl (λ bm v, record bm metricName v) bm vs.

(** Any run of [record] calls, first to last, and the number of them that
    are for a given metric. *)
Definition recordMany (bm : t) (calls : list (string * float)) : t :=
  foldl (λ bm call, record bm call.1 call.2) bm calls.

Definition calls_of (metricName : string) (calls : list (string * float)) : nat :=
  length (filter (λ call, call.1 = metricName) calls).

(** The statistics of [record] and the variance of [getBaseline] in exact
    arithmetic: the same recurrence, on rationals. *)
Definition exact_run (vs : list Q) : Q * Q * Q :=
  foldl welford (0%Q, 0%Q, 0%Q) vs.

Definition exact_variance (s : Q * Q * Q) : Q :=
  let '(count, mean, m2) := s in
  if Qlt_le_dec 1 count then (m2 / (count - 1))%Q else 0%Q.

(** An update in which no number is NaN and no difference overflows: the
    sample is a finite number, and so are its two differences from the mean
    that [record] computes, [delta] from the mean before the update and
    [delta2] from the mean after it. *)
Definition finite_update (data : BaselineData.t) (value : float) : bool :=
  let count := (BaselineData.count data + 1)%float in
  let delta := (value - BaselineData.mean data)%float in
  let mean := (BaselineData.mean data + delta / count)%float in
  let delta2 := (value - mean)%float in
  forallb is_finite [value; delta; delta2].

(** A run of such updates of one record, first to last. *)
Fixpoint finite_updates (data : BaselineData.t) (values : list float) : bool :=
  match values with
  | [] => true
  | value :: values =>
      finite_update data value && finite_updates (update data value) values
  end.

(** The values recorded for a metric in a run of [record] calls. *)
Definition samples_of (metricName : string) (calls : list (string * float)) : list float :=
  (filter (λ call, call.1 = metricName) calls).*2.

End BaselineManager.


(** ** Detection strategies *)

(** A metric sample, as the collectors emit it (its [metadata] object is
    carried along unread and is left out). *)
Module Metric.

Record t := mk {
  name : string;
  value : float;
  unit : string;
  tags : list (string * string);
  timestamp : float
}.

End Metric.

Module Anomaly.

Inductive type := spike | drift.

Inductive severity := critical | warning.

(** The [context] object of a verdict, per strategy. *)
Inductive context :=
  | zscore_context (zScore threshold p95 p99 : float)
  | ema_context (ema alpha normalizedDeviation : float).

Record baseline := mk_baseline {
  mean : float;
  stdDev : float
}.

Record event := mk {
  type_ : type;
  severity_ : severity;
  metric : Metric.t;
  message : string;
  baseline_ : baseline;
  score : float;
  timestamp : float;
  context_ : context
}.

End Anomaly.

(** What the strategies read from their host: [Number.prototype.toFixed]
    and the clock behind [Date.now()]. *)
Module Host.

Record t := mk {
  toFixed : float → nat → string;
  Date_now : float
}.

End Host.

(** src/anamolies/strategies/ZScoreStrategy.js *)
Module ZScoreStrategy.

Record t := mk {
  name : string;
  threshold : float
}.

(** [constructor(threshold = 2.5)] *)
Definition constructor (threshold : option float) : t :=
  {| name := "zscore"; threshold := default 2.5%float threshold |}.

(** [detect(metric, baseline)]; [None] is [null]. *)
Definition detect (host : Host.t) (self : t) (metric : Metric.t)
    (baseline : BaselineManager.t) : option Anomaly.event :=
  match BaselineManager.getBaseline baseline (Metric.name metric) with
  | None => None
  | Some base =>
      if (Snapshot.stdDev base =? 0)%float then None
      else
        let zScore := ((Metric.value metric - Snapshot.mean base) / Snapshot.stdDev base)%float in
        if (abs zScore <=? threshold self)%float then None
        else
          let isCritical := Num.gtb (abs zScore) (threshold self * 2)%float in
          Some {|
            Anomaly.type_ := Anomaly.spike;
            Anomaly.severity_ := if isCritical then Anomaly.critical else Anomaly.warning;
            Anomaly.metric := metric;
            Anomaly.message :=
              Metric.name metric +:+ " = " +:+ Host.toFixed host (Metric.value metric) 2
              +:+ Metric.unit metric +:+ " is " +:+ Host.toFixed host zScore 1
              +:+ "σ from mean (" +:+ Host.toFixed host (Snapshot.mean base) 2
              +:+ Metric.unit metric +:+ ")";
            Anomaly.baseline_ :=
              {| Anomaly.mean := Snapshot.mean base; Anomaly.stdDev := Snapshot.stdDev base |};
            Anomaly.score := Num.Math_min 1 (abs zScore / (threshold self * 2))%float;
            Anomaly.timestamp := Host.Date_now host;
            Anomaly.context_ :=
              Anomaly.zscore_context zScore (threshold self)
                (Snapshot.p95 base) (Snapshot.p99 base)
          |}
  end.

(** The rule of the specification, in its words: no verdict without a
    ready baseline or with [stdDev == 0]; [z = (value - mean) / stdDev]; no
    verdict if [|z| <= threshold]; otherwise a [spike], [critical] if
    [|z| > 2 * threshold] and [warning] if not, with score
    [min(1, |z| / (2 * threshold))]. *)
Definition rule (threshold value : float) (base : option Snapshot.t)
  : option (Anomaly.type * Anomaly.severity * float) :=
  match base with
  | None => None
  | Some base =>
      if (Snapshot.stdDev base =? 0)%float then None
      else
        let z := ((value - Snapshot.mean base) / Snapshot.stdDev base)%float in
        if (abs z <=? threshold)%float then None
        else Some (Anomaly.spike,
                   if (2 * threshold <? abs z)%float
                   then Anomaly.critical else Anomaly.warning,
                   Num.Math_min 1 (abs z / (2 * threshold))%float)
  end.

End ZScoreStrategy.

(** src/unnamed/part_002 *)
Module EMAStrategy.

Record t := mk {
  name : string;
  alpha : float;
  deviationThreshold : float;
  _emaValues : gmap string float
}.

(** [constructor(alpha = 0.3, deviationThreshold = 2.5)] *)
Definition constructor (alpha deviationThreshold : option float) : t :=
  {| name := "ema";
     alpha := default 0.3%float alpha;
     deviationThreshold := default 2.5%float deviationThreshold;
     _emaValues := ∅ |}.

(** [detect(metric, baseline)]: the strategy after the call, and the verdict
    ([None] is [null]). *)
Definition detect (host : Host.t) (self : t) (metric : Metric.t)
    (baseline : BaselineManager.t) : t * option Anomaly.event :=
  match BaselineManager.getBaseline baseline (Metric.name metric) with
  | None => (self, None)
  | Some base =>
      if (Snapshot.stdDev base =? 0)%float then (self, None)
      else
        let prevEma := default (Snapshot.mean base) (_emaValues self !! Metric.name metric) in
        let newEma := (alpha self * Metric.value metric + (1 - alpha self) * prevEma)%float in
        let self := {| name := name self;
                       alpha := alpha self;
                       deviationThreshold := deviationThreshold self;
                       _emaValues := <[Metric.name metric := newEma]> (_emaValues self) |} in
        let deviation := abs (Metric.value metric - newEma)%float in
        let normalizedDeviation := (deviation / Snapshot.stdDev base)%float in
        if (normalizedDeviation <=? deviationThreshold self)%float then (self, None)
        else
          let isCritical := Num.gtb normalizedDeviation (deviationThreshold self * 2)%float in
          (self, Some {|
            Anomaly.type_ := Anomaly.drift;
            Anomaly.severity_ := if isCritical then Anomaly.critical else Anomaly.warning;
            Anomaly.metric := metric;
            Anomaly.message :=
              Metric.name metric +:+ " deviating from trend: value="
              +:+ Host.toFixed host (Metric.value metric) 2
              +:+ ", EMA=" +:+ Host.toFixed host newEma 2
              +:+ ", deviation=" +:+ Host.toFixed host normalizedDeviation 1 +:+ "σ";
            Anomaly.baseline_ :=
              {| Anomaly.mean := Snapshot.mean base; Anomaly.stdDev := Snapshot.stdDev base |};
            Anomaly.score :=
              Num.Math_min 1 (normalizedDeviation / (deviationThreshold self * 2))%float;
            Anomaly.timestamp := Host.Date_now host;
            Anomaly.context_ := Anomaly.ema_context newEma (alpha self) normalizedDeviation
          |})
  end.

End EMAStrategy.

(** ** EventBus (src/unnamed/part_000) *)

Module EventBus.

(** A listener is a function object; the [Set] of a type holds listeners by
    identity, here a number.  A [Set] keeps its entries in insertion order and
    is walked while it changes: [None] is the place of a deleted entry. *)
Definition listener := nat.

Definition set_add (s : list (option listener)) (l : listener) : list (option listener) :=
  if decide (Some l ∈ s) then s else s ++ [Some l].

Fixpoint set_delete (s : list (option listener)) (l : listener) : list (option listener) :=
  match s with
  | [] => []
  | x :: s' => if decide (x = Some l) then None :: s' else x :: set_delete s' l
  end.

(** The entries of the set, in order. *)
Definition set_values (s : list (option listener)) : list listener := omap id s.

Section Bus.
(** [P]: payloads; [E]: what a listener may throw; [App]: the state of the
    program outside the bus, which listeners act on. *)
Context {P E App : Type}.

Record event := mk_event {
  type_ : string;
  timestamp : float;
  wallTime : float;
  source : string;
  payload : P;
  sessionId : string;
  pageUrl : string
}.

Record t := mk {
  _listeners : gmap string (list (option listener));
  _history : list event;
  _maxHistory : nat
}.

(** [constructor()] *)
Definition constructor : t :=
  {| _listeners := ∅; _history := []; _maxHistory := 1000 |}.

(** What [emit] reads from its surroundings: [performance.now()],
    [Date.now()], [this._getSessionId()] and [window.location.href]. *)
Record ambient := mk_ambient {
  performance_now : float;
  Date_now : float;
  getSessionId : string;
  location_href : string
}.

(** Everything a listener can reach: the bus, the console, the program. *)
Record world := mk_world {
  bus : t;
  console : list (string * E);
  app : App
}.

Definition with_bus (w : world) (b : t) : world :=
  {| bus := b; console := console w; app := app w |}.

(** [on(type, listener)]; the function it returns is [off type listener]. *)
Definition on (b : t) (type : string) (l : listener) : t :=
  {| _listeners := <[type := set_add (default [] (_listeners b !! type)) l]> (_listeners b);
     _history := _history b;
     _maxHistory := _maxHistory b |}.

Definition off (b : t) (type : string) (l : listener) : t :=
  match _listeners b !! type with
  | None => b
  | Some s =>
      {| _listeners := <[type := set_delete s l]> (_listeners b);
         _history := _history b;
         _maxHistory := _maxHistory b |}
  end.

(** The behaviour of the listeners: applied to the event, a listener changes
    the world and returns ([None]) or throws ([Some e]). *)
Variable call : listener → event → world → world * option E.

(** Modelled from the spec: the body of the [catch] block of [emit] is cut
    off in the source after the opening of its [console.warn] call; the error
    is caught and logged, and nothing else is done with it. *)
Definition warn_listener_error (type : string) (e : E) (w : world) : world :=
  {| bus := bus w; console := console w ++ [(type, e)]; app := app w |}.

(** [try { listener(event); } catch (e) { console.warn(...) }] *)
Definition call_caught (ev : event) (w : world) (l : listener) : world :=
  match call l ev w with
  | (w', None) => w'
  | (w', Some e) => warn_listener_error (type_ ev) e w'
  end.

(** [for (const listener of listeners) ...] from entry [i] of the set on; the
    set is read again at each step, as the iterator of a [Set] does.  [fuel]
    bounds the number of entries visited. *)
Fixpoint dispatch (fuel : nat) (ev : event) (i : nat) (w : world) : world :=
  match fuel with
  | 0 => w
  | S fuel =>
      match _listeners (bus w) !! type_ ev ≫= (.!! i) with
      | None => w
      | Some None => dispatch fuel ev (S i) w
      | Some (Some l) => dispatch fuel ev (S i) (call_caught ev w l)
      end
  end.

(** [emit(type, source, payload)] *)
Definition emit (fuel : nat) (amb : ambient) (type source : string) (payload : P)
    (w : world) : world :=
  let ev := {| type_ := type;
               timestamp := performance_now amb;
               wallTime := Date_now amb;
               source := source;
               payload := payload;
               sessionId := getSessionId amb;
               pageUrl := location_href amb |} in
  let history := _history (bus w) ++ [ev] in
  let history := if decide (_maxHistory (bus w) < length history)
                 then drop 1 history else history in
  let w := with_bus w {| _listeners := _listeners (bus w);
                         _history := history;
                         _maxHistory := _maxHistory (bus w) |} in
  match _listeners (bus w) !! type with
  | None => w
  | Some _ => dispatch fuel ev 0 w
  end.

(** While it runs, a listener leaves alone the entries that come after its
    own in the set of [type]: it may unsubscribe itself (as the listeners of
    [once] do) or listeners called before it, but it neither unsubscribes a
    listener still to be called nor subscribes a new one. *)
Definition later_entries_kept (type : string) : Prop :=
  ∀ l ev w s i,
    _listeners (bus w) !! type = Some s →
    s !! i = Some (Some l) →
    ∃ s', _listeners (bus (call l ev w).1) !! type = Some s'
          ∧ drop (S i) s' = drop (S i) s.


(** The event object that [emit] builds. *)
Definition event_of (amb : ambient) (type source : string) (payload : P) : event :=
  {| type_ := type;
     timestamp := performance_now amb;
     wallTime := Date_now amb;
     source := source;
     payload := payload;
     sessionId := getSessionId amb;
     pageUrl := location_href amb |}.

(** A run of [emit] calls, first to last, each with what it reads from its
    surroundings. *)
Definition emit_each (fuel : nat) (w : world)
    (calls : list (ambient * string * string * P)) : world :=
  foldl (λ w '(amb, type, source, payload), emit fuel amb type source payload w)
        w calls.

(** Listeners that do not touch the history of the bus, and listeners that
    neither subscribe nor unsubscribe. *)
Definition history_kept : Prop :=
  ∀ l ev w, _history (bus (call l ev w).1) = _history (bus w)
            ∧ _maxHistory (bus (call l ev w).1) = _maxHistory (bus w).

Definition listeners_kept : Prop :=
  ∀ l ev w, _listeners (bus (call l ev w).1) = _listeners (bus w).

(** [once(type, listener)] subscribes a new function,
    [(event) => { unsub(); listener(event); }], and returns its [unsub],
    which is [off type wrapper].  [wrapper] is the identity of the new
    function; [call_with_once] gives it its behaviour: it unsubscribes itself
    and then calls [listener]. *)
Definition once (b : t) (type : string) (wrapper : listener) : t :=
  on b type wrapper.

Definition call_with_once (type : string) (wrapper l : listener)
  : listener → event → world → world * option E :=
  λ l' ev w,
    if decide (l' = wrapper)
    then call l ev (with_bus w (off (bus w) type wrapper))
    else call l' ev w.

End Bus.

Arguments event : clear implicits.
Arguments t : clear implicits.
Arguments world : clear implicits.

(** A run of [on] calls and of calls of the functions that [on] returned,
    first to last, on a new bus. *)
Inductive subscription :=
  | Subscribe (type : string) (l : listener)
  | Unsubscribe (type : string) (l : listener).

Definition subscriptions {P : Type} (ops : list subscription) : t P :=
  foldl (λ b op, match op with
                 | Subscribe type l => on b type l
                 | Unsubscribe type l => off b type l
                 end) constructor ops.

(** The listeners that an [emit] of [type] finds subscribed, in the order
    of the set. *)
Definition listeners_of {P : Type} (b : t P) (type : string) : list listener :=
  set_values (default [] (_listeners b !! type)).

(** Listeners for the examples: each appends its number to a log; listener
    1 then throws, and listener 2 first unsubscribes itself, as a listener
    registered with [once] does. *)
Definition logging_listener (l : listener) (ev : event nat)
    (w : world nat string (list nat)) : world nat string (list nat) * option string :=
  ({| bus := if decide (l = 2) then off (bus w) (type_ ev) l else bus w;
      console := console w;
      app := app w ++ [l] |},
   if decide (l = 1) then Some "boom"%string else None).


(** Listeners that only log their number; listener 1 then throws. *)
Definition plain_listener (l : listener) (ev : event nat)
    (w : world nat string (list nat)) : world nat string (list nat) * option string :=
  ({| bus := bus w; console := console w; app := app w ++ [l] |},
   if decide (l = 1) then Some "boom"%string else None).

End EventBus.

(** ** src/core/Config.js *)

Module Config.

(** The values of a configuration.  An object is given by its own
    enumerable properties, as a map: the order of the properties is not
    kept, and neither is the prototype of an object.  [VFun] is a function
    (a hook), known by its identity. *)
Inductive value :=
  | VUndefined
  | VNull
  | VBool (b : bool)
  | VNum (x : float)
  | VStr (s : string)
  | VFun (id : nat)
  | VArr (items : list value)
  | VObj (props : gmap string value).

Definition object (props : list (string * value)) : value :=
  VObj (list_to_map props).

Definition DEFAULT_CONFIG : gmap string value :=
  list_to_map
    [("appName", VStr "unknown");
     ("version", VStr "1.0.0");
     ("environment", VStr "production");
     ("framework", VStr "auto");
     ("collectors",
      object [("jsExecution", VBool true); ("memory", VBool true);
              ("cpu", VBool true); ("dom", VBool true);
              ("network", VBool true); ("webVitals", VBool true)]);
     ("anomaly",
      object [("enabled", VBool true); ("strategy", VStr "ema");
              ("sensitivity", VStr "medium");
              ("baselineLearningPeriod", VNum 30)]);
     ("transport",
      object [("type", VStr "beacon"); ("endpoint", VNull);
              ("batchSize", VNum 20); ("flushIntervalMs", VNum 5000);
              ("samplingRate", VNum 1); ("smartSampling", VBool false);
              ("retryAttempts", VNum 3)]);
     ("debug", VBool false);
     ("maxEventsPerMinute", VNum 500);
     ("enableOverlay", VBool false);
     ("onAnomaly", VNull);
     ("onMetric", VNull);
     ("beforeSend", VNull)].

(** The own enumerable properties of a value, which are what
    [Object.keys(v)] lists and what [{...v}] copies: those of an object, the
    elements of an array (taken without holes) and the characters of a
    string under their indices, and none for the other values. *)
Definition indexed (items : list value) : gmap string value :=
  list_to_map (imap (λ i x, (pretty i, x)) items).

Definition own_properties (v : value) : gmap string value :=
  match v with
  | VObj props => props
  | VArr items => indexed items
  | VStr s =>
      indexed ((λ c, VStr (String c EmptyString)) <$> String.list_ascii_of_string s)
  | _ => ∅
  end.

(** [v !== null && typeof v === 'object' && !Array.isArray(v)] *)
Definition mergeable (v : value) : bool :=
  match v with VObj _ => true | _ => false end.

(** [DEFAULT_CONFIG[key]], as far as [{...DEFAULT_CONFIG[key]}] can tell: a
    key that is not an own property reads as [undefined] or as a member of
    [Object.prototype], none of which has an enumerable property. *)
Definition get (obj : gmap string value) (key : string) : value :=
  default VUndefined (obj !! key).

(** [obj[key] = v]: the key ["__proto__"] sets the prototype and adds no
    own property. *)
Definition assign (obj : gmap string value) (key : string) (v : value)
  : gmap string value :=
  if decide (key = "__proto__") then obj else <[key := v]> obj.

(** What the loop of [mergeConfig] stores for a key of the user's
    configuration; in [{...a, ...b}] the properties of [b] win. *)
Definition merged_value (key : string) (v : value) : value :=
  if mergeable v
  then VObj (own_properties v ∪ own_properties (get DEFAULT_CONFIG key))
  else v.

(** [mergeConfig(userConfig)]: the own properties of the object it returns;
    [None] is the TypeError that [Object.keys] throws for [undefined] and
    [null].  The keys are distinct and each is assigned once, so the order in
    which they are walked does not matter. *)
Definition mergeConfig (userConfig : value) : option (gmap string value) :=
  match userConfig with
  | VUndefined | VNull => None
  | _ =>
      Some (foldl (λ merged '(key, v), assign merged key (merged_value key v))
                  DEFAULT_CONFIG (map_to_list (own_properties userConfig)))
  end.

End Config.

(** ** src/core/Timer.js *)

Module Timer.

Record t := mk {
  _marks : gmap string float
}.

(** [constructor()] *)
Definition constructor : t := {| _marks := ∅ |}.

(** [mark(label)]; [now] is what [performance.now()] returns. *)
Definition mark (self : t) (label : string) (now : float) : t :=
  {| _marks := <[label := now]> (_marks self) |}.

(** What [measure] returns, and the call [performance.measure(label,
    { start, duration })] that it makes ([None]: no call); an exception of
    that call is caught and dropped. *)
Record measured := mk_measured {
  duration : float;
  native : option (string * float * float)
}.

(** [measure(label, startMark, endMark)]; [endMark] may be left out, and
    [now] is what [performance.now()] would return. *)
Definition measure (self : t) (label startMark : string) (endMark : option string)
    (now : float) : measured :=
  match _marks self !! startMark with
  | None => {| duration := (-1)%float; native := None |}
  | Some start =>
      let end_ :=
        match endMark with
        | Some e => if decide (e = "") then now else default now (_marks self !! e)
        | None => now
        end in
      let duration := (end_ - start)%float in
      {| duration := duration; native := Some (label, start, duration) |}
  end.

(** [clear()] *)
Definition clear (self : t) : t := {| _marks := ∅ |}.

(** A run of [mark] calls, first to last, each with its clock reading. *)
Definition markAll (self : t) (marks : list (string * float)) : t :=
  foldl (λ self m, mark self m.1 m.2) self marks.

End Timer.


(** ** Definitions used in the statements and proofs *)

Module Aux.

(** What the fields of a ring buffer hold after pushing [xs] into a new
    buffer of positive capacity [C]: item number [i] sits in slot [i mod C]
    for as long as it is among the last [C] items. *)
Record filled {A : Type} (C : nat) (xs : list A) (rb : RingBuffer.t A) : Prop := {
  filled_capacity : RingBuffer.capacity rb = C;
  filled_buffer : length (RingBuffer.buffer rb) = C;
  filled_head : RingBuffer.head rb = RingBuffer.Idx (length xs mod C);
  filled_count : RingBuffer.count rb = length xs `min` C;
  filled_slots : ∀ i x, xs !! i = Some x → length xs ≤ i + C →
                        RingBuffer.buffer rb !! (i mod C) = Some (Some x)
}.

(** The value of a counter after [n] increments [count++] from 0. *)
Definition counter (n : nat) : float := Nat.iter n (λ c, c + 1)%float 0%float.

(** [p * 2^k] for [k >= 0]. *)
Definition shl (p : positive) (k : Z) : positive :=
  match k with Zpos k => shift_pos k p | _ => p end.

(** The binary64 representation of a positive integer below [2^53]. *)
Definition int_sf (p : positive) : spec_float :=
  S754_finite false (shl p (53 - Zpos (Pos.size p))) (Zpos (Pos.size p) - 53).

(** The representation of [counter n]: exact below [2^53], where the counter
    stops growing. *)
Definition int_spec (z : Z) : spec_float :=
  if (z =? 0)%Z then S754_zero false
  else if (z <? 2 ^ 53)%Z then int_sf (Z.to_pos z)
  else S754_finite false 4503599627370496 1.

Definition exact_record (q : positive) : shr_record :=
  {| shr_m := Zpos q; shr_r := false; shr_s := false |}.

End Aux.


(** ** Exact values of binary64 numbers *)

(** What the facts about rounding are stated with.  The operations of
    [SpecFloat] work on a mantissa and an exponent; their results are
    compared here as integers, the value of a number in units of
    [2 ^ - scale], a unit small enough for every mantissa that the
    operations shift (a quotient is formed at an exponent of -2045 at the
    lowest). *)
Module Exact.
Local Open Scope Z_scope.

Definition scale : Z := 2200.

(** The value of a number, in units of [2 ^ - scale]; both zeros are 0. *)
Definition Zval (x : spec_float) : Z :=
  match x with
  | S754_finite s m e => cond_Zopp s (Zpos m * 2 ^ (e + scale))
  | _ => 0
  end.

Definition F2Z (x : float) : Z := Zval (Prim2SF x).

Definition magnitude (x : spec_float) : Z :=
  match x with
  | S754_finite _ m e => Zpos m * 2 ^ (e + scale)
  | _ => 0
  end.

(** Zero or finite and not zero: neither NaN nor an infinity. *)
Definition number (x : spec_float) : bool :=
  match x with S754_zero _ | S754_finite _ _ _ => true | _ => false end.

Definition overflowed (x : spec_float) : bool :=
  match x with S754_infinity _ => true | _ => false end.

Definition sign_of (x : spec_float) : option bool :=
  match x with
  | S754_zero s | S754_infinity s | S754_finite s _ _ => Some s
  | S754_nan => None
  end.

(** Above zero: a positive number or +Infinity. *)
Definition positive_sf (x : spec_float) : bool :=
  match x with S754_finite false _ _ | S754_infinity false => true | _ => false end.

(** Zero of either sign, a positive number or +Infinity. *)
Definition not_negative (x : spec_float) : bool :=
  match x with
  | S754_zero _ | S754_finite false _ _ | S754_infinity false => true
  | _ => false
  end.

(** The mantissa [m] at a unit [W] is the exact value [A] cut off:
    [m * W <= A < (m + 1) * W], and [inexact] says whether anything was cut
    off. *)
Definition truncated (m : Z) (inexact : bool) (W A : Z) : Prop :=
  m * W <= A < (m + 1) * W /\ (inexact = false <-> A = m * W).

Definition inexact_record (mrs : shr_record) : bool := shr_r mrs || shr_s mrs.

Definition inexact_location (l : location) : bool :=
  match l with loc_Exact => false | loc_Inexact _ => true end.

(** The magnitudes of the binary64 numbers. *)
Definition representable (V : Z) : Prop :=
  V = 0 \/ exists m e, bounded prec emax m e = true /\ V = Zpos m * 2 ^ (e + scale).

(** The values of the binary64 numbers. *)
Definition floatZ (z : Z) : Prop :=
  exists R, valid_binary R = true /\ number R = true /\ Zval R = z.

(** [r] is what the exact value [a] rounds to: no number lies strictly
    between the two. *)
Definition rounded (a r : Z) : Prop :=
  forall z, floatZ z -> (a <= z -> r <= z) /\ (z <= a -> z <= r).

(** The same for the quotient of [d] by [c]. *)
Definition rounded_quot (d c q : Z) : Prop :=
  forall z, floatZ z ->
    (d * 2 ^ scale <= z * c -> q <= z) /\ (z * c <= d * 2 ^ scale -> z <= q).

(** What updates without overflow keep of a record of [BaselineManager]:
    the count is a counter, at least 1 unless the record is new, with mean
    0; the mean is finite; and [m2] is a number that is not negative, or
    +Infinity. *)
Record sound (data : BaselineData.t) : Prop := {
  sound_count : exists n, BaselineData.count data = Aux.counter n;
  sound_mean : is_finite (BaselineData.mean data) = true;
  sound_m2 : not_negative (Prim2SF (BaselineData.m2 data)) = true;
  sound_started :
    2 ^ scale <= F2Z (BaselineData.count data)
    \/ (F2Z (BaselineData.count data) = 0 /\ F2Z (BaselineData.mean data) = 0)
}.

End Exact.


(** * Theorems *)

(** Closing a goal by running the model on concrete numbers. *)
Ltac by_evaluation := vm_compute; reflexivity.

(** Membership in a list that is written out. *)
Ltac by_membership :=
  repeat first [apply list_elem_of_here | apply list_elem_of_further].

(** ** Ring buffer *)

Module RingBufferFacts.
Import RingBuffer Aux.

Section Facts.
Context {A : Type}.
Implicit Types (rb : t A) (xs : list A) (x : A).

Lemma pushAll_snoc rb xs x : pushAll rb (xs ++ [x]) = push (pushAll rb xs) x.
Proof. unfold pushAll. by rewrite foldl_app. Qed.

Lemma idx_mod_pos (i C : nat) : 0 < C → idx_mod (Idx i) C = Idx (i mod C).
Proof. by destruct C; [lia|]. Qed.

Lemma mod_slot_fresh (C i n : nat) : i < n → n < i + C → i mod C ≠ n mod C.
Proof.
  intros Hlt Hwin Heq.
  assert (HC : C ≠ 0) by lia.
  pose proof (Nat.div_mod i C HC) as Hi.
  pose proof (Nat.div_mod n C HC) as Hn.
  rewrite Heq in Hi.
  destruct (decide (i / C < n / C)) as [Hq|Hq].
  - pose proof (Nat.mul_le_mono_l _ _ C (proj1 (Nat.le_succ_l _ _) Hq)). lia.
  - pose proof (Nat.mul_le_mono_l (n / C) (i / C) C ltac:(lia)). lia.
Qed.

Lemma filled_new C : 0 < C → filled (A:=A) C [] (new C).
Proof.
  intros HC. split; simpl; try done.
  - by rewrite length_replicate.
  - by rewrite Nat.Div0.mod_0_l.
Qed.

Lemma filled_push C xs rb x :
  0 < C → filled C xs rb → filled C (xs ++ [x]) (push rb x).
Proof.
  intros HC [Hcap Hbuf Hhead Hcount Hslots].
  assert (Hslot : Datatypes.length xs mod C < Datatypes.length (buffer rb)).
  { rewrite Hbuf. apply Nat.mod_upper_bound. lia. }
  assert (Hset : array_set (buffer rb) (head rb) x
                 = <[Datatypes.length xs mod C := Some x]> (buffer rb)).
  { rewrite Hhead. unfold array_set. by rewrite decide_True. }
  split; unfold push; cbn [capacity buffer head count]; rewrite ?Hset.
  - done.
  - by rewrite length_insert.
  - rewrite Hhead, Hcap, length_app. cbn [Datatypes.length idx_add].
    rewrite idx_mod_pos by done. f_equal.
    by rewrite Nat.Div0.add_mod_idemp_l.
  - rewrite Hcount, Hcap, length_app. cbn [Datatypes.length]. case_decide; lia.
  - intros i y Hi Hwin. rewrite length_app in Hwin. simpl in Hwin.
    destruct (decide (i = Datatypes.length xs)) as [->|Hne].
    + rewrite list_lookup_insert_eq by done.
      rewrite lookup_app_r, Nat.sub_diag in Hi by done.
      simpl in Hi. by simplify_eq.
    + assert (Hlt : i < Datatypes.length xs).
      { apply lookup_lt_Some in Hi. rewrite length_app in Hi. simpl in Hi. lia. }
      rewrite lookup_app_l in Hi by done.
      rewrite list_lookup_insert_ne.
      * apply Hslots; [done | lia].
      * intros Heq. eapply (mod_slot_fresh C i (Datatypes.length xs)); [done | lia | done].
Qed.

Lemma filled_pushAll C xs : 0 < C → filled C xs (pushAll (new C) xs).
Proof.
  intros HC. induction xs as [|x xs IH] using rev_ind.
  - by apply filled_new.
  - rewrite pushAll_snoc. by apply filled_push.
Qed.

Lemma toArray_filled C xs rb :
  0 < C → filled C xs rb →
  toArray rb = Some <$> drop (Datatypes.length xs - C) xs.
Proof.
  intros HC [Hcap Hbuf Hhead Hcount Hslots]. unfold toArray.
  case_decide as Hzero.
  { assert (xs = []) as -> by (apply length_zero_iff_nil; lia). done. }
  apply list_eq. intros i.
  rewrite !list_lookup_fmap, lookup_drop.
  destruct (decide (i < count rb)) as [Hi|Hi].
  - rewrite lookup_seq_lt by done. simpl.
    set (j := Datatypes.length xs - C + i).
    assert (Hj : j < Datatypes.length xs) by (unfold j; lia).
    destruct (lookup_lt_is_Some_2 xs j Hj) as [x Hx].
    rewrite Hx. simpl. f_equal.
    assert (Hmod : idx_mod (idx_add (if decide (count rb < capacity rb)
                                     then Idx 0 else head rb) i) (capacity rb)
                   = Idx (j mod C)).
    { rewrite Hcap. case_decide as Hfull.
      - cbn [idx_add]. rewrite idx_mod_pos by done.
        do 2 f_equal. unfold j. lia.
      - rewrite Hhead. cbn [idx_add]. rewrite idx_mod_pos by done. f_equal.
        rewrite Nat.Div0.add_mod_idemp_l.
        replace (Datatypes.length xs + i) with (j + 1 * C) by (unfold j; lia).
        by rewrite Nat.Div0.mod_add. }
    rewrite Hmod. cbn [array_get].
    rewrite (Hslots j x) by (done || (unfold j; lia)).
    done.
  - rewrite lookup_seq_ge by lia. simpl.
    rewrite lookup_ge_None_2; [done | lia].
Qed.

Lemma pushAll_zero_capacity xs :
  count (pushAll (new 0) xs) = 0 ∧ capacity (pushAll (new 0) xs) = 0.
Proof.
  induction xs as [|x xs [IHc IHk]] using rev_ind; [done|].
  rewrite pushAll_snoc. simpl. rewrite IHc, IHk. by rewrite decide_False by lia.
Qed.

(** C4. For a ring buffer of any capacity [C] and any sequence [xs] of
    pushed items, [toArray()] returns the last [C] items of [xs], oldest
    first (all of [xs] while fewer than [C] were pushed), and [length] is
    [min (length xs) C]: after [C + k] pushes these are exactly the last
    [C] items, and the length never exceeds [C]. *)
Theorem ring_buffer_keeps_last_capacity (C : nat) xs :
  toArray (pushAll (new C) xs) = Some <$> drop (Datatypes.length xs - C) xs
  ∧ length (pushAll (new C) xs) = Datatypes.length xs `min` C
  ∧ length (pushAll (new C) xs) ≤ C.
Proof.
  destruct (decide (C = 0)) as [->|HC].
  - destruct (pushAll_zero_capacity xs) as [Hc Hk].
    unfold toArray, length. rewrite Hc. simpl.
    rewrite Nat.sub_0_r, drop_all. split; [done | lia].
  - pose proof (filled_pushAll C xs ltac:(lia)) as Hf.
    split; [by apply toArray_filled; [lia|] |].
    unfold length. rewrite (filled_count _ _ _ Hf). lia.
Qed.

(** The fields of a buffer of capacity 0: the first push stores its item in
    slot 0 of the empty array and leaves [NaN] in [head]; no later push
    touches an element, and [count] stays 0. *)
Lemma pushAll_zero_capacity_fields xs :
  pushAll (A:=A) (new 0) xs
  = match xs with
    | [] => new 0
    | x :: _ => {| capacity := 0; buffer := [Some x]; head := IdxNaN; count := 0 |}
    end.
Proof.
  induction xs as [|y xs IH] using rev_ind; [done|].
  rewrite pushAll_snoc, IH. by destruct xs.
Qed.

(** X1. [latest] is the item pushed last, for any capacity that is not 0 and
    any sequence of pushes; it is [undefined] for a buffer into which nothing
    was pushed, and always for a buffer of capacity 0. *)
Theorem latest_is_last_pushed (C : nat) xs :
  latest (pushAll (new C) xs) = if decide (C = 0) then None else last xs.
Proof.
  case_decide as HC.
  - subst C. unfold latest. by rewrite (proj1 (pushAll_zero_capacity xs)).
  - pose proof (filled_pushAll C xs ltac:(lia)) as [Hcap Hbuf Hhead Hcount Hslots].
    unfold latest. rewrite Hcount, Hcap, Hhead.
    destruct xs as [|x0 xs0] using rev_ind; [done|]. clear IHxs0.
    rewrite last_snoc, length_app in *. cbn [Datatypes.length] in *.
    rewrite decide_False by lia.
    cbn [idx_add]. rewrite idx_mod_pos by lia. cbn [array_get].
    assert (Hslot : ((Datatypes.length xs0 + 1) mod C + (C - 1)) mod C
                    = Datatypes.length xs0 mod C).
    { rewrite Nat.Div0.add_mod_idemp_l.
      replace (Datatypes.length xs0 + 1 + (C - 1))
        with (Datatypes.length xs0 + 1 * C) by lia.
      by rewrite Nat.Div0.mod_add. }
    rewrite Hslot, (Hslots (Datatypes.length xs0) x0); [done | | lia].
    by rewrite lookup_app_r, Nat.sub_diag.
Qed.

(** X2. Pushing allocates nothing: whatever is pushed into a buffer of
    capacity [C], the capacity stays [C] and the backing array keeps the
    [C] slots it was created with.  (With capacity 0 the array holds the
    first item pushed, and never more than that one.) *)
Theorem push_keeps_the_backing_array (C : nat) xs :
  capacity (pushAll (new C) xs) = C
  ∧ Datatypes.length (buffer (pushAll (new C) xs))
    = if decide (C = 0) then Datatypes.length xs `min` 1 else C.
Proof.
  case_decide as HC.
  - subst C. rewrite pushAll_zero_capacity_fields. destruct xs; split; cbn; lia.
  - pose proof (filled_pushAll C xs ltac:(lia)) as [Hcap Hbuf _ _ _]. done.
Qed.

End Facts.
End RingBufferFacts.

(** ** Binary64 facts *)

(** Facts about binary64 numbers, drawn from the specification of the
    primitive operations ([FloatAxioms], [SpecFloat]): comparison, the
    commutativity of the product, the two zeros, and the exactness of a
    counter that is incremented by 1. *)
Module FloatFacts.
Import Aux.
Local Open Scope Z_scope.

(** *** Comparison and product *)

Lemma SFcompare_eq_sym a b : SFcompare a b = Some Eq -> SFcompare b a = Some Eq.
Proof.
  destruct a as [sa|sa| |sa ma ea], b as [sb|sb| |sb mb eb]; simpl; try congruence;
    try (destruct sa; congruence); try (destruct sb; congruence);
    try (destruct sa, sb; congruence).
  destruct sa, sb; try congruence;
    (destruct (Z.compare_spec ea eb) as [->| |]; try congruence;
     rewrite Z.compare_refl;
     destruct (Pos.compare_cont Eq ma mb) eqn:Hc; simpl; try congruence;
     apply Pos.compare_eq in Hc; subst; now rewrite Pos.compare_cont_refl).
Qed.

(** [x == y] excludes [y < x]: the strict comparison is false at equality. *)
Lemma eqb_not_ltb (x y : float) : (x =? y)%float = true -> (y <? x)%float = false.
Proof.
  rewrite FloatAxioms.eqb_spec, ltb_spec. unfold SFeqb, SFltb.
  destruct (SFcompare (Prim2SF x) (Prim2SF y)) as [[]|] eqn:Hc; try discriminate.
  intros _. now rewrite (SFcompare_eq_sym _ _ Hc).
Qed.

Lemma mul_comm (x y : float) : (x * y = y * x)%float.
Proof.
  apply Prim2SF_inj. rewrite !mul_spec. unfold SF64mul.
  destruct (Prim2SF x) as [sa|sa| |sa ma ea], (Prim2SF y) as [sb|sb| |sb mb eb]; simpl;
    rewrite ?(xorb_comm sa sb); try reflexivity.
  now rewrite Pos.mul_comm, Z.add_comm.
Qed.

(** *** The two zeros *)



(** *** Shifts and sizes of mantissas *)

Lemma digits2_size p : digits2_pos p = Pos.size p.
Proof. induction p; simpl; congruence. Qed.

Lemma shl_Z p k : 0 <= k -> Zpos (shl p k) = Zpos p * 2 ^ k.
Proof.
  destruct k as [|k|k]; intros Hk; simpl shl.
  - simpl. lia.
  - rewrite shift_pos_correct, Z.pow_pos_fold. lia.
  - lia.
Qed.

Lemma shl_shl q a b : 0 <= a -> 0 <= b -> shl (shl q a) b = shl q (a + b).
Proof.
  intros Ha Hb. apply Pos2Z.inj. rewrite !shl_Z, Z.pow_add_r by lia. lia.
Qed.

Lemma size_bounds p : 2 ^ (Zpos (Pos.size p) - 1) <= Zpos p < 2 ^ Zpos (Pos.size p).
Proof.
  pose proof (Pos.size_gt p) as Hgt. pose proof (Pos.size_le p) as Hle.
  apply Pos2Z.pos_lt_pos in Hgt. apply Pos2Z.pos_le_pos in Hle.
  rewrite Pos2Z.inj_pow in Hgt, Hle. change (Zpos p~0) with (2 * Zpos p) in Hle.
  replace (Zpos (Pos.size p)) with (Zpos (Pos.size p) - 1 + 1) in Hle at 1 by lia.
  rewrite Z.pow_add_r in Hle by lia. change (2 ^ 1) with 2 in Hle. lia.
Qed.

Lemma size_unique p s : 2 ^ (s - 1) <= Zpos p < 2 ^ s -> Zpos (Pos.size p) = s.
Proof.
  intros [Hlo Hhi]. pose proof (size_bounds p) as [Hlo' Hhi'].
  destruct (Z.lt_trichotomy (Zpos (Pos.size p)) s) as [H|[H|H]]; [|assumption|].
  - assert (2 ^ Zpos (Pos.size p) <= 2 ^ (s - 1)) by (apply Z.pow_le_mono_r; lia). lia.
  - assert (0 <= s).
    { destruct (Z.lt_ge_cases s 0) as [Hneg|]; [|lia].
      rewrite (Z.pow_neg_r 2 s) in Hhi by lia. lia. }
    assert (2 ^ s <= 2 ^ (Zpos (Pos.size p) - 1)) by (apply Z.pow_le_mono_r; lia). lia.
Qed.

Lemma size_shl p k : 0 <= k -> Zpos (Pos.size (shl p k)) = Zpos (Pos.size p) + k.
Proof.
  intros Hk. apply size_unique. rewrite shl_Z by assumption.
  pose proof (size_bounds p) as [Hlo Hhi].
  replace (Zpos (Pos.size p) + k - 1) with (Zpos (Pos.size p) - 1 + k) by lia.
  rewrite !Z.pow_add_r by lia.
  assert (0 < 2 ^ k) by (apply Z.pow_pos_nonneg; lia). nia.
Qed.

(** An integer below [2^53] has at most 53 bits. *)
Lemma size_le_53 p : Zpos p < 2 ^ 53 -> Zpos (Pos.size p) <= 53.
Proof.
  intros Hp. pose proof (size_bounds p) as [Hlo _].
  destruct (Z.le_gt_cases (Zpos (Pos.size p)) 53) as [|Hgt]; [assumption|].
  assert (2 ^ 53 <= 2 ^ (Zpos (Pos.size p) - 1)) by (apply Z.pow_le_mono_r; lia). lia.
Qed.

(** *** Rounding a mantissa that needs no rounding *)

Lemma iter_pos_iter {A} (f : A -> A) n x : SpecFloat.iter_pos f n x = Pos.iter f x n.
Proof.
  revert x. induction n as [n IH|n IH|]; intros x; simpl.
  - rewrite !IH. now rewrite <- !Pos.iter_swap.
  - now rewrite !IH.
  - reflexivity.
Qed.

(** Shifting out [k] zero bits is exact. *)
Lemma shr_1_shift k q :
  SpecFloat.iter_pos shr_1 k (exact_record (shift_pos k q)) = exact_record q.
Proof.
  rewrite iter_pos_iter. unfold shift_pos.
  induction k as [|k IH] using Pos.peano_ind.
  - reflexivity.
  - rewrite Pos.iter_succ_r, Pos.iter_succ. exact IH.
Qed.

Lemma shr_exact q t e :
  0 <= t ->
  shr (exact_record (shl q t)) e t = (exact_record q, e + t).
Proof.
  intros Ht. destruct t as [|t|t]; simpl.
  - now rewrite Z.add_0_r.
  - now rewrite shr_1_shift.
  - lia.
Qed.

Lemma fexp_normal x : -1074 <= x - 53 -> fexp 53 1024 x = x - 53.
Proof. intros H. unfold fexp, emin. lia. Qed.

Lemma binary_round_aux_exact q t e :
  Zpos (Pos.size q) = 53 -> 0 <= t -> -1074 <= e + t <= 971 ->
  binary_round_aux 53 1024 false (Zpos (shl q t)) e loc_Exact
  = S754_finite false q (e + t).
Proof.
  intros Hq Ht He. unfold binary_round_aux, shr_fexp.
  cbn [Zdigits2 shr_record_of_loc]. rewrite digits2_size, size_shl, Hq by assumption.
  rewrite fexp_normal by lia.
  replace (53 + t + e - 53 - e) with t by lia.
  fold (exact_record (shl q t)). rewrite shr_exact by assumption.
  cbn [exact_record shr_m loc_of_shr_record round_nearest_even Zdigits2].
  rewrite digits2_size, Hq, fexp_normal by lia.
  replace (53 + (e + t) - 53 - (e + t)) with 0 by lia.
  cbn [shr shr_m]. replace (e + t <=? 1024 - 53) with true by (symmetry; apply Z.leb_le; lia).
  reflexivity.
Qed.

Lemma shl_align_down m e e' :
  e' <= e -> shl_align m e e' = (shl m (e - e'), e') \/ (e' = e /\ shl_align m e e' = (m, e)).
Proof.
  intros H. unfold shl_align.
  destruct (e' - e) as [|d|d] eqn:Hd.
  - right. split; [lia | reflexivity].
  - lia.
  - left. replace (e - e') with (Zpos d) by lia. reflexivity.
Qed.

(** An integer of at most 53 bits, times a power of two, is rounded to
    itself, in normal form. *)
Lemma binary_round_shl q k e :
  0 <= k -> Zpos (Pos.size q) <= 53 ->
  -1074 <= e + k + Zpos (Pos.size q) - 53 <= 971 ->
  binary_round 53 1024 false (shl q k) e
  = S754_finite false (shl q (53 - Zpos (Pos.size q))) (e + k + Zpos (Pos.size q) - 53).
Proof.
  intros Hk Hs He. unfold binary_round.
  rewrite digits2_size, size_shl by assumption.
  rewrite fexp_normal by lia.
  set (s := Zpos (Pos.size q)) in *.
  set (q' := shl q (53 - s)).
  assert (Hq' : Zpos (Pos.size q') = 53).
  { unfold q'. rewrite size_shl by lia. fold s. lia. }
  unfold shl_align.
  destruct (s + k + e - 53 - e) as [|t|d] eqn:Ht.
  - replace (shl q k) with (shl q' 0).
    2:{ unfold q'. rewrite shl_shl by lia. f_equal. lia. }
    rewrite binary_round_aux_exact by (assumption || lia). f_equal. lia.
  - replace (shl q k) with (shl q' (Zpos t)).
    2:{ unfold q'. rewrite shl_shl by lia. f_equal. lia. }
    rewrite binary_round_aux_exact by (assumption || lia). f_equal. lia.
  - replace (Pos.iter xO (shl q k) d) with (shl q' 0).
    2:{ change (Pos.iter xO (shl q k) d) with (shl (shl q k) (Zpos d)).
        unfold q'. rewrite !shl_shl by lia. f_equal. lia. }
    rewrite binary_round_aux_exact by (assumption || lia). f_equal. lia.
Qed.

(** *** A counter incremented by 1 *)

(** Below [2^53], adding 1 to an integer is exact. *)
Lemma int_sf_succ p :
  Zpos p + 1 < 2 ^ 53 ->
  SFadd 53 1024 (int_sf p) (int_sf 1) = int_sf (p + 1).
Proof.
  intros Hp.
  pose proof (size_bounds p) as [Hlo Hhi].
  pose proof (size_le_53 p ltac:(lia)) as Hs.
  pose proof (size_le_53 (p + 1) ltac:(lia)) as Hs'.
  unfold int_sf at 1 2. cbn [SFadd Pos.size].
  change (Z.pos 1 - 53) with (-52). change (shl 1 (53 - 1)) with (shl 1 52).
  rewrite Z.min_r by lia.
  assert (Hx : fst (shl_align (shl p (53 - Zpos (Pos.size p))) (Zpos (Pos.size p) - 53) (-52))
               = shl p 52).
  { destruct (shl_align_down (shl p (53 - Zpos (Pos.size p))) (Zpos (Pos.size p) - 53) (-52)
                ltac:(lia)) as [->|[Heq ->]]; cbn [fst].
    - rewrite shl_shl by lia. f_equal. lia.
    - f_equal. lia. }
  assert (Hy : fst (shl_align (shl 1 52) (-52) (-52)) = shl 1 52) by reflexivity.
  rewrite Hx, Hy. cbn [cond_Zopp].
  replace (Zpos (shl p 52) + Zpos (shl 1 52)) with (Zpos (shl (p + 1) 52)).
  2:{ rewrite !shl_Z by lia. lia. }
  cbn [binary_normalize].
  rewrite binary_round_shl by lia.
  unfold int_sf. f_equal; lia.
Qed.

(** Integers below [2^53] compare as numbers the way they compare as
    integers. *)
Lemma int_sf_compare p q :
  Zpos p < 2 ^ 53 -> Zpos q < 2 ^ 53 ->
  SFcompare (int_sf p) (int_sf q) = Some (Pos.compare p q).
Proof.
  intros Hp Hq. unfold int_sf. cbn [SFcompare]. f_equal.
  pose proof (size_bounds p) as [Hlop Hhip].
  pose proof (size_bounds q) as [Hloq Hhiq].
  pose proof (size_le_53 p Hp) as Hsp. pose proof (size_le_53 q Hq) as Hsq.
  set (sp := Zpos (Pos.size p)) in *. set (sq := Zpos (Pos.size q)) in *.
  destruct (Z.compare_spec (sp - 53) (sq - 53)) as [Heq|Hlt|Hgt].
  - assert (Hs : sp = sq) by lia.
    change (Pos.compare_cont Eq ?a ?b) with (Pos.compare a b).
    rewrite !Pos2Z.inj_compare, !shl_Z by (fold sp; fold sq; lia).
    fold sp. fold sq. rewrite Hs.
    assert (0 < 2 ^ (53 - sq)) by (apply Z.pow_pos_nonneg; lia).
    destruct (Z.compare_spec (Zpos p) (Zpos q));
      [apply Z.compare_eq_iff | apply Z.compare_lt_iff | apply Z.compare_gt_iff]; nia.
  - symmetry. apply Pos.compare_lt_iff. apply Pos2Z.pos_lt_pos.
    assert (2 ^ sp <= 2 ^ (sq - 1)) by (apply Z.pow_le_mono_r; lia). lia.
  - symmetry. apply Pos.compare_gt_iff. apply Pos2Z.pos_lt_pos.
    assert (2 ^ sq <= 2 ^ (sp - 1)) by (apply Z.pow_le_mono_r; lia). lia.
Qed.

(** The counter holds the number of increments up to [2^53] and stays there:
    [2^53 + 1] is rounded back to [2^53]. *)
Lemma counter_spec n : Prim2SF (counter n) = int_spec (Z.of_nat n).
Proof.
  induction n as [|n IH].
  - reflexivity.
  - change (counter (S n)) with (counter n + 1)%float.
    rewrite add_spec, IH. unfold int_spec.
    replace (Z.of_nat (S n) =? 0) with false by (symmetry; apply Z.eqb_neq; lia).
    destruct (Z.eqb_spec (Z.of_nat n) 0) as [Hz|Hz].
    + replace (Z.of_nat (S n)) with 1 by lia. reflexivity.
    + destruct (Z.ltb_spec (Z.of_nat (S n)) (2 ^ 53)) as [Hlt|Hge].
      * replace (Z.of_nat n <? 2 ^ 53) with true by (symmetry; apply Z.ltb_lt; lia).
        change (Prim2SF 1) with (int_sf 1). unfold SF64add.
        rewrite int_sf_succ by lia. f_equal. lia.
      * destruct (Z.ltb_spec (Z.of_nat n) (2 ^ 53)) as [Hlt'|Hge'].
        -- replace (Z.of_nat n) with (2 ^ 53 - 1) by lia. vm_compute. reflexivity.
        -- reflexivity.
Qed.

(** A count of [n] samples reaches a whole threshold [m] exactly when
    [m <= n]. *)
Lemma counter_leb m n :
  (0 < m)%nat -> Z.of_nat m < 2 ^ 53 ->
  (counter m <=? counter n)%float = (m <=? n)%nat.
Proof.
  intros Hm Hm'. rewrite leb_spec, !counter_spec. unfold int_spec, SFleb.
  replace (Z.of_nat m =? 0) with false by (symmetry; apply Z.eqb_neq; lia).
  replace (Z.of_nat m <? 2 ^ 53) with true by (symmetry; apply Z.ltb_lt; lia).
  destruct (Z.eqb_spec (Z.of_nat n) 0) as [Hz|Hz].
  - cbn. symmetry. apply Nat.leb_gt. lia.
  - destruct (Z.ltb_spec (Z.of_nat n) (2 ^ 53)) as [Hlt|Hge].
    + rewrite int_sf_compare by lia.
      rewrite Pos2Z.inj_compare, !Z2Pos.id by lia.
      destruct (Z.compare_spec (Z.of_nat m) (Z.of_nat n)); symmetry;
        (apply Nat.leb_le || apply Nat.leb_gt); lia.
    + unfold int_sf. cbn [SFcompare].
      pose proof (size_le_53 (Z.to_pos (Z.of_nat m))) as Hs.
      rewrite Z2Pos.id in Hs by lia. specialize (Hs Hm').
      set (s := Zpos (Pos.size (Z.to_pos (Z.of_nat m)))) in *.
      replace (s - 53 ?= 1) with Lt by (symmetry; apply Z.compare_lt_iff; lia).
      symmetry. apply Nat.leb_le. lia.
Qed.

End FloatFacts.

(** ** Order and NaN on binary64 numbers *)

Module FloatOrder.
Local Open Scope Z_scope.

Lemma SFcompare_antisym a b : SFcompare b a = CompOpp <$> SFcompare a b.
Proof.
  destruct a as [sa|sa| |sa ma ea], b as [sb|sb| |sb mb eb]; cbn;
    try reflexivity; try (by destruct sa); try (by destruct sb);
    try (by destruct sa, sb).
  change (Pos.compare_cont Eq mb ma) with (mb ?= ma)%positive.
  change (Pos.compare_cont Eq ma mb) with (ma ?= mb)%positive.
  rewrite (Z.compare_antisym ea eb), (Pos.compare_antisym ma mb).
  destruct sa, sb; try reflexivity;
    destruct (ea ?= eb); cbn; try reflexivity;
    destruct (ma ?= mb)%positive; reflexivity.
Qed.

Lemma SFcompare_refl a : a <> S754_nan -> SFcompare a a = Some Eq.
Proof.
  destruct a as [s|s| |s m e]; cbn; try done.
  - by destruct s.
  - intros _. rewrite Z.compare_refl, Pos.compare_cont_refl. by destruct s.
Qed.

Lemma SFcompare_Some a b :
  a <> S754_nan -> b <> S754_nan -> exists c, SFcompare a b = Some c.
Proof.
  destruct a as [sa|sa| |sa ma ea], b as [sb|sb| |sb mb eb]; cbn; try done; eauto.
Qed.

Lemma SFleb_trans a b c :
  SFleb a b = true -> SFleb b c = true -> SFleb a c = true.
Proof.
  unfold SFleb.
  destruct a as [sa|sa| |sa ma ea], b as [sb|sb| |sb mb eb], c as [sc|sc| |sc mc ec];
    cbn; try done;
    try (by destruct sa); try (by destruct sb); try (by destruct sc);
    try (by destruct sa, sb); try (by destruct sa, sc); try (by destruct sb, sc);
    try (by destruct sa, sb, sc).
  change (Pos.compare_cont Eq ma mb) with (ma ?= mb)%positive.
  change (Pos.compare_cont Eq mb mc) with (mb ?= mc)%positive.
  change (Pos.compare_cont Eq ma mc) with (ma ?= mc)%positive.
  destruct sa, sb, sc; try done;
    destruct (Z.compare_spec ea eb), (Z.compare_spec eb ec), (Z.compare_spec ea ec);
    try done; try lia;
    destruct (Pos.compare_spec ma mb), (Pos.compare_spec mb mc), (Pos.compare_spec ma mc);
    cbn; try done; try lia.
Qed.

Local Open Scope float_scope.

(** There is one NaN. *)
Lemma is_nan_spec (x : float) : is_nan x = true <-> Prim2SF x = S754_nan.
Proof.
  unfold is_nan. rewrite FloatAxioms.eqb_spec. unfold SFeqb. split.
  - destruct (Prim2SF x) as [s|s| |s m e] eqn:Hx; try done.
    all: rewrite SFcompare_refl by done; done.
  - by intros ->.
Qed.

Lemma is_nan_false (x : float) : is_nan x = false <-> Prim2SF x <> S754_nan.
Proof. rewrite <- is_nan_spec. by destruct (is_nan x). Qed.

Lemma nan_unique (x : float) : is_nan x = true -> x = nan.
Proof. intros Hx. apply Prim2SF_inj. by apply is_nan_spec in Hx as ->. Qed.

(** [<=] is reflexive on numbers other than NaN, and transitive. *)
Lemma leb_refl (x : float) : is_nan x = false -> (x <=? x) = true.
Proof.
  intros Hx%is_nan_false. rewrite leb_spec. unfold SFleb.
  by rewrite SFcompare_refl.
Qed.

Lemma leb_trans (x y z : float) :
  (x <=? y) = true -> (y <=? z) = true -> (x <=? z) = true.
Proof. rewrite !leb_spec. apply SFleb_trans. Qed.

Lemma ltb_leb (x y : float) : (x <? y) = true -> (x <=? y) = true.
Proof.
  rewrite ltb_spec, leb_spec. unfold SFltb, SFleb.
  by destruct (SFcompare (Prim2SF x) (Prim2SF y)) as [[]|].
Qed.

(** Of two numbers other than NaN, one is below the other or they are
    equal. *)
Lemma leb_of_not_ltb (x y : float) :
  is_nan x = false -> is_nan y = false -> (x <? y) = false -> (y <=? x) = true.
Proof.
  intros Hx%is_nan_false Hy%is_nan_false. rewrite ltb_spec, leb_spec.
  unfold SFltb, SFleb. rewrite (SFcompare_antisym (Prim2SF x) (Prim2SF y)).
  destruct (SFcompare_Some _ _ Hx Hy) as [[] ->]; done.
Qed.

(** *** Operations on NaN *)

Lemma add_nan_l (y : float) : nan + y = nan.
Proof. apply Prim2SF_inj. rewrite add_spec. by destruct (Prim2SF y). Qed.

Lemma add_nan_r (x : float) : x + nan = nan.
Proof. apply Prim2SF_inj. rewrite add_spec. by destruct (Prim2SF x). Qed.

Lemma sub_nan_l (y : float) : nan - y = nan.
Proof. apply Prim2SF_inj. rewrite sub_spec. by destruct (Prim2SF y). Qed.

Lemma sub_nan_r (x : float) : x - nan = nan.
Proof. apply Prim2SF_inj. rewrite sub_spec. by destruct (Prim2SF x). Qed.

Lemma mul_nan_l (y : float) : nan * y = nan.
Proof. apply Prim2SF_inj. rewrite mul_spec. by destruct (Prim2SF y). Qed.

Lemma mul_nan_r (x : float) : x * nan = nan.
Proof. apply Prim2SF_inj. rewrite mul_spec. by destruct (Prim2SF x). Qed.

Lemma div_nan_l (y : float) : nan / y = nan.
Proof. apply Prim2SF_inj. rewrite div_spec. by destruct (Prim2SF y). Qed.

Lemma div_nan_r (x : float) : x / nan = nan.
Proof. apply Prim2SF_inj. rewrite div_spec. by destruct (Prim2SF x). Qed.

Lemma leb_nan_l (y : float) : (nan <=? y) = false.
Proof. by rewrite leb_spec. Qed.

Lemma ltb_nan_r (x : float) : (x <? nan) = false.
Proof. rewrite ltb_spec. unfold SFltb. by destruct (Prim2SF x). Qed.

(** *** Finite numbers *)

Lemma is_finite_spec (x : float) :
  is_finite x = true ->
  match Prim2SF x with S754_zero _ | S754_finite _ _ _ => True | _ => False end.
Proof.
  unfold is_finite. intros [Hnan Hinf]%negb_true_iff%orb_false_iff.
  apply is_nan_false in Hnan. unfold is_infinity in Hinf.
  rewrite FloatAxioms.eqb_spec, abs_spec in Hinf.
  by destruct (Prim2SF x) as [s|s| |s m e].
Qed.

(** [x - x] is [+0] for a finite [x]. *)
Lemma sub_diag (x : float) : is_finite x = true -> x - x = 0.
Proof.
  intros Hx%is_finite_spec. apply Prim2SF_inj. rewrite sub_spec.
  change (Prim2SF 0) with (S754_zero false).
  destruct (Prim2SF x) as [s|s| |s m e]; try done.
  - by destruct s.
  - unfold SF64sub, SFsub. by rewrite Z.sub_diag.
Qed.

(** [0 / y] is a zero when [y] is a number other than 0. *)
Lemma abs_zero_div (y : float) :
  is_nan y = false -> (y =? 0) = false -> abs (0 / y) = 0.
Proof.
  intros Hnan%is_nan_false Hzero. rewrite FloatAxioms.eqb_spec in Hzero.
  apply Prim2SF_inj. rewrite abs_spec, div_spec.
  change (Prim2SF 0) with (S754_zero false) in *.
  by destruct (Prim2SF y) as [s|s| |s m e].
Qed.

(** *** Square roots *)

Lemma binary_round_aux_sign prec emax sx mx ex lx :
  match binary_round_aux prec emax sx mx ex lx with
  | S754_zero s | S754_infinity s | S754_finite s _ _ => s = sx
  | S754_nan => True
  end.
Proof.
  unfold binary_round_aux.
  destruct (shr_fexp prec emax mx ex lx) as [mrs' e'].
  destruct (shr_fexp prec emax _ e' loc_Exact) as [mrs'' e''].
  destruct (shr_m mrs''); [done| |done]. by destruct (_ <=? _)%Z.
Qed.

(** A square root is NaN or is not below 0. *)
Lemma sqrt_not_negative (x : float) :
  is_nan (sqrt x) = true \/ (0 <=? sqrt x) = true.
Proof.
  rewrite is_nan_spec, leb_spec, sqrt_spec.
  change (Prim2SF 0) with (S754_zero false). unfold SF64sqrt, SFsqrt.
  destruct (Prim2SF x) as [s|[]| |[] m e]; auto.
  destruct (SFsqrt_core_binary prec emax (Z.pos m) e) as [[mz ez] lz].
  pose proof (binary_round_aux_sign prec emax false mz ez lz) as Hsign.
  destruct (binary_round_aux prec emax false mz ez lz) as [s|s| |s m' e'];
    subst; auto.
Qed.

(** *** [Math.min] and [Math.max] *)

Lemma Math_min_spec (a b : float) :
  is_nan a = false -> is_nan b = false ->
  (Num.Math_min a b = a \/ Num.Math_min a b = b)
  /\ (Num.Math_min a b <=? a) = true /\ (Num.Math_min a b <=? b) = true.
Proof.
  intros Ha Hb. unfold Num.Math_min. rewrite Ha, Hb. cbn [orb].
  destruct (a <? b) eqn:Hab.
  { split; [by left|]. split; [by apply leb_refl | by apply ltb_leb]. }
  destruct (b <? a) eqn:Hba.
  { split; [by right|]. split; [by apply ltb_leb | by apply leb_refl]. }
  pose proof (leb_of_not_ltb a b Ha Hb Hab). pose proof (leb_of_not_ltb b a Hb Ha Hba).
  destruct (get_sign a).
  - split; [by left|]. split; [by apply leb_refl | done].
  - split; [by right|]. split; [done | by apply leb_refl].
Qed.

Lemma Math_max_spec (a b : float) :
  is_nan a = false -> is_nan b = false ->
  (Num.Math_max a b = a \/ Num.Math_max a b = b)
  /\ (a <=? Num.Math_max a b) = true /\ (b <=? Num.Math_max a b) = true.
Proof.
  intros Ha Hb. unfold Num.Math_max. rewrite Ha, Hb. cbn [orb].
  destruct (a <? b) eqn:Hab.
  { split; [by right|]. split; [by apply ltb_leb | by apply leb_refl]. }
  destruct (b <? a) eqn:Hba.
  { split; [by left|]. split; [by apply leb_refl | by apply ltb_leb]. }
  pose proof (leb_of_not_ltb a b Ha Hb Hab). pose proof (leb_of_not_ltb b a Hb Ha Hba).
  destruct (get_sign a).
  - split; [by right|]. split; [done | by apply leb_refl].
  - split; [by left|]. split; [by apply leb_refl | done].
Qed.

(** The first sample replaces the [Infinity] and [-Infinity] that a record
    starts with. *)
Lemma Math_min_infinity (v : float) : is_nan v = false -> Num.Math_min infinity v = v.
Proof.
  intros Hv. unfold Num.Math_min. rewrite Hv.
  change (is_nan infinity) with false. cbn [orb].
  assert (Hlt : (infinity <? v) = false).
  { apply is_nan_false in Hv. rewrite ltb_spec.
    change (Prim2SF infinity) with (S754_infinity false).
    destruct (Prim2SF v) as [s|s| |s m e]; try done; by destruct s. }
  rewrite Hlt. by destruct (v <? infinity).
Qed.

Lemma Math_max_neg_infinity (v : float) :
  is_nan v = false -> Num.Math_max neg_infinity v = v.
Proof.
  intros Hv. unfold Num.Math_max. rewrite Hv.
  change (is_nan neg_infinity) with false. cbn [orb].
  assert (Hlt : (v <? neg_infinity) = false).
  { apply is_nan_false in Hv. rewrite ltb_spec.
    change (Prim2SF neg_infinity) with (S754_infinity true).
    destruct (Prim2SF v) as [s|s| |s m e]; try done; by destruct s. }
  rewrite Hlt. change (get_sign neg_infinity) with true.
  by destruct (neg_infinity <? v).
Qed.

Lemma Math_min_nan (a x : float) :
  is_nan a = true \/ is_nan x = true -> Num.Math_min a x = nan.
Proof. unfold Num.Math_min. by intros [->| ->]; rewrite ?orb_true_r. Qed.

Lemma Math_max_nan (a x : float) :
  is_nan a = true \/ is_nan x = true -> Num.Math_max a x = nan.
Proof. unfold Num.Math_max. by intros [->| ->]; rewrite ?orb_true_r. Qed.

Lemma Math_min_at_most (a x : float) :
  is_nan a = false ->
  is_nan (Num.Math_min a x) = true \/ (Num.Math_min a x <=? a) = true.
Proof.
  intros Ha. destruct (is_nan x) eqn:Hx.
  - left. by rewrite Math_min_nan by auto.
  - right. by apply Math_min_spec.
Qed.

End FloatOrder.

(** ** Rounding of the binary64 operations *)

(** The result of an addition, a subtraction or a division is the exact
    result rounded: no binary64 number lies strictly between the two.  This
    is what the sign of Welford's increment rests on. *)
Module RoundingFacts.
Import Aux Exact FloatFacts FloatOrder.
Local Open Scope Z_scope.

Lemma fexp_eq x : fexp prec emax x = Z.max (x - 53) (-1074).
Proof. reflexivity. Qed.

Lemma fexp_mono x y : x <= y -> fexp prec emax x <= fexp prec emax y.
Proof. rewrite !fexp_eq. lia. Qed.

Lemma fexp_ge_emin x : -1074 <= fexp prec emax x.
Proof. rewrite fexp_eq. lia. Qed.

Lemma Zdigits2_bounds m : 0 < m -> 2 ^ (Zdigits2 m - 1) <= m < 2 ^ Zdigits2 m.
Proof.
  destruct m as [|p|p]; try lia. intros _. cbn [Zdigits2].
  rewrite digits2_size. apply size_bounds.
Qed.

Lemma Zdigits2_pos m : 0 < m -> 0 < Zdigits2 m.
Proof. destruct m; cbn; lia. Qed.

Lemma Zdigits2_ge m k : 0 <= k -> 2 ^ k <= m -> k + 1 <= Zdigits2 m.
Proof.
  intros Hk Hm. assert (0 < m) by (pose proof (Z.pow_pos_nonneg 2 k); lia).
  pose proof (Zdigits2_bounds m H) as [_ Hhi].
  destruct (Z.le_gt_cases (k + 1) (Zdigits2 m)) as [|Hlt]; [assumption|].
  assert (2 ^ Zdigits2 m <= 2 ^ k) by (apply Z.pow_le_mono_r; lia). lia.
Qed.

Lemma Zdigits2_le m k : 0 <= k -> 0 <= m < 2 ^ k -> Zdigits2 m <= k.
Proof.
  intros Hk [Hm0 Hm]. destruct (Z.eq_dec m 0) as [->|Hne]; [cbn; lia|].
  pose proof (Zdigits2_bounds m ltac:(lia)) as [Hlo _].
  destruct (Z.le_gt_cases (Zdigits2 m) k) as [|Hgt]; [assumption|].
  assert (2 ^ k <= 2 ^ (Zdigits2 m - 1)) by (apply Z.pow_le_mono_r; lia). lia.
Qed.

(** *** Shifting a mantissa to the right *)

Lemma shr_1_spec mrs :
  0 <= shr_m mrs ->
  shr_m (shr_1 mrs) = shr_m mrs / 2
  /\ inexact_record (shr_1 mrs) = Z.odd (shr_m mrs) || inexact_record mrs.
Proof.
  destruct mrs as [m r s]. unfold inexact_record. cbn [shr_m shr_r shr_s].
  intros Hm. destruct m as [|[p|p|]|p]; try lia; cbn [shr_1 shr_m shr_r shr_s].
  - split; [reflexivity|]. reflexivity.
  - split; [|reflexivity]. change (Z.pos p~1) with (2 * Z.pos p + 1).
    apply (Z.div_unique _ 2 _ 1); lia.
  - split; [|reflexivity]. change (Z.pos p~0) with (2 * Z.pos p).
    apply (Z.div_unique _ 2 _ 0); lia.
  - split; reflexivity.
Qed.

Lemma truncated_shr_1 m i W A :
  0 <= m -> 0 < W ->
  truncated m i W A -> truncated (m / 2) (Z.odd m || i) (2 * W) A.
Proof.
  intros Hm HW [[Hlo Hhi] Hex].
  pose proof (Z.div_mod m 2 ltac:(lia)) as Hdm.
  pose proof (Z.mod_pos_bound m 2 ltac:(lia)) as Hb.
  rewrite Zmod_odd in Hdm, Hb.
  set (h := m / 2) in *.
  destruct (Z.odd m); cbn [orb].
  - split; [split; nia|]. split; [discriminate|]. intros HA. nia.
  - split; [split; nia|]. rewrite Hex. split; intros; nia.
Qed.

Lemma truncated_iter_shr_1 p mrs W A :
  0 <= shr_m mrs -> 0 < W ->
  truncated (shr_m mrs) (inexact_record mrs) W A ->
  0 <= shr_m (SpecFloat.iter_pos shr_1 p mrs)
  /\ truncated (shr_m (SpecFloat.iter_pos shr_1 p mrs)) (inexact_record (SpecFloat.iter_pos shr_1 p mrs))
       (2 ^ Zpos p * W) A.
Proof.
  intros Hm HW Ht. rewrite iter_pos_iter.
  induction p as [|p IH] using Pos.peano_ind.
  - cbn [Pos.iter]. destruct (shr_1_spec mrs Hm) as [-> ->].
    split; [apply Z.div_pos; lia|].
    change (2 ^ 1) with 2. now apply truncated_shr_1.
  - rewrite Pos.iter_succ. destruct IH as [IHm IHt].
    destruct (shr_1_spec _ IHm) as [-> ->].
    split; [apply Z.div_pos; lia|].
    rewrite Pos2Z.inj_succ, Z.pow_succ_r by lia.
    replace (2 * 2 ^ Z.pos p * W) with (2 * (2 ^ Z.pos p * W)) by lia.
    apply truncated_shr_1; [assumption| |assumption].
    pose proof (Z.pow_pos_nonneg 2 (Z.pos p)). nia.
Qed.

(** [shr] by [n] bits. *)
Lemma truncated_shr mrs e n W A :
  0 <= shr_m mrs -> 0 < W ->
  truncated (shr_m mrs) (inexact_record mrs) W A ->
  let '(mrs', e') := shr mrs e n in
  e' = e + Z.max n 0
  /\ 0 <= shr_m mrs'
  /\ truncated (shr_m mrs') (inexact_record mrs') (2 ^ Z.max n 0 * W) A.
Proof.
  intros Hm HW Ht. destruct n as [|p|p]; cbn [shr].
  - rewrite Z.max_id, Z.pow_0_r, Z.mul_1_l. split; [lia|]. now split.
  - rewrite Z.max_l by lia. split; [reflexivity|]. now apply truncated_iter_shr_1.
  - rewrite Z.max_r by lia. rewrite Z.pow_0_r, Z.mul_1_l. split; [lia|]. now split.
Qed.

Lemma inexact_record_of_loc m l :
  inexact_record (shr_record_of_loc m l) = inexact_location l
  /\ shr_m (shr_record_of_loc m l) = m.
Proof. destruct l as [|[]]; split; reflexivity. Qed.

(** Rounding to nearest keeps the mantissa or takes the next one, and
    keeps it when nothing was cut off. *)
Lemma round_nearest_even_spec mrs :
  let m1 := round_nearest_even (shr_m mrs) (loc_of_shr_record mrs) in
  shr_m mrs <= m1 <= shr_m mrs + 1
  /\ (inexact_record mrs = false -> m1 = shr_m mrs).
Proof.
  destruct mrs as [m [] []]; unfold inexact_record;
    cbn [shr_m shr_r shr_s loc_of_shr_record round_nearest_even orb].
  - split; [lia | discriminate].
  - split; [destruct (Z.even m); lia | discriminate].
  - split; [lia | discriminate].
  - split; [lia | reflexivity].
Qed.

Lemma bounded_canonical m e :
  bounded prec emax m e = true ->
  fexp prec emax (Zdigits2 (Zpos m) + e) = e /\ e <= 971.
Proof.
  unfold bounded, canonical_mantissa. intros H.
  apply andb_prop in H as [H1 H2].
  apply Z.eqb_eq in H1. apply Z.leb_le in H2. split; [exact H1 | exact H2].
Qed.

Lemma shr_fexp_rounded m1 e1 :
  0 <= m1 <= 2 ^ 53 -> -1074 <= e1 ->
  let '(mrs, e2) := shr_fexp prec emax m1 e1 loc_Exact in
  0 <= shr_m mrs
  /\ shr_m mrs * 2 ^ (e2 + scale) = m1 * 2 ^ (e1 + scale)
  /\ e1 <= e2 <= e1 + 1
  /\ (2 ^ 52 <= m1 -> 2 ^ 52 <= shr_m mrs).
Proof.
  intros Hm He. unfold shr_fexp.
  destruct (Z.eq_dec m1 (2 ^ 53)) as [->|Hne].
  - change (Zdigits2 (2 ^ 53)) with 54.
    replace (fexp prec emax (54 + e1) - e1) with 1 by (rewrite fexp_eq; lia).
    cbn [shr].
    change (SpecFloat.iter_pos shr_1 1 (shr_record_of_loc (2 ^ 53) loc_Exact))
      with {| shr_m := 2 ^ 52; shr_r := false; shr_s := false |}.
    cbn [shr_m]. split; [lia|]. split; [|split; lia].
    replace (e1 + 1 + scale) with (e1 + scale + 1) by lia.
    unfold scale in *. rewrite Z.pow_add_r by lia.
    change (2 ^ 53) with (2 ^ 52 * 2). change (2 ^ 1) with 2. lia.
  - assert (Hd : Zdigits2 m1 <= 53) by (apply Zdigits2_le; lia).
    assert (Hn : fexp prec emax (Zdigits2 m1 + e1) - e1 <= 0)
      by (rewrite fexp_eq; lia).
    destruct (fexp prec emax (Zdigits2 m1 + e1) - e1) as [|p|p]; try lia;
      cbn [shr shr_record_of_loc shr_m]; (split; [lia|]); (split; [lia|]);
      split; [lia | tauto | lia | tauto].
Qed.

Lemma bounded_mantissa m e : bounded prec emax m e = true -> Zpos m < 2 ^ 53.
Proof.
  intros [Hc _]%bounded_canonical. rewrite fexp_eq in Hc.
  pose proof (Zdigits2_bounds (Zpos m) ltac:(lia)) as [_ Hhi].
  assert (2 ^ Zdigits2 (Zpos m) <= 2 ^ 53) by (apply Z.pow_le_mono_r; lia). lia.
Qed.

Lemma representable_lt V : representable V -> V < 2 ^ (1024 + scale).
Proof.
  intros [->|(m & e & Hb & ->)]; [apply Z.pow_pos_nonneg; unfold scale; lia|].
  pose proof (bounded_mantissa m e Hb) as Hm.
  apply bounded_canonical in Hb as [Hc He].
  assert (He' : -1074 <= e) by (rewrite <- Hc; apply fexp_ge_emin).
  replace (1024 + scale) with (53 + (971 + scale)) by lia.
  rewrite (Z.pow_add_r 2 53) by (unfold scale; lia).
  assert (2 ^ (e + scale) <= 2 ^ (971 + scale)) by (apply Z.pow_le_mono_r; lia).
  pose proof (Z.pow_pos_nonneg 2 (e + scale) ltac:(lia) ltac:(unfold scale; lia)).
  nia.
Qed.

(** The rounding step of every operation.  [A] is the exact result in
    units of [2 ^ - scale / B], of which the mantissa [mx] at exponent [ex]
    is the truncation; the rounded result has the sign [sx], is no NaN,
    and no representable value lies strictly between it and [A]. *)
Lemma binary_round_aux_bounds sx mx ex lx B A :
  0 <= mx -> - scale <= ex -> 0 < B ->
  ex <= fexp prec emax (Zdigits2 mx + ex) ->
  truncated mx (inexact_location lx) (2 ^ (ex + scale) * B) A ->
  let r := binary_round_aux prec emax sx mx ex lx in
  sign_of r = Some sx
  /\ (forall V, representable V -> A <= V * B -> overflowed r = false)
  /\ (overflowed r = false ->
      forall V, representable V ->
        (A <= V * B -> magnitude r <= V) /\ (V * B <= A -> V <= magnitude r)).
Proof.
  intros Hmx Hex HB Hcanon Htr r.
  assert (Hr : r = binary_round_aux prec emax sx mx ex lx) by reflexivity.
  clearbody r. unfold binary_round_aux in Hr.
  set (f := fexp prec emax (Zdigits2 mx + ex)) in *.
  assert (Hf : -1074 <= f) by apply fexp_ge_emin.
  set (W := 2 ^ (ex + scale) * B) in *.
  assert (HW : 0 < W).
  { pose proof (Z.pow_pos_nonneg 2 (ex + scale)). unfold W. nia. }
  pose proof (inexact_record_of_loc mx lx) as [Hi Hm].
  pose proof (truncated_shr (shr_record_of_loc mx lx) ex (f - ex) W A) as Hshr.
  rewrite Hi, Hm in Hshr. specialize (Hshr Hmx HW Htr).
  unfold shr_fexp at 1 in Hr. fold f in Hr.
  destruct (shr (shr_record_of_loc mx lx) ex (f - ex)) as [mrs' e'].
  rewrite Z.max_l in Hshr by lia.
  destruct Hshr as (He' & Hm' & Htr').
  replace (ex + (f - ex)) with f in He' by lia. subst e'.
  set (W' := 2 ^ (f - ex) * W) in *.
  assert (HW'eq : W' = 2 ^ (f + scale) * B).
  { unfold W', W. replace (f + scale) with ((f - ex) + (ex + scale)) by lia.
    rewrite (Z.pow_add_r 2 (f - ex)) by lia. lia. }
  assert (HW' : 0 < W').
  { pose proof (Z.pow_pos_nonneg 2 (f - ex)). unfold W'. nia. }
  pose proof (round_nearest_even_spec mrs') as Hround. cbv zeta in Hround.
  set (m' := shr_m mrs') in *.
  set (m1 := round_nearest_even m' (loc_of_shr_record mrs')) in *.
  destruct Hround as [Hm1 Hexact].
  destruct Htr' as [[Hlo Hhi] Hiff].
  (* the truncated mantissa has at most 53 bits *)
  assert (Hm'53 : m' < 2 ^ 53).
  { assert (HA : A < 2 ^ 53 * W').
    { destruct (Z.eq_dec mx 0) as [Hz|Hnz].
      - destruct Htr as [[_ Hthi] _]. rewrite Hz in Hthi.
        pose proof (Z.pow_pos_nonneg 2 (f - ex)).
        assert (W <= W') by (unfold W'; nia). lia.
      - pose proof (Zdigits2_bounds mx ltac:(lia)) as [_ Hd].
        destruct Htr as [[_ Hthi] _].
        assert (2 ^ Zdigits2 mx <= 2 ^ 53 * 2 ^ (f - ex)).
        { rewrite <- Z.pow_add_r by lia. apply Z.pow_le_mono_r; [lia|].
          unfold f. rewrite fexp_eq. lia. }
        unfold W'. nia. }
    nia. }
  (* and exactly 53 above the subnormal numbers *)
  assert (Hm'52 : -1074 < f -> 2 ^ 52 <= m').
  { intros Hfsub.
    assert (Hfn : f = Zdigits2 mx + ex - 53) by (unfold f in *; rewrite fexp_eq in *; lia).
    assert (Hmx0 : 0 < mx).
    { destruct (Z.eq_dec mx 0) as [Hz|]; [|lia].
      rewrite Hz in Hfn. cbn in Hfn. lia. }
    pose proof (Zdigits2_bounds mx Hmx0) as [Hdlo _].
    pose proof (Zdigits2_pos mx Hmx0) as Hdpos.
    assert (H52 : 2 ^ 52 * W' <= A).
    { destruct Htr as [[Htlo _] _].
      assert (2 ^ 52 * 2 ^ (f - ex) = 2 ^ (Zdigits2 mx - 1)).
      { rewrite <- Z.pow_add_r by lia. f_equal. lia. }
      unfold W'. nia. }
    nia. }
  pose proof (shr_fexp_rounded m1 f ltac:(lia) Hf) as H2.
  destruct (shr_fexp prec emax m1 f loc_Exact) as [mrs'' e''].
  destruct H2 as (Hm''0 & Hm'' & He'' & Hm''52).
  (* the magnitude of the result, when it is a number *)
  assert (Hbounds : forall V, representable V ->
            (A <= V * B -> m1 * 2 ^ (f + scale) <= V)
            /\ (V * B <= A -> V <= m1 * 2 ^ (f + scale))).
  { intros V HV.
    assert (HMB : m1 * 2 ^ (f + scale) * B = m1 * W') by (rewrite HW'eq; lia).
    enough ((A <= V * B -> m1 * W' <= V * B) /\ (V * B <= A -> V * B <= m1 * W'))
      as [HU HL] by (rewrite <- HMB in HU, HL; split; intros; nia).
    destruct HV as [->|(mR & eR & HbR & ->)].
    - split; [|intros; nia]. intros HA0.
      assert (A = 0) by nia. assert (m' = 0) by nia.
      assert (m1 = m') by (apply Hexact, Hiff; subst; lia). nia.
    - apply bounded_canonical in HbR as [HcR _].
      assert (HeR : -1074 <= eR) by (rewrite <- HcR; apply fexp_ge_emin).
      destruct (Z.le_gt_cases f eR) as [Hge|Hlt].
      + (* a multiple of the unit of the result *)
        assert (HV : Zpos mR * 2 ^ (eR + scale) * B = (Zpos mR * 2 ^ (eR - f)) * W').
        { rewrite HW'eq. replace (eR + scale) with ((eR - f) + (f + scale)) by lia.
          rewrite (Z.pow_add_r 2 (eR - f)) by lia. lia. }
        rewrite HV. set (k := Zpos mR * 2 ^ (eR - f)).
        split.
        * intros HA. destruct (inexact_record mrs') eqn:Hinex.
          -- assert (A <> m' * W') by (intros HA'; apply Hiff in HA'; discriminate).
             assert (m' < k) by nia. nia.
          -- rewrite (Hexact eq_refl). assert (A = m' * W') by now apply Hiff. lia.
        * intros HA. assert (k <= m') by nia. nia.
      + (* below the unit of the result: too small to be near *)
        assert (HD : Zdigits2 (Zpos mR) + eR < Zdigits2 mx + ex).
        { destruct (Z.le_gt_cases (Zdigits2 mx + ex) (Zdigits2 (Zpos mR) + eR)) as [Hc|]; [|lia].
          apply fexp_mono in Hc. fold f in Hc. lia. }
        pose proof (Zdigits2_bounds (Zpos mR) ltac:(lia)) as [_ HdR].
        pose proof (Zdigits2_pos (Zpos mR) ltac:(lia)) as HdRpos.
        (* V * B < 2 ^ 52 * W' <= m' * W' <= A *)
        assert (HVlt : Zpos mR * 2 ^ (eR + scale) * B < 2 ^ 52 * W').
        { rewrite HW'eq.
          assert (Zpos mR * 2 ^ (eR + scale) < 2 ^ 52 * 2 ^ (f + scale)).
          { rewrite <- (Z.pow_add_r 2 52) by (unfold scale; lia).
            apply Z.lt_le_trans with (2 ^ Zdigits2 (Zpos mR) * 2 ^ (eR + scale)).
            - pose proof (Z.pow_pos_nonneg 2 (eR + scale) ltac:(lia) ltac:(unfold scale; lia)). nia.
            - rewrite <- Z.pow_add_r by (unfold scale; lia).
              apply Z.pow_le_mono_r; [lia|].
              unfold f in Hlt |- *. rewrite fexp_eq in Hlt |- *. lia. }
          nia. }
        assert (2 ^ 52 <= m') by (apply Hm'52; lia).
        split; intros; nia. }
  destruct (shr_m mrs'') as [|m|m] eqn:Hsm; [| |lia]; subst r.
  - split; [reflexivity|]. split; [reflexivity|]. intros _ V HV. cbn [magnitude].
    assert (Hz : m1 * 2 ^ (f + scale) = 0) by lia.
    rewrite Hz in Hbounds. exact (Hbounds V HV).
  - change (emax - prec) with 971.
    destruct (Z.leb_spec e'' 971) as [Hfit|Hover].
    + split; [reflexivity|]. split; [reflexivity|].
      intros _ V HV. cbn [magnitude]. rewrite Hm''. exact (Hbounds V HV).
    + split; [reflexivity|]. split; [|discriminate].
      (* a result that large is above every number *)
      intros V HV HA. exfalso.
      destruct (Hbounds V HV) as [HU _]. specialize (HU HA).
      pose proof (representable_lt V HV) as HVlt.
      assert (2 ^ 52 <= Zpos m) by (apply Hm''52, Z.le_trans with m'; [apply Hm'52|]; lia).
      assert (2 ^ (972 + scale) <= 2 ^ (e'' + scale)) by (apply Z.pow_le_mono_r; lia).
      assert (H1024 : 2 ^ (1024 + scale) = 2 ^ 52 * 2 ^ (972 + scale)).
      { rewrite <- Z.pow_add_r by (unfold scale; lia). f_equal; lia. }
      pose proof (Z.pow_pos_nonneg 2 (972 + scale) ltac:(lia) ltac:(unfold scale; lia)).
      nia.
Qed.

Lemma Zval_sign x s : sign_of x = Some s -> Zval x = cond_Zopp s (magnitude x).
Proof. destruct x as [b|b| |b m e]; cbn; intros [= <-]; try reflexivity; now destruct b. Qed.

Lemma magnitude_nonneg x : 0 <= magnitude x.
Proof.
  destruct x as [| | |s m e]; cbn; lia.
Qed.

Lemma Zval_magnitude x : Zval x = magnitude x \/ Zval x = - magnitude x.
Proof. destruct x as [| | |[] m e]; cbn; lia. Qed.

Lemma valid_representable x :
  valid_binary x = true -> number x = true -> representable (magnitude x).
Proof.
  destruct x as [| | |s m e]; cbn; try discriminate.
  - intros _ _. now left.
  - intros Hb _. right. now exists m, e.
Qed.

Lemma valid_exponent s m e : valid_binary (S754_finite s m e) = true -> -1074 <= e <= 971.
Proof.
  cbn. intros [Hc He]%bounded_canonical. split; [|exact He].
  rewrite <- Hc. apply fexp_ge_emin.
Qed.

Lemma shl_align_spec m e e' :
  let '(mz, ez) := shl_align m e e' in
  ez = Z.min e e'
  /\ Zpos mz = Zpos m * 2 ^ (e - ez)
  /\ Zdigits2 (Zpos mz) = Zdigits2 (Zpos m) + (e - ez).
Proof.
  unfold shl_align. destruct (e' - e) as [|d|d] eqn:Hd.
  - replace (e - e) with 0 by lia. split; [lia|]. split; lia.
  - replace (e - e) with 0 by lia. split; [lia|]. split; lia.
  - change (Pos.iter xO m d) with (shl m (Zpos d)).
    replace (e - e') with (Zpos d) by lia.
    split; [lia|]. split; [apply shl_Z; lia|].
    cbn [Zdigits2]. rewrite !digits2_size. apply size_shl. lia.
Qed.

(** Rounding an integer multiple of a power of two. *)
Lemma binary_round_bounds sx mp e :
  -1074 <= e ->
  let r := binary_round prec emax sx mp e in
  sign_of r = Some sx
  /\ (forall V, representable V -> Zpos mp * 2 ^ (e + scale) <= V -> overflowed r = false)
  /\ (overflowed r = false ->
      forall V, representable V ->
        (Zpos mp * 2 ^ (e + scale) <= V -> magnitude r <= V)
        /\ (V <= Zpos mp * 2 ^ (e + scale) -> V <= magnitude r)).
Proof.
  intros He. unfold binary_round.
  pose proof (shl_align_spec mp e (fexp prec emax (Zpos (digits2_pos mp) + e))) as Hal.
  destruct (shl_align mp e (fexp prec emax (Zpos (digits2_pos mp) + e))) as [mz ez].
  destruct Hal as (Hez & Hmz & Hdz).
  pose proof (fexp_ge_emin (Zpos (digits2_pos mp) + e)) as Hf.
  assert (Hval : Zpos mp * 2 ^ (e + scale) = Zpos mz * 2 ^ (ez + scale)).
  { rewrite Hmz. replace (e + scale) with ((e - ez) + (ez + scale)) by lia.
    rewrite (Z.pow_add_r 2 (e - ez)) by (unfold scale; lia). lia. }
  pose proof (binary_round_aux_bounds sx (Zpos mz) ez loc_Exact 1
                (Zpos mz * 2 ^ (ez + scale))) as Hb.
  cbv zeta in Hb. rewrite Hval.
  destruct Hb as (Hsign & Hfin & Hb); try (unfold scale; lia).
  - rewrite Hdz. replace (Zdigits2 (Zpos mp) + (e - ez) + ez) with (Zdigits2 (Zpos mp) + e) by lia.
    cbn [Zdigits2]. lia.
  - split; [split; [lia|]|]; [|split; intros _; [lia | reflexivity]].
    pose proof (Z.pow_pos_nonneg 2 (ez + scale) ltac:(lia) ltac:(unfold scale; lia)). nia.
  - split; [exact Hsign|]. split.
    + intros V HV HA. apply (Hfin V HV). lia.
    + intros Hinf V HV. specialize (Hb Hinf V HV).
      rewrite Z.mul_1_r in Hb. exact Hb.
Qed.

Lemma number_of_sign r s : sign_of r = Some s -> overflowed r = false -> number r = true.
Proof. now destruct r. Qed.

(** The rounded sum or difference is a number when its exact value is no
    larger than some number. *)
Lemma binary_normalize_number m e szero R :
  -1074 <= e -> valid_binary R = true -> number R = true ->
  Z.abs (m * 2 ^ (e + scale)) <= magnitude R ->
  number (binary_normalize prec emax m e szero) = true.
Proof.
  intros He HvR HnR Hle.
  pose proof (valid_representable R HvR HnR) as HV.
  pose proof (Z.pow_pos_nonneg 2 (e + scale) ltac:(lia) ltac:(unfold scale; lia)) as Hpow.
  destruct m as [|p|p]; cbn [binary_normalize]; [reflexivity| |].
  - pose proof (binary_round_bounds false p e He) as (Hs & Hfin & _). cbv zeta in Hs, Hfin.
    apply (number_of_sign _ _ Hs), (Hfin _ HV). lia.
  - pose proof (binary_round_bounds true p e He) as (Hs & Hfin & _). cbv zeta in Hs, Hfin.
    apply (number_of_sign _ _ Hs), (Hfin _ HV).
    change (Z.neg p) with (- Z.pos p) in Hle. nia.
Qed.

(** The sum or difference [m * 2 ^ e] of two numbers, rounded. *)
Lemma binary_normalize_bounds m e szero R :
  -1074 <= e ->
  let r := binary_normalize prec emax m e szero in
  number r = true -> valid_binary R = true -> number R = true ->
  (m * 2 ^ (e + scale) <= Zval R -> Zval r <= Zval R)
  /\ (Zval R <= m * 2 ^ (e + scale) -> Zval R <= Zval r).
Proof.
  intros He r Hr HvR HnR.
  pose proof (valid_representable R HvR HnR) as HV.
  pose proof (magnitude_nonneg R) as HR0.
  pose proof (Z.pow_pos_nonneg 2 (e + scale) ltac:(lia) ltac:(unfold scale; lia)) as Hpow.
  destruct m as [|p|p]; cbn [binary_normalize] in r.
  - subst r. cbn [Zval]. split; lia.
  - pose proof (binary_round_bounds false p e He) as (Hs & _ & Hb). fold r in Hs, Hb.
    pose proof (magnitude_nonneg r) as Hr0.
    rewrite (Zval_sign r false Hs). cbn [cond_Zopp].
    assert (Hinf : overflowed r = false) by (destruct r; try discriminate; reflexivity).
    destruct (Hb Hinf _ HV) as [HU HL].
    destruct (Zval_magnitude R) as [-> | ->]; split; intros; lia.
  - pose proof (binary_round_bounds true p e He) as (Hs & _ & Hb). fold r in Hs, Hb.
    pose proof (magnitude_nonneg r) as Hr0.
    rewrite (Zval_sign r true Hs). cbn [cond_Zopp].
    assert (Hinf : overflowed r = false) by (destruct r; try discriminate; reflexivity).
    destruct (Hb Hinf _ HV) as [HU HL].
    change (Z.neg p) with (- Z.pos p).
    destruct (Zval_magnitude R) as [-> | ->]; split; intros; lia.
Qed.

Lemma finite_pos s m e :
  valid_binary (S754_finite s m e) = true -> 0 < Zpos m * 2 ^ (e + scale).
Proof.
  intros He%valid_exponent.
  pose proof (Z.pow_pos_nonneg 2 (e + scale) ltac:(lia) ltac:(unfold scale; lia)). nia.
Qed.

(** The sum of two nonzero numbers is their exact sum, an integer multiple
    of a power of two, rounded. *)
Lemma SFadd_finite sx mx ex sy my ey :
  valid_binary (S754_finite sx mx ex) = true ->
  valid_binary (S754_finite sy my ey) = true ->
  exists m ez,
    -1074 <= ez
    /\ SFadd prec emax (S754_finite sx mx ex) (S754_finite sy my ey)
       = binary_normalize prec emax m ez false
    /\ m * 2 ^ (ez + scale) = Zval (S754_finite sx mx ex) + Zval (S754_finite sy my ey).
Proof.
  intros Hvx Hvy. cbn [SFadd]. cbv zeta.
  pose proof (valid_exponent _ _ _ Hvx) as Hex.
  pose proof (valid_exponent _ _ _ Hvy) as Hey.
  set (ez := Z.min ex ey).
  pose proof (shl_align_spec mx ex ez) as Hax.
  pose proof (shl_align_spec my ey ez) as Hay.
  destruct (shl_align mx ex ez) as [mx' ex'], (shl_align my ey ez) as [my' ey'].
  cbn [fst]. destruct Hax as (Hex' & Hmx' & _), Hay as (Hey' & Hmy' & _).
  assert (Hx' : ex' = ez) by lia. assert (Hy' : ey' = ez) by lia.
  rewrite Hx' in Hmx'. rewrite Hy' in Hmy'.
  exists (cond_Zopp sx (Zpos mx') + cond_Zopp sy (Zpos my')), ez.
  split; [lia|]. split; [reflexivity|].
  cbn [Zval]. rewrite Hmx', Hmy'.
  replace (ex + scale) with ((ex - ez) + (ez + scale)) by lia.
  replace (ey + scale) with ((ey - ez) + (ez + scale)) by lia.
  rewrite (Z.pow_add_r 2 (ex - ez)), (Z.pow_add_r 2 (ey - ez)) by (unfold scale; lia).
  destruct sx, sy; cbn [cond_Zopp]; ring.
Qed.

Lemma SFadd_bounds x y R :
  valid_binary x = true -> valid_binary y = true -> valid_binary R = true ->
  number x = true -> number y = true -> number R = true ->
  number (SFadd prec emax x y) = true ->
  (Zval x + Zval y <= Zval R -> Zval (SFadd prec emax x y) <= Zval R)
  /\ (Zval R <= Zval x + Zval y -> Zval R <= Zval (SFadd prec emax x y)).
Proof.
  intros Hvx Hvy HvR Hnx Hny HnR Hnr.
  destruct x as [sx|sx| |sx mx ex]; try discriminate;
    destruct y as [sy|sy| |sy my ey]; try discriminate.
  - cbn [SFadd]. destruct sx, sy; cbn [Zval]; split; lia.
  - cbn [SFadd]. cbn [Zval]. split; lia.
  - cbn [SFadd]. cbn [Zval]. split; lia.
  - destruct (SFadd_finite sx mx ex sy my ey Hvx Hvy) as (m & ez & Hez & Heq & Hsum).
    rewrite Heq in *. rewrite <- Hsum.
    now apply binary_normalize_bounds.
Qed.

(** A sum is a number when its exact value is no larger than some number. *)
Lemma SFadd_number x y R :
  valid_binary x = true -> valid_binary y = true -> valid_binary R = true ->
  number x = true -> number y = true -> number R = true ->
  Z.abs (Zval x + Zval y) <= magnitude R ->
  number (SFadd prec emax x y) = true.
Proof.
  intros Hvx Hvy HvR Hnx Hny HnR Hle.
  destruct x as [sx|sx| |sx mx ex]; try discriminate;
    destruct y as [sy|sy| |sy my ey]; try discriminate; try reflexivity.
  - cbn [SFadd]. now destruct sx, sy.
  - destruct (SFadd_finite sx mx ex sy my ey Hvx Hvy) as (m & ez & Hez & Heq & Hsum).
    rewrite Heq. apply (binary_normalize_number m ez false R); auto. now rewrite Hsum.
Qed.

(** A sum above zero is a positive number, or overflows to +Infinity. *)
Lemma SFadd_positive x y :
  valid_binary x = true -> valid_binary y = true ->
  number x = true -> number y = true ->
  0 < Zval x + Zval y -> positive_sf (SFadd prec emax x y) = true.
Proof.
  intros Hvx Hvy Hnx Hny Hpos.
  destruct x as [sx|sx| |sx mx ex]; try discriminate;
    destruct y as [sy|sy| |sy my ey]; try discriminate.
  - pose proof (finite_pos sy my ey Hvy).
    cbn [SFadd Zval] in *. destruct sy; cbn [cond_Zopp] in Hpos; [lia | reflexivity].
  - pose proof (finite_pos sx mx ex Hvx).
    cbn [SFadd Zval] in *. destruct sx; cbn [cond_Zopp] in Hpos; [lia | reflexivity].
  - destruct (SFadd_finite sx mx ex sy my ey Hvx Hvy) as (m & ez & Hez & Heq & Hsum).
    rewrite Heq. rewrite <- Hsum in Hpos. clear Heq Hsum.
    pose proof (Z.pow_pos_nonneg 2 (ez + scale) ltac:(lia) ltac:(unfold scale; lia)) as Hpow.
    destruct m as [|p|p]; [lia| |lia]. cbn [binary_normalize].
    pose proof (binary_round_bounds false p ez Hez) as (Hs & _ & Hb). cbv zeta in Hs, Hb.
    destruct (binary_round prec emax false p ez) as [s|s| |s m e]; cbn in Hs;
      try discriminate; injection Hs as ->; try reflexivity.
    exfalso.
    assert (HV : representable (Zpos 1 * 2 ^ (-1074 + scale))).
    { right. exists 1%positive, (-1074). split; reflexivity. }
    destruct (Hb eq_refl _ HV) as [_ HL]. cbn [magnitude] in HL.
    assert (2 ^ (-1074 + scale) <= 2 ^ (ez + scale)) by (apply Z.pow_le_mono_r; lia).
    pose proof (Z.pow_pos_nonneg 2 (-1074 + scale) ltac:(lia) ltac:(unfold scale; lia)).
    specialize (HL ltac:(nia)). lia.
Qed.

Lemma SFsub_add_opp x y : SFsub prec emax x y = SFadd prec emax x (SFopp y).
Proof.
  destruct x as [sx|sx| |sx mx ex], y as [sy|sy| |sy my ey]; cbn [SFsub SFadd SFopp];
    try reflexivity; destruct sx, sy; reflexivity.
Qed.

Lemma Zval_opp x : Zval (SFopp x) = - Zval x.
Proof. destruct x as [| | |[] m e]; cbn; lia. Qed.

Lemma valid_opp x : valid_binary (SFopp x) = valid_binary x.
Proof. now destruct x. Qed.

Lemma number_opp x : number (SFopp x) = number x.
Proof. now destruct x. Qed.

Lemma SFsub_bounds x y R :
  valid_binary x = true -> valid_binary y = true -> valid_binary R = true ->
  number x = true -> number y = true -> number R = true ->
  number (SFsub prec emax x y) = true ->
  (Zval x - Zval y <= Zval R -> Zval (SFsub prec emax x y) <= Zval R)
  /\ (Zval R <= Zval x - Zval y -> Zval R <= Zval (SFsub prec emax x y)).
Proof.
  intros Hvx Hvy HvR Hnx Hny HnR. rewrite SFsub_add_opp. intros Hnr.
  pose proof (SFadd_bounds x (SFopp y) R Hvx) as Hb.
  rewrite valid_opp, number_opp, Zval_opp in Hb.
  specialize (Hb Hvy HvR Hnx Hny HnR Hnr).
  replace (Zval x - Zval y) with (Zval x + - Zval y) by lia. exact Hb.
Qed.

Lemma SFsub_number x y R :
  valid_binary x = true -> valid_binary y = true -> valid_binary R = true ->
  number x = true -> number y = true -> number R = true ->
  Z.abs (Zval x - Zval y) <= magnitude R ->
  number (SFsub prec emax x y) = true.
Proof.
  intros Hvx Hvy HvR Hnx Hny HnR Hle. rewrite SFsub_add_opp.
  apply (SFadd_number x (SFopp y) R); rewrite ?valid_opp, ?number_opp, ?Zval_opp; auto.
Qed.

Lemma SFsub_positive x y :
  valid_binary x = true -> valid_binary y = true ->
  number x = true -> number y = true ->
  Zval y < Zval x -> positive_sf (SFsub prec emax x y) = true.
Proof.
  intros Hvx Hvy Hnx Hny Hlt. rewrite SFsub_add_opp.
  apply SFadd_positive; rewrite ?valid_opp, ?number_opp, ?Zval_opp; auto. lia.
Qed.

(** *** Division *)

Lemma new_location_inexact n r :
  inexact_location (new_location n r) = negb (r =? 0).
Proof.
  unfold new_location, new_location_even, new_location_odd.
  destruct (Z.even n), (r =? 0); reflexivity.
Qed.

(** The quotient of two mantissas that [SFdiv] rounds: its truncation,
    with enough bits, and whether it is exact. *)
Lemma SFdiv_core_binary_spec mx ex my ey :
  -1074 <= ex <= 971 -> -1074 <= ey <= 971 ->
  let '(mz, ez, lz) := SFdiv_core_binary prec emax (Zpos mx) ex (Zpos my) ey in
  0 <= mz /\ - scale <= ez /\ ez <= fexp prec emax (Zdigits2 mz + ez)
  /\ truncated mz (inexact_location lz)
       (2 ^ (ez + scale) * (Zpos my * 2 ^ (ey + scale)))
       (Zpos mx * 2 ^ (ex + scale) * 2 ^ scale).
Proof.
  intros Hex Hey. unfold SFdiv_core_binary. cbv zeta.
  set (d1 := Zdigits2 (Zpos mx)). set (d2 := Zdigits2 (Zpos my)).
  set (M := d1 + ex - (d2 + ey)).
  set (e' := Z.min (fexp prec emax M) (ex - ey)).
  set (s := ex - ey - e').
  assert (Hs : 0 <= s) by (unfold s, e'; lia).
  pose proof (fexp_ge_emin M) as HfM.
  assert (He' : - scale <= e') by (unfold e', scale; lia).
  set (m' := match s with 0 => Zpos mx | Zpos _ => Z.shiftl (Zpos mx) s | Zneg _ => 0 end).
  assert (Hm' : m' = Zpos mx * 2 ^ s).
  { unfold m'. destruct s as [|p|p] eqn:Hsp; [cbn; lia | | lia].
    apply Z.shiftl_mul_pow2. lia. }
  clearbody m'.
  pose proof (Z_div_mod m' (Zpos my) ltac:(lia)) as Hdiv.
  destruct (Z.div_eucl m' (Zpos my)) as [q r]. destruct Hdiv as [Hqr Hr].
  pose proof (Z.pow_pos_nonneg 2 s ltac:(lia) Hs) as H2s.
  assert (Hq : 0 <= q) by nia.
  pose proof (Zdigits2_bounds (Zpos mx) ltac:(lia)) as [Hd1 _]. fold d1 in Hd1.
  pose proof (Zdigits2_bounds (Zpos my) ltac:(lia)) as [_ Hd2]. fold d2 in Hd2.
  pose proof (Zdigits2_pos (Zpos mx) ltac:(lia)) as Hd1p. fold d1 in Hd1p.
  pose proof (Zdigits2_pos (Zpos my) ltac:(lia)) as Hd2p. fold d2 in Hd2p.
  split; [exact Hq|]. split; [exact He'|]. split.
  - destruct (Z.le_gt_cases e' (-1074)) as [Hlow|Hhigh].
    + pose proof (fexp_ge_emin (Zdigits2 q + e')). lia.
    + assert (He'M : e' <= fexp prec emax M) by (unfold e'; lia).
      assert (HM : fexp prec emax M = M - 53) by (rewrite fexp_eq in He'M |- *; lia).
      assert (Hs53 : d2 - d1 + 53 <= s) by (unfold s, M in *; lia).
      set (t := d1 - 1 + s - d2) in *.
      assert (Ht : 0 <= t) by (unfold t; lia).
      assert (Hpow : 2 ^ (d1 - 1) * 2 ^ s = 2 ^ t * 2 ^ d2).
      { rewrite <- !Z.pow_add_r by lia. f_equal. unfold t. lia. }
      pose proof (Z.pow_pos_nonneg 2 t ltac:(lia) Ht) as H2t.
      assert (HqT : 2 ^ t <= q).
      { assert (2 ^ t * 2 ^ d2 <= m') by nia.
        assert (2 ^ t * Zpos my < (q + 1) * Zpos my) by nia.
        assert (2 ^ t < q + 1) by nia. lia. }
      pose proof (Zdigits2_ge q t Ht HqT) as Hdq.
      assert (HMq : M <= Zdigits2 q + e') by (unfold t, s, M in *; lia).
      apply fexp_mono in HMq. lia.
  - rewrite new_location_inexact.
    set (G := 2 ^ (e' + scale) * 2 ^ (ey + scale)).
    assert (HG : 0 < G).
    { pose proof (Z.pow_pos_nonneg 2 (e' + scale) ltac:(lia) ltac:(lia)).
      pose proof (Z.pow_pos_nonneg 2 (ey + scale) ltac:(lia) ltac:(unfold scale; lia)).
      unfold G. nia. }
    assert (HW : 2 ^ (e' + scale) * (Zpos my * 2 ^ (ey + scale)) = Zpos my * G)
      by (unfold G; ring).
    assert (HA : Zpos mx * 2 ^ (ex + scale) * 2 ^ scale = m' * G).
    { rewrite Hm'. unfold G.
      rewrite <- !Z.mul_assoc. f_equal.
      rewrite <- !Z.pow_add_r by (unfold scale in *; lia). f_equal. unfold s. lia. }
    rewrite HW, HA. unfold truncated. split; [split; nia|].
    destruct (Z.eqb_spec r 0) as [Hr0|Hr0]; cbn [negb]; split; intros; try nia; discriminate.
Qed.

(** Division by a positive number. *)
Lemma SFdiv_bounds x y R :
  valid_binary x = true -> valid_binary y = true -> valid_binary R = true ->
  number x = true -> number y = true -> number R = true ->
  0 < Zval y ->
  number (SFdiv prec emax x y) = true ->
  (Zval x * 2 ^ scale <= Zval R * Zval y -> Zval (SFdiv prec emax x y) <= Zval R)
  /\ (Zval R * Zval y <= Zval x * 2 ^ scale -> Zval R <= Zval (SFdiv prec emax x y)).
Proof.
  intros Hvx Hvy HvR Hnx Hny HnR Hy Hnr.
  pose proof (valid_representable R HvR HnR) as HV.
  pose proof (magnitude_nonneg R) as HR0.
  destruct y as [sy|sy| |sy my ey]; try discriminate; cbn [Zval] in Hy; try lia.
  destruct sy; cbn [cond_Zopp] in Hy; [lia|]. cbn [Zval cond_Zopp].
  set (B := Zpos my * 2 ^ (ey + scale)) in *.
  destruct x as [sx|sx| |sx mx ex]; try discriminate.
  - cbn [SFdiv Zval]. split; intros; nia.
  - cbn [SFdiv] in *.
    pose proof (SFdiv_core_binary_spec mx ex my ey
                  (valid_exponent _ _ _ Hvx) (valid_exponent _ _ _ Hvy)) as Hcore.
    destruct (SFdiv_core_binary prec emax (Zpos mx) ex (Zpos my) ey) as [[mz ez] lz].
    destruct Hcore as (Hmz & Hez & Hcanon & Htr). fold B in Htr.
    rewrite xorb_false_r in *.
    pose proof (binary_round_aux_bounds sx mz ez lz B _ Hmz Hez Hy Hcanon Htr) as (Hs & _ & Hb).
    cbv zeta in Hs, Hb.
    set (r := binary_round_aux prec emax sx mz ez lz) in *.
    assert (Hinf : overflowed r = false) by (destruct r; try discriminate; reflexivity).
    destruct (Hb Hinf _ HV) as [HU HL].
    pose proof (magnitude_nonneg r) as Hr0.
    rewrite (Zval_sign r sx Hs).
    set (A := Zpos mx * 2 ^ (ex + scale) * 2 ^ scale) in *.
    assert (HA : 0 < A).
    { pose proof (valid_exponent _ _ _ Hvx).
      pose proof (Z.pow_pos_nonneg 2 (ex + scale) ltac:(lia) ltac:(unfold scale; lia)).
      pose proof (Z.pow_pos_nonneg 2 scale ltac:(lia) ltac:(unfold scale; lia)).
      unfold A. nia. }
    assert (HxA : Zval (S754_finite sx mx ex) * 2 ^ scale = cond_Zopp sx A)
      by (unfold A; destruct sx; cbn [Zval cond_Zopp]; ring).
    rewrite HxA.
    destruct sx; cbn [cond_Zopp]; destruct (Zval_magnitude R) as [-> | ->];
      split; intros; nia.
Qed.

(** A quotient by a positive number is a number when its exact value is no
    larger than some number. *)
Lemma SFdiv_number x y R :
  valid_binary x = true -> valid_binary y = true -> valid_binary R = true ->
  number x = true -> number y = true -> number R = true ->
  0 < Zval y ->
  Z.abs (Zval x) * 2 ^ scale <= magnitude R * Zval y ->
  number (SFdiv prec emax x y) = true.
Proof.
  intros Hvx Hvy HvR Hnx Hny HnR Hy Hle.
  pose proof (valid_representable R HvR HnR) as HV.
  destruct y as [sy|sy| |sy my ey]; try discriminate; cbn [Zval] in Hy; try lia.
  destruct sy; cbn [cond_Zopp] in Hy; [lia|]. cbn [Zval cond_Zopp] in Hle.
  destruct x as [sx|sx| |sx mx ex]; try discriminate; [reflexivity|].
  cbn [SFdiv].
  pose proof (SFdiv_core_binary_spec mx ex my ey
                (valid_exponent _ _ _ Hvx) (valid_exponent _ _ _ Hvy)) as Hcore.
  destruct (SFdiv_core_binary prec emax (Zpos mx) ex (Zpos my) ey) as [[mz ez] lz].
  destruct Hcore as (Hmz & Hez & Hcanon & Htr).
  pose proof (binary_round_aux_bounds (xorb sx false) mz ez lz _ _ Hmz Hez Hy Hcanon Htr)
    as (Hs & Hfin & _).
  cbv zeta in Hs, Hfin.
  apply (number_of_sign _ _ Hs), (Hfin _ HV).
  destruct sx; cbn [Zval cond_Zopp] in Hle; lia.
Qed.

(** *** Order *)

(** Of two numbers in canonical form the one with the smaller exponent is
    the smaller one. *)
Lemma canonical_lt m1 e1 m2 e2 :
  bounded prec emax m1 e1 = true -> bounded prec emax m2 e2 = true ->
  e1 < e2 -> Zpos m1 * 2 ^ (e1 + scale) < Zpos m2 * 2 ^ (e2 + scale).
Proof.
  intros [Hc1 _]%bounded_canonical [Hc2 _]%bounded_canonical Hlt.
  assert (He1 : -1074 <= e1) by (rewrite <- Hc1; apply fexp_ge_emin).
  assert (HD : Zdigits2 (Zpos m1) + e1 < Zdigits2 (Zpos m2) + e2).
  { destruct (Z.le_gt_cases (Zdigits2 (Zpos m2) + e2) (Zdigits2 (Zpos m1) + e1)) as [Hc|]; [|lia].
    apply fexp_mono in Hc. lia. }
  pose proof (Zdigits2_bounds (Zpos m1) ltac:(lia)) as [_ Hhi].
  pose proof (Zdigits2_bounds (Zpos m2) ltac:(lia)) as [Hlo _].
  pose proof (Zdigits2_pos (Zpos m1) ltac:(lia)).
  pose proof (Zdigits2_pos (Zpos m2) ltac:(lia)).
  pose proof (Z.pow_pos_nonneg 2 (e1 + scale) ltac:(lia) ltac:(unfold scale; lia)).
  pose proof (Z.pow_pos_nonneg 2 (e2 + scale) ltac:(lia) ltac:(unfold scale; lia)).
  apply Z.lt_le_trans with (2 ^ Zdigits2 (Zpos m1) * 2 ^ (e1 + scale)); [nia|].
  apply Z.le_trans with (2 ^ (Zdigits2 (Zpos m2) - 1) * 2 ^ (e2 + scale)); [|nia].
  rewrite <- !Z.pow_add_r by (unfold scale; lia).
  apply Z.pow_le_mono_r; lia.
Qed.

Lemma Zpos_compare_scaled m1 m2 e :
  0 <= e ->
  (Zpos m1 * 2 ^ e ?= Zpos m2 * 2 ^ e) = Pos.compare_cont Eq m1 m2.
Proof.
  intros He. change (Pos.compare_cont Eq m1 m2) with (Zpos m1 ?= Zpos m2).
  pose proof (Z.pow_pos_nonneg 2 e ltac:(lia) He).
  destruct (Z.compare_spec (Zpos m1) (Zpos m2)) as [Heq|Hlt|Hgt].
  - rewrite Heq. apply Z.compare_refl.
  - apply Z.compare_lt_iff. nia.
  - apply Z.compare_gt_iff. nia.
Qed.

(** The comparison of two numbers is the comparison of their values. *)
Lemma SFcompare_Zval x y :
  valid_binary x = true -> valid_binary y = true ->
  number x = true -> number y = true ->
  SFcompare x y = Some (Zval x ?= Zval y).
Proof.
  intros Hvx Hvy Hnx Hny.
  destruct x as [sx|sx| |sx mx ex]; try discriminate;
    destruct y as [sy|sy| |sy my ey]; try discriminate; cbn [SFcompare Zval].
  - reflexivity.
  - pose proof (finite_pos sy my ey Hvy).
    f_equal. destruct sy; cbn [cond_Zopp]; symmetry;
      [apply Z.compare_gt_iff | apply Z.compare_lt_iff]; lia.
  - pose proof (finite_pos sx mx ex Hvx).
    f_equal. destruct sx; cbn [cond_Zopp]; symmetry;
      [apply Z.compare_lt_iff | apply Z.compare_gt_iff]; lia.
  - f_equal.
    pose proof (finite_pos sx mx ex Hvx). pose proof (finite_pos sy my ey Hvy).
    pose proof (valid_exponent sx mx ex Hvx) as Hex.
    pose proof (valid_exponent sy my ey Hvy) as Hey.
    cbn in Hvx, Hvy.
    destruct sx, sy; cbn [cond_Zopp].
    + rewrite Z.compare_opp.
      destruct (Z.compare_spec ex ey) as [->|Hlt|Hgt].
      * rewrite Zpos_compare_scaled by (unfold scale; lia).
        rewrite Pos.compare_cont_antisym. reflexivity.
      * symmetry. apply Z.compare_gt_iff. now apply canonical_lt.
      * symmetry. apply Z.compare_lt_iff. now apply canonical_lt.
    + symmetry. apply Z.compare_lt_iff. lia.
    + symmetry. apply Z.compare_gt_iff. lia.
    + destruct (Z.compare_spec ex ey) as [->|Hlt|Hgt].
      * now rewrite Zpos_compare_scaled by (unfold scale; lia).
      * symmetry. apply Z.compare_lt_iff. now apply canonical_lt.
      * symmetry. apply Z.compare_gt_iff. now apply canonical_lt.
Qed.

(** *** Powers of two *)

Lemma pow2_float t :
  -1074 <= t <= 1023 ->
  exists R, valid_binary R = true /\ number R = true /\ Zval R = 2 ^ (t + scale).
Proof.
  intros Ht. destruct (Z.le_gt_cases (-1022) t) as [Hnormal|Hsub].
  - exists (S754_finite false 4503599627370496 (t - 52)).
    split; [|split; [reflexivity|]].
    + cbn [SpecFloat.valid_binary]. unfold bounded, canonical_mantissa.
      change (Zpos (digits2_pos 4503599627370496)) with 53.
      rewrite fexp_eq. change (emax - prec) with 971.
      apply andb_true_intro. split; [apply Z.eqb_eq | apply Z.leb_le]; lia.
    + cbn [Zval cond_Zopp]. change (Zpos 4503599627370496) with (2 ^ 52).
      rewrite <- Z.pow_add_r by (unfold scale; lia). f_equal. lia.
  - exists (S754_finite false (shl 1 (t + 1074)) (-1074)).
    split; [|split; [reflexivity|]].
    + cbn [SpecFloat.valid_binary]. unfold bounded, canonical_mantissa.
      rewrite digits2_size, size_shl by lia. change (Zpos (Pos.size 1)) with 1.
      rewrite fexp_eq. change (emax - prec) with 971.
      apply andb_true_intro. split; [apply Z.eqb_eq | apply Z.leb_le]; lia.
    + cbn [Zval cond_Zopp]. rewrite shl_Z by lia.
      rewrite Z.mul_1_l, <- Z.pow_add_r by (unfold scale; lia). f_equal. lia.
Qed.

(** Every number is a multiple of the smallest positive one, and below
    [2 ^ 1024]. *)
Lemma Zval_unit x :
  valid_binary x = true -> number x = true ->
  exists k, Zval x = k * 2 ^ (scale - 1074).
Proof.
  destruct x as [s|s| |s m e]; try discriminate; intros Hv _.
  - exists 0. reflexivity.
  - pose proof (valid_exponent s m e Hv) as He.
    exists (cond_Zopp s (Zpos m * 2 ^ (e + 1074))). cbn [Zval].
    replace (e + scale) with ((e + 1074) + (scale - 1074)) by lia.
    rewrite Z.pow_add_r by (unfold scale; lia).
    destruct s; cbn [cond_Zopp]; ring.
Qed.

Lemma magnitude_lt x :
  valid_binary x = true -> magnitude x < 2 ^ (1024 + scale).
Proof.
  destruct x as [s|s| |s m e]; cbn [magnitude]; intros Hv;
    try (apply Z.pow_pos_nonneg; unfold scale; lia).
  pose proof (valid_exponent s m e Hv) as He.
  cbn in Hv. apply bounded_mantissa in Hv.
  replace (1024 + scale) with (53 + (971 + scale)) by lia.
  rewrite (Z.pow_add_r 2 53) by (unfold scale; lia).
  assert (2 ^ (e + scale) <= 2 ^ (971 + scale)) by (apply Z.pow_le_mono_r; lia).
  pose proof (Z.pow_pos_nonneg 2 (e + scale) ltac:(lia) ltac:(unfold scale; lia)).
  nia.
Qed.

(** *** Results that are not NaN *)

Lemma shr_nonneg mrs e n :
  0 <= shr_m mrs -> 0 <= shr_m (fst (shr mrs e n)).
Proof.
  intros Hm. destruct n as [|p|p]; cbn [shr fst]; try assumption.
  rewrite iter_pos_iter. induction p as [|p IH] using Pos.peano_ind.
  - cbn [Pos.iter]. destruct (shr_1_spec mrs Hm) as [-> _]. apply Z.div_pos; lia.
  - rewrite Pos.iter_succ. destruct (shr_1_spec _ IH) as [-> _]. apply Z.div_pos; lia.
Qed.

Lemma binary_round_aux_not_nan sx mx ex lx :
  0 <= mx -> binary_round_aux prec emax sx mx ex lx <> S754_nan.
Proof.
  intros Hmx. unfold binary_round_aux, shr_fexp.
  pose proof (shr_nonneg (shr_record_of_loc mx lx) ex
                (fexp prec emax (Zdigits2 mx + ex) - ex)) as H1.
  destruct (shr (shr_record_of_loc mx lx) ex _) as [mrs' e']. cbn [fst] in H1.
  specialize (H1 ltac:(now destruct (inexact_record_of_loc mx lx) as [_ ->])).
  pose proof (round_nearest_even_spec mrs') as [Hr _]. cbv zeta in Hr.
  set (m1 := round_nearest_even (shr_m mrs') (loc_of_shr_record mrs')) in *.
  pose proof (shr_nonneg (shr_record_of_loc m1 loc_Exact) e'
                (fexp prec emax (Zdigits2 m1 + e') - e')) as H2.
  destruct (shr (shr_record_of_loc m1 loc_Exact) e' _) as [mrs'' e'']. cbn [fst] in H2.
  specialize (H2 ltac:(cbn; lia)).
  destruct (shr_m mrs'') as [|m|m]; [discriminate| |lia].
  destruct (e'' <=? emax - prec); discriminate.
Qed.

(** *** The operations on numbers *)

Lemma number_of_finite (x : float) : is_finite x = true -> number (Prim2SF x) = true.
Proof. intros H%is_finite_spec. now destruct (Prim2SF x). Qed.

Lemma finite_of_number (x : float) : number (Prim2SF x) = true -> is_finite x = true.
Proof.
  intros H. unfold is_finite. apply negb_true_iff, orb_false_iff. split.
  - apply is_nan_false. intros Hx. now rewrite Hx in H.
  - unfold PrimFloat.is_infinity. rewrite FloatAxioms.eqb_spec, abs_spec.
    change (Prim2SF infinity) with (S754_infinity false).
    now destruct (Prim2SF x).
Qed.

Lemma magnitude_abs x : magnitude x = Z.abs (Zval x).
Proof.
  pose proof (magnitude_nonneg x). destruct (Zval_magnitude x) as [-> | ->]; lia.
Qed.

Lemma floatZ_float (x : float) : is_finite x = true -> floatZ (F2Z x).
Proof.
  intros H. exists (Prim2SF x).
  split; [apply Prim2SF_valid|]. split; [now apply number_of_finite | reflexivity].
Qed.

Lemma floatZ_opp z : floatZ z -> floatZ (- z).
Proof.
  intros (R & Hv & Hn & <-). exists (SFopp R).
  now rewrite valid_opp, number_opp, Zval_opp.
Qed.

Lemma floatZ_0 : floatZ 0.
Proof. now exists (S754_zero false). Qed.

Lemma floatZ_pow2 t : -1074 <= t <= 1023 -> floatZ (2 ^ (t + scale)).
Proof. intros Ht. exact (pow2_float t Ht). Qed.

Lemma floatZ_unit z : floatZ z -> exists k, z = k * 2 ^ (scale - 1074).
Proof. intros (R & Hv & Hn & <-). now apply Zval_unit. Qed.

Lemma floatZ_lt z : floatZ z -> z < 2 ^ (1024 + scale).
Proof.
  intros (R & Hv & Hn & <-). pose proof (magnitude_lt R Hv).
  destruct (Zval_magnitude R); pose proof (magnitude_nonneg R); lia.
Qed.

Lemma rounded_opp a r : rounded a r -> rounded (- a) (- r).
Proof.
  intros H z Hz. destruct (H (- z) (floatZ_opp z Hz)) as [HU HL]. split; lia.
Qed.

Lemma rounded_quot_opp d c q : rounded_quot d c q -> rounded_quot (- d) c (- q).
Proof.
  intros H z Hz. destruct (H (- z) (floatZ_opp z Hz)) as [HU HL]. split; intros; nia.
Qed.

Lemma add_rounded (x y : float) :
  is_finite x = true -> is_finite y = true -> is_finite (x + y) = true ->
  rounded (F2Z x + F2Z y) (F2Z (x + y)).
Proof.
  intros Hx%number_of_finite Hy%number_of_finite Hr%number_of_finite z (R & Hv & Hn & <-).
  unfold F2Z in *. rewrite add_spec in *.
  apply SFadd_bounds; auto using Prim2SF_valid.
Qed.

Lemma sub_rounded (x y : float) :
  is_finite x = true -> is_finite y = true -> is_finite (x - y) = true ->
  rounded (F2Z x - F2Z y) (F2Z (x - y)).
Proof.
  intros Hx%number_of_finite Hy%number_of_finite Hr%number_of_finite z (R & Hv & Hn & <-).
  unfold F2Z in *. rewrite sub_spec in *.
  apply SFsub_bounds; auto using Prim2SF_valid.
Qed.

Lemma div_rounded (x y : float) :
  is_finite x = true -> is_finite y = true -> is_finite (x / y) = true ->
  0 < F2Z y ->
  rounded_quot (F2Z x) (F2Z y) (F2Z (x / y)).
Proof.
  intros Hx%number_of_finite Hy%number_of_finite Hr%number_of_finite Hpos z (R & Hv & Hn & <-).
  unfold F2Z in *. rewrite div_spec in *.
  apply SFdiv_bounds; auto using Prim2SF_valid.
Qed.

(** An operation does not overflow when its exact result lies between two
    numbers. *)
Lemma add_finite (x y lo hi : float) :
  is_finite x = true -> is_finite y = true ->
  is_finite lo = true -> is_finite hi = true ->
  F2Z lo <= F2Z x + F2Z y <= F2Z hi ->
  is_finite (x + y) = true.
Proof.
  intros Hx%number_of_finite Hy%number_of_finite Hlo%number_of_finite Hhi%number_of_finite
    [Hle Hge].
  apply finite_of_number. rewrite add_spec. unfold F2Z in *.
  destruct (Z.le_ge_cases 0 (Zval (Prim2SF x) + Zval (Prim2SF y))).
  - apply (SFadd_number _ _ (Prim2SF hi)); auto using Prim2SF_valid.
    rewrite magnitude_abs. lia.
  - apply (SFadd_number _ _ (Prim2SF lo)); auto using Prim2SF_valid.
    rewrite magnitude_abs. lia.
Qed.

Lemma sub_finite (x y lo hi : float) :
  is_finite x = true -> is_finite y = true ->
  is_finite lo = true -> is_finite hi = true ->
  F2Z lo <= F2Z x - F2Z y <= F2Z hi ->
  is_finite (x - y) = true.
Proof.
  intros Hx%number_of_finite Hy%number_of_finite Hlo%number_of_finite Hhi%number_of_finite
    [Hle Hge].
  apply finite_of_number. rewrite sub_spec. unfold F2Z in *.
  destruct (Z.le_ge_cases 0 (Zval (Prim2SF x) - Zval (Prim2SF y))).
  - apply (SFsub_number _ _ (Prim2SF hi)); auto using Prim2SF_valid.
    rewrite magnitude_abs. lia.
  - apply (SFsub_number _ _ (Prim2SF lo)); auto using Prim2SF_valid.
    rewrite magnitude_abs. lia.
Qed.

(** A number divided by a number that is at least 1 is a number. *)
Lemma div_finite (x y : float) :
  is_finite x = true -> is_finite y = true -> 2 ^ scale <= F2Z y ->
  is_finite (x / y) = true.
Proof.
  intros Hx Hy%number_of_finite Hone.
  pose proof (number_of_finite x Hx) as Hnx.
  assert (HK : 0 < 2 ^ scale) by (apply Z.pow_pos_nonneg; unfold scale; lia).
  apply finite_of_number. rewrite div_spec. unfold F2Z in *.
  apply (SFdiv_number _ _ (Prim2SF x)); auto using Prim2SF_valid; [lia|].
  rewrite magnitude_abs. nia.
Qed.

(** A product of two numbers of the same sign is not negative. *)
Lemma mul_nonneg (x y : float) :
  is_finite x = true -> is_finite y = true ->
  (0 <= F2Z x /\ 0 <= F2Z y) \/ (F2Z x <= 0 /\ F2Z y <= 0) ->
  0 <= F2Z (x * y).
Proof.
  intros Hx%number_of_finite Hy%number_of_finite Hsign.
  unfold F2Z in *. rewrite mul_spec. unfold SF64mul.
  pose proof (Prim2SF_valid x) as Hvx. pose proof (Prim2SF_valid y) as Hvy.
  destruct (Prim2SF x) as [sx|sx| |sx mx ex]; try discriminate;
    destruct (Prim2SF y) as [sy|sy| |sy my ey]; try discriminate;
    cbn [SFmul Zval]; try lia.
  pose proof (finite_pos sx mx ex Hvx). pose proof (finite_pos sy my ey Hvy).
  pose proof (binary_round_aux_sign prec emax (xorb sx sy) (Zpos (mx * my)) (ex + ey) loc_Exact)
    as Hs.
  assert (Hxor : xorb sx sy = false)
    by (destruct sx, sy; cbn [Zval cond_Zopp] in Hsign; try reflexivity; lia).
  rewrite Hxor in *.
  destruct (binary_round_aux prec emax false (Zpos (mx * my)) (ex + ey) loc_Exact)
    as [s|s| |s m e]; cbn [Zval]; try lia.
  subst s. cbn [cond_Zopp]. lia.
Qed.

Lemma leb_of_F2Z (x y : float) :
  is_finite x = true -> is_finite y = true ->
  (x <=? y)%float = (F2Z x <=? F2Z y).
Proof.
  intros Hx%number_of_finite Hy%number_of_finite.
  rewrite leb_spec. unfold SFleb, F2Z.
  rewrite (SFcompare_Zval _ _ (Prim2SF_valid x) (Prim2SF_valid y) Hx Hy).
  unfold Z.leb. now destruct (Zval (Prim2SF x) ?= Zval (Prim2SF y)).
Qed.

Lemma ltb_of_F2Z (x y : float) :
  is_finite x = true -> is_finite y = true ->
  (x <? y)%float = (F2Z x <? F2Z y).
Proof.
  intros Hx%number_of_finite Hy%number_of_finite.
  rewrite ltb_spec. unfold SFltb, F2Z.
  rewrite (SFcompare_Zval _ _ (Prim2SF_valid x) (Prim2SF_valid y) Hx Hy).
  unfold Z.ltb. now destruct (Zval (Prim2SF x) ?= Zval (Prim2SF y)).
Qed.

(** A product of two numbers of the same sign is a number that is not
    negative, or +Infinity. *)
Lemma mul_not_negative (x y : float) :
  is_finite x = true -> is_finite y = true ->
  (0 <= F2Z x /\ 0 <= F2Z y) \/ (F2Z x <= 0 /\ F2Z y <= 0) ->
  not_negative (Prim2SF (x * y)) = true.
Proof.
  intros Hx%number_of_finite Hy%number_of_finite Hsign.
  unfold F2Z in *. rewrite mul_spec. unfold SF64mul.
  pose proof (Prim2SF_valid x) as Hvx. pose proof (Prim2SF_valid y) as Hvy.
  destruct (Prim2SF x) as [sx|sx| |sx mx ex]; try discriminate;
    destruct (Prim2SF y) as [sy|sy| |sy my ey]; try discriminate;
    cbn [SFmul]; try reflexivity.
  pose proof (finite_pos sx mx ex Hvx). pose proof (finite_pos sy my ey Hvy).
  pose proof (binary_round_aux_sign prec emax (xorb sx sy) (Zpos (mx * my)) (ex + ey) loc_Exact)
    as Hs.
  pose proof (binary_round_aux_not_nan (xorb sx sy) (Zpos (mx * my)) (ex + ey) loc_Exact
                ltac:(lia)) as Hn.
  assert (Hxor : xorb sx sy = false)
    by (destruct sx, sy; cbn [Zval cond_Zopp] in Hsign; try reflexivity; lia).
  rewrite Hxor in *.
  destruct (binary_round_aux prec emax false (Zpos (mx * my)) (ex + ey) loc_Exact)
    as [s|s| |s m e]; try congruence; now subst s.
Qed.

(** Adding something that is not negative does not lower a sum that is not
    negative, also when the sum overflows. *)
Lemma add_not_negative (x y : float) :
  not_negative (Prim2SF x) = true -> not_negative (Prim2SF y) = true ->
  not_negative (Prim2SF (x + y)) = true /\ (x <=? x + y)%float = true.
Proof.
  intros Hx Hy. rewrite leb_spec, add_spec. unfold SF64add.
  pose proof (Prim2SF_valid x) as Hvx. pose proof (Prim2SF_valid y) as Hvy.
  destruct (Prim2SF x) as [sx|[]| |[] mx ex] eqn:Ex; try discriminate;
    destruct (Prim2SF y) as [sy|[]| |[] my ey] eqn:Ey; try discriminate;
    try (split; reflexivity).
  - destruct sx, sy; split; reflexivity.
  - cbn [SFadd]. split; [reflexivity|]. unfold SFleb. now rewrite SFcompare_refl.
  - pose proof (finite_pos false mx ex Hvx). pose proof (finite_pos false my ey Hvy).
    pose proof (SFadd_positive (S754_finite false mx ex) (S754_finite false my ey)
                  Hvx Hvy eq_refl eq_refl ltac:(cbn [Zval cond_Zopp]; lia)) as Hpos.
    assert (Hvr : valid_binary (SFadd prec emax (S754_finite false mx ex)
                                  (S754_finite false my ey)) = true).
    { rewrite <- Ex, <- Ey. change (SFadd prec emax) with SF64add.
      rewrite <- add_spec. apply Prim2SF_valid. }
    pose proof (SFadd_bounds (S754_finite false mx ex) (S754_finite false my ey)
                  (S754_finite false mx ex) Hvx Hvy Hvx eq_refl eq_refl eq_refl) as Hb.
    destruct (SFadd prec emax (S754_finite false mx ex) (S754_finite false my ey))
      as [s|[]| |[] m e]; try discriminate; [split; reflexivity|].
    split; [reflexivity|].
    destruct (Hb eq_refl) as [_ HL]. specialize (HL ltac:(cbn [Zval cond_Zopp]; lia)).
    unfold SFleb. rewrite (SFcompare_Zval _ _ Hvx Hvr eq_refl eq_refl).
    now destruct (Z.compare_spec (Zval (S754_finite false mx ex)) (Zval (S754_finite false m e)));
      try lia.
Qed.

(** *** The sign of Welford's increment *)

(** When the sample is above the mean as [record] sees it ([delta > 0]),
    the step [delta / count] is not negative and at most the exact distance
    from the mean to the sample, whatever the roundings. *)
Lemma welford_quot_pos V Mn d c q :
  floatZ V -> floatZ Mn -> floatZ d ->
  rounded (V - Mn) d -> rounded_quot d c q ->
  2 ^ scale <= c -> (2 * 2 ^ scale <= c \/ Mn = 0) ->
  0 < d -> 0 <= q <= V - Mn.
Proof.
  intros HV HMn Hdf Hd Hq Hc Hc2 Hpos.
  unfold rounded, rounded_quot in *.
  assert (HK : 0 < 2 ^ scale) by (apply Z.pow_pos_nonneg; unfold scale; lia).
  remember (2 ^ scale) as K eqn:HKdef.
  remember (V - Mn) as D eqn:HDdef.
  assert (HD : 0 < D).
  { destruct (Z.lt_ge_cases 0 D) as [|Hle]; [assumption|].
    destruct (Hd 0 floatZ_0) as [HU _]. specialize (HU ltac:(lia)). lia. }
  split.
  { destruct (Hq 0 floatZ_0) as [_ HL]. apply HL. nia. }
  destruct (Z.le_gt_cases d D) as [Hle|Hgt].
  - destruct (Hq d Hdf) as [HU _]. assert (q <= d) by (apply HU; nia). lia.
  - assert (Hc2' : 2 * K <= c).
    { destruct Hc2 as [|HMn0]; [assumption|].
      destruct (Hd V HV) as [HU _]. specialize (HU ltac:(lia)). lia. }
    destruct (floatZ_unit V HV) as [k1 Hk1], (floatZ_unit Mn HMn) as [k2 Hk2].
    assert (Hu : 0 < 2 ^ (scale - 1074)) by (apply Z.pow_pos_nonneg; unfold scale; lia).
    remember (2 ^ (scale - 1074)) as u eqn:Hudef.
    assert (HDk : D = (k1 - k2) * u) by lia.
    assert (Hk : 0 < k1 - k2) by nia.
    assert (HDu : u <= D) by nia.
    pose proof (Z.log2_spec D HD) as [Hlo Hhi].
    set (j := Z.log2 D) in *.
    assert (Hj : scale - 1074 <= j).
    { assert (Hlt : 2 ^ (scale - 1074) < 2 ^ Z.succ j) by lia.
      apply Z.pow_lt_mono_r_iff in Hlt; [lia | lia |].
      pose proof (Z.log2_nonneg D). unfold j. lia. }
    assert (HP : exists P, floatZ P /\ 0 < P <= D /\ d <= 2 * P).
    { destruct (Z.le_gt_cases (j - scale) 1022) as [Hsmall|Hbig].
      - exists (2 ^ j). split; [|split; [split|]].
        + replace j with (j - scale + scale) by lia. apply floatZ_pow2. lia.
        + apply Z.pow_pos_nonneg; unfold scale in *; lia.
        + exact Hlo.
        + assert (H2P : floatZ (2 ^ Z.succ j)).
          { replace (Z.succ j) with (j - scale + 1 + scale) by lia. apply floatZ_pow2. lia. }
          destruct (Hd _ H2P) as [HU _]. specialize (HU ltac:(lia)).
          rewrite Z.pow_succ_r in HU by (unfold scale in *; lia). lia.
      - exists (2 ^ (1023 + scale)). split; [|split; [split|]].
        + apply floatZ_pow2. lia.
        + apply Z.pow_pos_nonneg; unfold scale; lia.
        + apply Z.le_trans with (2 ^ j); [|exact Hlo].
          apply Z.pow_le_mono_r; lia.
        + pose proof (floatZ_lt d Hdf) as Hlt.
          replace (1024 + scale) with (Z.succ (1023 + scale)) in Hlt by lia.
          rewrite Z.pow_succ_r in Hlt by (unfold scale; lia). lia. }
    destruct HP as (P & HPf & [HP0 HPD] & HdP).
    destruct (Hq P HPf) as [HU _]. assert (q <= P) by (apply HU; nia). lia.
Qed.

Lemma welford_quot_neg V Mn d c q :
  floatZ V -> floatZ Mn -> floatZ d ->
  rounded (V - Mn) d -> rounded_quot d c q ->
  2 ^ scale <= c -> (2 * 2 ^ scale <= c \/ Mn = 0) ->
  d < 0 -> V - Mn <= q <= 0.
Proof.
  intros HV HMn Hdf Hd Hq Hc Hc2 Hneg.
  enough (0 <= - q <= - V - - Mn) by lia.
  apply (welford_quot_pos (- V) (- Mn) (- d) c (- q));
    try (apply floatZ_opp; assumption); try assumption; try lia.
  - replace (- V - - Mn) with (- (V - Mn)) by lia. now apply rounded_opp.
  - now apply rounded_quot_opp.
Qed.

End RoundingFacts.

(** ** Baseline manager *)

Module BaselineFacts.
Import BaselineManager Aux.
Local Open Scope float_scope.

Lemma record_lookup_eq bm name v :
  _baselines (record bm name v) !! name
  = Some (update (default fresh (_baselines bm !! name)) v).
Proof. unfold record. cbn [_baselines]. by rewrite lookup_insert_eq. Qed.

Lemma record_lookup_ne bm name name' v :
  name ≠ name' → _baselines (record bm name v) !! name' = _baselines bm !! name'.
Proof. intros Hne. unfold record. cbn [_baselines]. by rewrite lookup_insert_ne. Qed.

Lemma recordAll_snoc bm name vs v :
  recordAll bm name (vs ++ [v]) = record (recordAll bm name vs) name v.
Proof. unfold recordAll. by rewrite foldl_app. Qed.

Lemma recordAll_minSamples bm name vs :
  _minSamples (recordAll bm name vs) = _minSamples bm.
Proof.
  induction vs as [|v vs IH] using rev_ind; [done|].
  by rewrite recordAll_snoc.
Qed.

(** Recording for one metric leaves the records of the others as they are. *)
Lemma recordAll_lookup_ne bm name name' vs :
  name ≠ name' → _baselines (recordAll bm name vs) !! name' = _baselines bm !! name'.
Proof.
  intros Hne. induction vs as [|v vs IH] using rev_ind; [done|].
  by rewrite recordAll_snoc, record_lookup_ne.
Qed.

(** The record of a metric after a run of [record] calls. *)
Lemma recordAll_lookup bm name vs :
  _baselines (recordAll bm name vs) !! name
  = match vs with
    | [] => _baselines bm !! name
    | _ => Some (foldl update (default fresh (_baselines bm !! name)) vs)
    end.
Proof.
  induction vs as [|v vs IH] using rev_ind; [done|].
  rewrite recordAll_snoc, record_lookup_eq, IH, foldl_app.
  by destruct vs.
Qed.

Lemma update_count data v :
  BaselineData.count (update data v) = BaselineData.count data + 1.
Proof. done. Qed.

(** C1. [record] applies Welford's update to the metric's record:
    [delta = value - mean; mean += delta / count; m2 += delta * (value - mean)]
    with the count already incremented; and recording 1, 2, 3, 4, 5 for a
    metric not seen before gives, once the manager is ready at five samples,
    a snapshot with mean 3 and sample variance 2.5. *)
Theorem record_is_welford_update (bm : t) (name : string) (value : float) :
  (∃ after,
     let before := default fresh (_baselines bm !! name) in
     let delta := value - BaselineData.mean before in
     _baselines (record bm name value) !! name = Some after
     ∧ BaselineData.count after = BaselineData.count before + 1
     ∧ BaselineData.mean after
       = BaselineData.mean before + delta / BaselineData.count after
     ∧ BaselineData.m2 after
       = BaselineData.m2 before + delta * (value - BaselineData.mean after))
  ∧ (_baselines bm !! name = None →
     Num.geb 5 (_minSamples bm) = true →
     ∃ snap,
       getBaseline (recordAll bm name [1; 2; 3; 4; 5]) name = Some snap
       ∧ Snapshot.mean snap = 3
       ∧ Snapshot.variance snap = 2.5).
Proof.
  split.
  - eexists. cbn zeta. split; [apply record_lookup_eq|]. done.
  - intros Hnew Hready. unfold getBaseline, isReady.
    rewrite recordAll_lookup, recordAll_minSamples, Hnew.
    cbn [default fmap option_fmap option_map].
    replace (BaselineData.count (foldl update fresh [1; 2; 3; 4; 5])) with 5 by done.
    unfold id. rewrite Hready. cbn [negb]. eexists. split; [done|].
    split; by_evaluation.
Qed.

Lemma record_is_welford_update_witness :
  ∃ snap,
    getBaseline (recordAll (constructor 5 None) "heap_used" [1; 2; 3; 4; 5]) "heap_used"
    = Some snap
    ∧ Snapshot.mean snap = 3 ∧ Snapshot.variance snap = 2.5.
Proof.
  apply (record_is_welford_update (constructor 5 None) "heap_used" 0); reflexivity.
Defined.

Lemma recordMany_snoc bm calls call :
  recordMany bm (calls ++ [call]) = record (recordMany bm calls) call.1 call.2.
Proof. unfold recordMany. by rewrite foldl_app. Qed.

Lemma calls_of_snoc name calls call :
  calls_of name (calls ++ [call])
  = (if decide (call.1 = name) then S (calls_of name calls) else calls_of name calls).
Proof.
  unfold calls_of. rewrite filter_app, length_app.
  rewrite filter_cons, filter_nil. case_decide; simpl; lia.
Qed.

Lemma recordMany_minSamples bm calls :
  _minSamples (recordMany bm calls) = _minSamples bm.
Proof.
  induction calls as [|call calls IH] using rev_ind; [done|].
  by rewrite recordMany_snoc.
Qed.

(** A metric has a record exactly when it had one before or was recorded,
    and its count has been incremented once per call. *)
Lemma recordMany_lookup bm calls name :
  (is_Some (_baselines (recordMany bm calls) !! name)
   ↔ is_Some (_baselines bm !! name) ∨ (0 < calls_of name calls)%nat)
  ∧ BaselineData.count (default fresh (_baselines (recordMany bm calls) !! name))
    = Nat.iter (calls_of name calls) (λ c, c + 1)
        (BaselineData.count (default fresh (_baselines bm !! name))).
Proof.
  induction calls as [|[name' v] calls [IHs IHc]] using rev_ind.
  - split; [|done]. unfold calls_of. simpl. split; [auto | intros [|]; [done | lia]].
  - rewrite recordMany_snoc, calls_of_snoc. cbn [fst snd].
    case_decide as Hname.
    + subst name'. rewrite record_lookup_eq. cbn [default from_option id].
      split; [split; [intros _; right; lia | eauto] |].
      by rewrite update_count, IHc.
    + rewrite record_lookup_ne by done. done.
Qed.

(** C5. After any run of [record] calls on a new manager, [isReady(name)]
    compares the number of samples recorded for [name] with
    [learningPeriodSeconds * sampleRateHz], and [getBaseline(name)] returns a
    snapshot exactly when the metric is ready (and was recorded).  With a
    learning period of 30 and a sample rate of 1, the snapshot is [null]
    after each of the first 29 calls for the metric and non-null after the
    30th and every later one. *)
Theorem readiness_gate (calls : list (string * float)) (name : string) :
  let n := calls_of name calls in
  (∀ learningPeriodSeconds sampleRateHz,
     let bm := recordMany (constructor learningPeriodSeconds sampleRateHz) calls in
     isReady bm name
     = Num.geb (counter n) (learningPeriodSeconds * default 1 sampleRateHz)
     ∧ (is_Some (getBaseline bm name) ↔ (0 < n)%nat ∧ isReady bm name = true))
  ∧ (is_Some (getBaseline (recordMany (constructor 30 (Some 1)) calls) name)
     ↔ (30 ≤ n)%nat).
Proof.
  intros n.
  assert (Hgen : ∀ l r,
     let bm := recordMany (constructor l r) calls in
     isReady bm name = Num.geb (counter n) (l * default 1 r)
     ∧ (is_Some (getBaseline bm name) ↔ (0 < n)%nat ∧ isReady bm name = true)).
  { intros l r bm.
    destruct (recordMany_lookup (constructor l r) calls name) as [Hsome Hcount].
    fold bm in Hsome, Hcount. fold n in Hsome, Hcount.
    assert (Hready : isReady bm name = Num.geb (counter n) (l * default 1 r)).
    { unfold isReady. unfold bm at 2. rewrite recordMany_minSamples.
      cbn [constructor _minSamples]. f_equal.
      destruct (_baselines bm !! name) as [data|] eqn:Hdata; cbn in Hcount |- *.
      - done.
      - destruct n; [done|]. destruct Hsome as [_ Hsome].
        destruct Hsome as [? ?]; [right; lia | done]. }
    split; [done|]. unfold getBaseline.
    destruct (_baselines bm !! name) as [data|] eqn:Hdata.
    - assert (0 < n)%nat.
      { destruct Hsome as [[Hold|Hpos] _]; [eauto | | done].
        cbn in Hold. by destruct Hold. }
      destruct (isReady bm name); cbn [negb].
      + split; [done | eauto].
      + split; [by intros [? ?] | by intros [_ ?]].
    - split; [by intros [? ?] |]. intros [Hn _].
      destruct Hsome as [_ Hsome]. destruct Hsome as [? ?]; [by right | done]. }
  split; [exact Hgen|].
  destruct (Hgen 30 (Some 1)) as [Hready ->]. rewrite Hready.
  change (30 * default 1 (Some 1)) with (counter 30).
  unfold Num.geb. rewrite FloatFacts.counter_leb; [| lia | by vm_compute].
  split.
  - intros [_ Hle]. by apply Nat.leb_le in Hle.
  - intros Hle. split; [lia | by apply Nat.leb_le].
Qed.

Lemma welford_exact_step (count mean m2 v : Q) :
  (0 <= count)%Q → (0 <= m2)%Q →
  let '(count', mean', m2') := welford (count, mean, m2) v in
  (1 <= count')%Q ∧ (m2 <= m2')%Q.
Proof.
  intros Hcount Hm2. cbn [welford Num.add Num.sub Num.mul Num.div Num.one Num.Q_arith].
  set (c := (count + 1)%Q). set (d := (v - mean)%Q).
  assert (Hc : (1 <= c)%Q) by (unfold c; lra).
  split; [done|].
  assert (Hi : (0 <= / c <= 1)%Q).
  { split.
    - apply Qlt_le_weak, Qinv_lt_0_compat. lra.
    - assert (Hone : (/ c == 1 / c)%Q) by (unfold Qdiv; ring).
      rewrite Hone. apply Qle_shift_div_r; lra. }
  unfold Qdiv. set (i := (/ c)%Q) in *.
  assert (Hsq : (0 <= d * d * (1 - i))%Q).
  { apply Qmult_le_0_compat; [|lra].
    destruct (Qlt_le_dec d 0).
    - assert (Hneg : (d * d == (- d) * (- d))%Q) by ring.
      rewrite Hneg. apply Qmult_le_0_compat; lra.
    - apply Qmult_le_0_compat; lra. }
  assert (Hinc : (d * (v - (mean + d * i)) == d * d * (1 - i))%Q)
    by (unfold d; ring).
  rewrite Hinc. lra.
Qed.

Lemma exact_run_snoc vs v : exact_run (vs ++ [v]) = welford (exact_run vs) v.
Proof. unfold exact_run. by rewrite foldl_app. Qed.

Lemma exact_run_nonneg vs :
  let '(count, mean, m2) := exact_run vs in (0 <= count)%Q ∧ (0 <= m2)%Q.
Proof.
  induction vs as [|v vs IH] using rev_ind.
  - cbn. split; lra.
  - rewrite exact_run_snoc. destruct (exact_run vs) as [[count mean] m2].
    destruct IH as [Hcount Hm2].
    pose proof (welford_exact_step count mean m2 v Hcount Hm2) as Hstep.
    destruct (welford (count, mean, m2) v) as [[count' mean'] m2'].
    destruct Hstep. split; lra.
Qed.

(** C10, on binary64 numbers: a NaN sample makes [m2], the variance and
    [stdDev] NaN; two finite samples whose difference overflows make [m2]
    drop from 0 to -Infinity, the variance -Infinity and [stdDev] NaN. *)
Lemma m2_negative_or_nan :
  (∃ snap,
     getBaseline (recordAll (constructor 2 None) "fps" [nan; 1]) "fps" = Some snap
     ∧ (0 <=? Snapshot.variance snap) = false
     ∧ is_nan (Snapshot.stdDev snap) = true)
  ∧ (∃ data data' snap,
       let bm := recordAll (constructor 2 None) "fps" [1.7e308] in
       let bm' := record bm "fps" (-1.7e308) in
       _baselines bm !! "fps" = Some data
       ∧ _baselines bm' !! "fps" = Some data'
       ∧ BaselineData.m2 data = 0
       ∧ BaselineData.m2 data' = neg_infinity
       ∧ getBaseline bm' "fps" = Some snap
       ∧ Snapshot.variance snap = neg_infinity
       ∧ is_nan (Snapshot.stdDev snap) = true).
Proof.
  split.
  - eexists. split; [by_evaluation|]. split; reflexivity.
  - do 3 eexists. cbn zeta.
    split; [by_evaluation|]. split; [by_evaluation|].
    split; [reflexivity|]. split; [reflexivity|].
    split; [by_evaluation|]. split; reflexivity.
Qed.

(** The same recurrence in exact arithmetic (no rounding, no overflow, no
    NaN): [m2] is nonnegative after any run of updates and does not decrease
    in an update, and the variance derived from it is nonnegative. *)
Theorem welford_exact_m2_nonnegative (vs : list Q) (v : Q) :
  let '(count, mean, m2) := exact_run vs in
  let '(count', mean', m2') := exact_run (vs ++ [v]) in
  (0 <= m2)%Q ∧ (m2 <= m2')%Q ∧ (0 <= exact_variance (exact_run vs))%Q.
Proof.
  rewrite exact_run_snoc. pose proof (exact_run_nonneg vs) as Hinv.
  destruct (exact_run vs) as [[count mean] m2]. destruct Hinv as [Hcount Hm2].
  pose proof (welford_exact_step count mean m2 v Hcount Hm2) as Hstep.
  destruct (welford (count, mean, m2) v) as [[count' mean'] m2'].
  destruct Hstep as [_ Hstep]. split; [done|]. split; [done|].
  unfold exact_variance. destruct (Qlt_le_dec 1 count) as [Hgt|Hle]; [|lra].
  apply Qle_shift_div_l; lra.
Qed.

(** *** serialize and restore *)






Lemma restore_entries_spec baselines props :
  NoDup props.*1 → Forall (λ kv, kv.2 ≠ Json.JNull) props →
  (restore_entries baselines props).2 = None
  ∧ ∀ name,
      (restore_entries baselines props).1 !! name
      = match Json.get_own props name with
        | Some saved => Some (restored_of saved)
        | None => baselines !! name
        end.
Proof.
  revert baselines. induction props as [|[k v] props IH]; intros baselines Hnd Hnn.
  - done.
  - cbn in Hnd. apply NoDup_cons in Hnd as [Hk Hnd].
    apply Forall_cons in Hnn as [Hv Hnn]. cbn in Hv.
    destruct (IH (<[k := restored_of v]> baselines) Hnd Hnn) as [Hthrown Hget].
    assert (Hstep : restore_entries baselines ((k, v) :: props)
                    = restore_entries (<[k := restored_of v]> baselines) props)
      by (by destruct v).
    rewrite Hstep. split; [done|]. intros name. rewrite Hget. cbn [Json.get_own].
    destruct (decide (k = name)) as [->|Hne].
    + assert (Json.get_own props name = None) as ->.
      { clear -Hk. induction props as [|[k0 w] props IH]; [done|].
        cbn in Hk. apply not_elem_of_cons in Hk as [Hne Hk]. cbn.
        rewrite decide_False by done. by apply IH. }
      by rewrite lookup_insert_eq.
    + rewrite lookup_insert_ne by done. done.
Qed.








(** C7.  [restore] at a payload that parses and whose second entry is
    [null]: reading [saved.count] throws a TypeError, which is caught, after
    the entry before it has replaced its record; the manager is not as it
    was.  The claim says that a failing [restore] changes nothing, as the
    comment of the [catch] block has it. *)
Lemma restore_applies_entries_before_failure :
  let bm := constructor 30 None in
  let json := Json.Text (Json.JObj
    [("fps", Json.JObj [("count", Json.JNum 40); ("mean", Json.JNum 60);
                        ("m2", Json.JNum 10); ("min", Json.JNum 55);
                        ("max", Json.JNum 61)]);
     ("lag", Json.JNull)]) in
  (restore_try bm json).2 = Some TypeError
  ∧ restore bm json ≠ bm
  ∧ BaselineData.count <$> _baselines (restore bm json) !! "fps" = Some 40.
Proof.
  cbv zeta. split; [reflexivity|]. split; [|reflexivity].
  intros H. apply (f_equal (λ b, BaselineData.count <$> _baselines b !! "fps")) in H.
  vm_compute in H. discriminate.
Qed.

(** The other failures of [restore] do what the claim says: no exception
    escapes (it is a total function), and when its [try] block throws before
    the loop has set an entry, because the string is not JSON, or is the text
    [null], or its first entry is [null], the manager is left as it was. *)
Theorem restore_failure_before_loop_is_noop (bm : t) (json : Json.text) :
  Json.parse json = None
  ∨ (∃ parsed, Json.parse json = Some parsed
       ∧ (Json.entries parsed = None
          ∨ ∃ name rest, Json.entries parsed = Some ((name, Json.JNull) :: rest))) →
  is_Some (restore_try bm json).2 ∧ restore bm json = bm.
Proof.
  unfold restore, restore_try.
  intros [->|(parsed & -> & [->|(name & rest & ->)])]; cbn; [eauto..|].
  split; [eauto|]. by destruct bm.
Qed.

Lemma restore_failure_before_loop_is_noop_witness :
  let bm := recordAll (constructor 5 None) "heap_used" [1; 2; 3; 4; 5] in
  (is_Some (restore_try bm (Json.Malformed "{count:")).2
   ∧ restore bm (Json.Malformed "{count:") = bm)
  ∧ (is_Some (restore_try bm (Json.Text Json.JNull)).2
     ∧ restore bm (Json.Text Json.JNull) = bm).
Proof.
  cbv zeta. split.
  - apply restore_failure_before_loop_is_noop. left. reflexivity.
  - apply restore_failure_before_loop_is_noop. right.
    exists Json.JNull. split; [reflexivity | left; reflexivity].
Defined.

(** *** The window, the extremes and the percentiles *)

(** The record of a metric after a run of [record] calls is the one that
    the calls for that metric alone produce. *)
Lemma recordMany_lookup_own bm calls name :
  _baselines (recordMany bm calls) !! name
  = _baselines (recordAll bm name (filter (λ call, call.1 = name) calls).*2) !! name.
Proof.
  induction calls as [|[name' v] calls IH] using rev_ind; [done|].
  rewrite recordMany_snoc, filter_app, filter_cons, filter_nil. cbn [fst snd].
  case_decide as Hname.
  - subst name'. rewrite fmap_app. cbn [fmap list_fmap snd].
    rewrite recordAll_snoc, !record_lookup_eq. by rewrite IH.
  - rewrite record_lookup_ne by done. by rewrite app_nil_r.
Qed.

Lemma update_values data vs :
  BaselineData.values (foldl update data vs)
  = RingBuffer.pushAll (BaselineData.values data) vs.
Proof.
  induction vs as [|v vs IH] using rev_ind; [done|].
  by rewrite foldl_app, RingBufferFacts.pushAll_snoc, <- IH.
Qed.

(** The record of a metric in a manager that started empty: the fold of
    the metric's own samples, of which there is at least one. *)
Lemma recordMany_new_lookup l r calls name data :
  _baselines (recordMany (constructor l r) calls) !! name = Some data →
  ∃ v vs, (filter (λ call, call.1 = name) calls).*2 = v :: vs
          ∧ data = foldl update fresh (v :: vs).
Proof.
  rewrite recordMany_lookup_own, recordAll_lookup.
  destruct ((filter (λ call, call.1 = name) calls).*2) as [|v vs]; [done|].
  intros [= <-]. by exists v, vs.
Qed.

(** A snapshot comes from a record of the metric. *)
Lemma getBaseline_Some bm name snap :
  getBaseline bm name = Some snap →
  ∃ data,
    _baselines bm !! name = Some data
    ∧ Snapshot.min snap = BaselineData.min data
    ∧ Snapshot.max snap = BaselineData.max data
    ∧ Snapshot.stdDev snap = sqrt (Snapshot.variance snap)
    ∧ ∀ k, k ∈ [(0.5, Snapshot.p50 snap); (0.9, Snapshot.p90 snap);
                (0.95, Snapshot.p95 snap); (0.99, Snapshot.p99 snap)] →
           k.2 = percentile (Num.sort_numbers
                               (RingBuffer.toArray (BaselineData.values data))) k.1.
Proof.
  unfold getBaseline. destruct (_baselines bm !! name) as [data|]; [|done].
  destruct (negb (isReady bm name)); [done|]. intros [= <-]. exists data.
  do 4 (split; [done|]).
  cbn [Snapshot.p50 Snapshot.p90 Snapshot.p95 Snapshot.p99].
  intros k Hk. repeat (apply elem_of_cons in Hk as [->|Hk]; [done|]).
  by apply elem_of_nil in Hk.
Qed.

(** X3. On a manager that started empty, [getValues(name)] is the last 500
    values recorded for [name], oldest first, whatever was recorded for
    other metrics in between; it is empty for a metric that was never
    recorded. *)
Theorem getValues_is_recent_window (learningPeriodSeconds : float)
    (sampleRateHz : option float) (calls : list (string * float)) (name : string) :
  getValues (recordMany (constructor learningPeriodSeconds sampleRateHz) calls) name
  = Some <$> drop (calls_of name calls - 500)
               (filter (λ call, call.1 = name) calls).*2.
Proof.
  unfold getValues, calls_of. rewrite recordMany_lookup_own, recordAll_lookup.
  rewrite <- (length_fmap snd (filter (λ call, call.1 = name) calls)).
  generalize ((filter (λ call, call.1 = name) calls).*2). intros vs.
  assert (Hwindow : RingBuffer.toArray (RingBuffer.pushAll (RingBuffer.new 500) vs)
                    = Some <$> drop (length vs - 500) vs).
  { apply (RingBufferFacts.toArray_filled 500); [lia|].
    apply RingBufferFacts.filled_pushAll. lia. }
  destruct vs as [|v vs]; [done|].
  cbn [constructor _baselines]. rewrite lookup_empty.
  cbn [default fmap option_fmap option_map compose from_option].
  by rewrite update_values.
Qed.

(** X4. Each metric has a baseline of its own: what [isReady],
    [getBaseline] and [getValues] return for a metric after any run of
    [record] calls is what they return after the calls for that metric
    alone. *)
Theorem statistics_depend_on_own_samples (bm : t) (calls : list (string * float))
    (name : string) :
  let own := recordAll bm name (filter (λ call, call.1 = name) calls).*2 in
  isReady (recordMany bm calls) name = isReady own name
  ∧ getBaseline (recordMany bm calls) name = getBaseline own name
  ∧ getValues (recordMany bm calls) name = getValues own name.
Proof.
  intros own.
  assert (Hlookup : _baselines (recordMany bm calls) !! name = _baselines own !! name)
    by apply recordMany_lookup_own.
  assert (Hmin : _minSamples (recordMany bm calls) = _minSamples own).
  { unfold own. by rewrite recordMany_minSamples, recordAll_minSamples. }
  unfold getBaseline, isReady, getValues. by rewrite Hlookup, Hmin.
Qed.

(** *** Welford's recurrence in exact arithmetic *)

Lemma foldr_Qplus_snoc (vs : list Q) (v : Q) :
  (foldr Qplus 0 (vs ++ [v]) == foldr Qplus 0 vs + v)%Q.
Proof.
  induction vs as [|x vs IH]; cbn [foldr app].
  - ring.
  - rewrite IH. ring.
Qed.

(** The sums that the recurrence keeps track of. *)
Lemma exact_run_sums (vs : list Q) :
  let '(count, mean, m2) := exact_run vs in
  (count == inject_Z (Z.of_nat (length vs)))%Q
  ∧ (count * mean == foldr Qplus 0 vs)%Q
  ∧ (m2 + count * mean * mean == foldr Qplus 0 ((λ v, v * v) <$> vs))%Q.
Proof.
  induction vs as [|v vs IH] using rev_ind.
  - cbn. repeat split; ring.
  - rewrite exact_run_snoc. destruct (exact_run vs) as [[count mean] m2].
    destruct IH as (Hc & Hs & Hss).
    cbn [welford Num.add Num.sub Num.mul Num.div Num.one Num.Q_arith].
    rewrite fmap_app, length_app. cbn [fmap list_fmap length].
    rewrite !foldr_Qplus_snoc, <- Hs, <- Hss.
    assert (Hn : (0 <= count)%Q).
    { rewrite Hc. change 0%Q with (inject_Z 0). rewrite <- Zle_Qle. lia. }
    assert (Hne : ¬ (count + 1 == 0)%Q) by lra.
    split; [|split].
    + rewrite Hc, Nat2Z.inj_add, inject_Z_plus. reflexivity.
    + field. exact Hne.
    + field. exact Hne.
Qed.

Lemma sum_square_deviations (vs : list Q) (c : Q) :
  (foldr Qplus 0 ((λ v, (v - c) * (v - c)) <$> vs)
   == foldr Qplus 0 ((λ v, v * v) <$> vs) - (2 # 1) * c * foldr Qplus 0 vs
      + inject_Z (Z.of_nat (length vs)) * c * c)%Q.
Proof.
  induction vs as [|v vs IH]; cbn [fmap list_fmap foldr length].
  - cbn. ring.
  - rewrite IH, Nat2Z.inj_succ, <- Z.add_1_r, inject_Z_plus. ring.
Qed.

(** X5. In exact arithmetic the recurrence of [record] computes what it is
    meant to: after the values [vs], [count] is their number, [count * mean]
    is their sum, so [mean] is their arithmetic mean, and [m2] is the sum of
    the squares of their deviations from that mean. *)
Theorem welford_exact_mean_and_m2 (vs : list Q) :
  let '(count, mean, m2) := exact_run vs in
  (count == inject_Z (Z.of_nat (length vs)))%Q
  ∧ (count * mean == foldr Qplus 0 vs)%Q
  ∧ (m2 == foldr Qplus 0 ((λ v, (v - mean) * (v - mean)) <$> vs))%Q.
Proof.
  pose proof (exact_run_sums vs) as Hinv.
  destruct (exact_run vs) as [[count mean] m2]. destruct Hinv as (Hc & Hs & Hss).
  split; [done|]. split; [done|].
  rewrite sum_square_deviations, <- Hss, <- Hs, <- Hc. ring.
Qed.

(** *** Minimum and maximum *)

Lemma update_min_max data v :
  BaselineData.min (update data v) = Num.Math_min (BaselineData.min data) v
  ∧ BaselineData.max (update data v) = Num.Math_max (BaselineData.max data) v.
Proof. done. Qed.

(** The extremes kept by a run of updates of a new record. *)
Lemma updates_min_max (v : float) (vs : list float) :
  Forall (λ v, is_nan v = false) (v :: vs) →
  let data := foldl update fresh (v :: vs) in
  BaselineData.min data ∈ v :: vs ∧ BaselineData.max data ∈ v :: vs
  ∧ ∀ u, u ∈ v :: vs →
      (BaselineData.min data <=? u) = true ∧ (u <=? BaselineData.max data) = true.
Proof.
  induction vs as [|w vs IH] using rev_ind; intros Hnan data.
  - apply Forall_cons in Hnan as [Hv _]. unfold data. cbn [foldl].
    destruct (update_min_max fresh v) as [-> ->].
    change (BaselineData.min fresh) with infinity.
    change (BaselineData.max fresh) with neg_infinity.
    rewrite FloatOrder.Math_min_infinity, FloatOrder.Math_max_neg_infinity by done.
    split; [apply list_elem_of_here|]. split; [apply list_elem_of_here|].
    intros u ->%list_elem_of_singleton. split; by apply FloatOrder.leb_refl.
  - rewrite app_comm_cons in Hnan. apply Forall_app in Hnan as [Hnan Hw].
    rewrite Forall_singleton in Hw. destruct (IH Hnan) as (Hmin & Hmax & Hbound).
    set (prev := foldl update fresh (v :: vs)) in *.
    assert (Hdata : data = update prev w).
    { unfold data, prev. by rewrite app_comm_cons, foldl_app. }
    rewrite Hdata. clear Hdata data. rewrite app_comm_cons.
    destruct (update_min_max prev w) as [-> ->].
    assert (Hpmin : is_nan (BaselineData.min prev) = false).
    { by apply (proj1 (Forall_forall _ _) Hnan). }
    assert (Hpmax : is_nan (BaselineData.max prev) = false).
    { by apply (proj1 (Forall_forall _ _) Hnan). }
    destruct (FloatOrder.Math_min_spec (BaselineData.min prev) w Hpmin Hw)
      as (Hmin' & Hmin1 & Hmin2).
    destruct (FloatOrder.Math_max_spec (BaselineData.max prev) w Hpmax Hw)
      as (Hmax' & Hmax1 & Hmax2).
    split; [|split].
    + rewrite elem_of_app. destruct Hmin' as [->| ->]; [by left|].
      right. apply list_elem_of_here.
    + rewrite elem_of_app. destruct Hmax' as [->| ->]; [by left|].
      right. apply list_elem_of_here.
    + intros u [Hu| ->%list_elem_of_singleton]%elem_of_app; [|done].
      destruct (Hbound u Hu) as [H1 H2].
      split; [by apply (FloatOrder.leb_trans _ (BaselineData.min prev))
             | by apply (FloatOrder.leb_trans _ (BaselineData.max prev))].
Qed.

(** X6. When no sample of a metric is NaN, the [min] and [max] of its
    snapshot are samples that were recorded for it, and every sample
    recorded for it lies between them. *)
Theorem min_max_bound_the_samples (learningPeriodSeconds : float)
    (sampleRateHz : option float) (calls : list (string * float)) (name : string)
    (snap : Snapshot.t) :
  let bm := recordMany (constructor learningPeriodSeconds sampleRateHz) calls in
  let samples := (filter (λ call, call.1 = name) calls).*2 in
  getBaseline bm name = Some snap →
  Forall (λ v, is_nan v = false) samples →
  Snapshot.min snap ∈ samples ∧ Snapshot.max snap ∈ samples
  ∧ ∀ v, v ∈ samples →
      (Snapshot.min snap <=? v) = true ∧ (v <=? Snapshot.max snap) = true.
Proof.
  intros bm samples Hsnap Hnan.
  destruct (getBaseline_Some bm name snap Hsnap) as (data & Hdata & -> & -> & _).
  destruct (recordMany_new_lookup _ _ _ _ _ Hdata) as (v & vs & Hvs & ->).
  unfold samples in *. rewrite Hvs in *. by apply updates_min_max.
Qed.

Lemma min_max_bound_the_samples_witness :
  let calls := [("fps", 60); ("lag", 3); ("fps", 30); ("fps", 45)]%float in
  let samples := (filter (λ call, call.1 = "fps") calls).*2 in
  ∃ snap,
    getBaseline (recordMany (constructor 3 None) calls) "fps" = Some snap
    ∧ Snapshot.min snap = 30 ∧ Snapshot.max snap = 60
    ∧ Snapshot.min snap ∈ samples ∧ Snapshot.max snap ∈ samples
    ∧ ∀ v, v ∈ samples →
        (Snapshot.min snap <=? v) = true ∧ (v <=? Snapshot.max snap) = true.
Proof.
  cbv zeta. eexists. split; [by_evaluation|].
  split; [reflexivity|]. split; [reflexivity|].
  apply (min_max_bound_the_samples 3 None
           [("fps", 60); ("lag", 3); ("fps", 30); ("fps", 45)] "fps").
  - by_evaluation.
  - vm_compute. by repeat constructor.
Defined.

(** A NaN sample leaves NaN in the mean, [m2], the minimum and the maximum,
    and an update of such a record leaves them there. *)
Lemma update_nan data :
  let data' := update data nan in
  BaselineData.mean data' = nan ∧ BaselineData.m2 data' = nan
  ∧ BaselineData.min data' = nan ∧ BaselineData.max data' = nan.
Proof.
  cbn [update welford Num.add Num.sub Num.mul Num.div Num.one Num.float_arith
       BaselineData.mean BaselineData.m2 BaselineData.min BaselineData.max].
  rewrite ?FloatOrder.sub_nan_l, ?FloatOrder.div_nan_l, ?FloatOrder.add_nan_r,
    ?FloatOrder.mul_nan_l, ?FloatOrder.add_nan_r.
  by rewrite FloatOrder.Math_min_nan, FloatOrder.Math_max_nan by auto.
Qed.

Lemma update_poisoned data v :
  BaselineData.mean data = nan → BaselineData.m2 data = nan →
  BaselineData.min data = nan → BaselineData.max data = nan →
  let data' := update data v in
  BaselineData.mean data' = nan ∧ BaselineData.m2 data' = nan
  ∧ BaselineData.min data' = nan ∧ BaselineData.max data' = nan.
Proof.
  intros Hmean Hm2 Hmin Hmax.
  cbn [update welford Num.add Num.sub Num.mul Num.div Num.one Num.float_arith
       BaselineData.mean BaselineData.m2 BaselineData.min BaselineData.max].
  rewrite Hmean, Hm2, Hmin, Hmax.
  rewrite ?FloatOrder.sub_nan_r, ?FloatOrder.add_nan_l, ?FloatOrder.mul_nan_l,
    ?FloatOrder.add_nan_l.
  by rewrite FloatOrder.Math_min_nan, FloatOrder.Math_max_nan by auto.
Qed.

(** X7. A NaN sample is never forgotten: once NaN was recorded for a metric,
    the mean, [m2], the minimum and the maximum of its record are NaN after
    every later [record] call, whatever is recorded. *)
Theorem nan_sample_poisons_the_record (bm : t) (name : string)
    (calls : list (string * float)) :
  ∃ data,
    _baselines (recordMany (record bm name nan) calls) !! name = Some data
    ∧ BaselineData.mean data = nan ∧ BaselineData.m2 data = nan
    ∧ BaselineData.min data = nan ∧ BaselineData.max data = nan.
Proof.
  induction calls as [|[name' v] calls (data & Hdata & Hmean & Hm2 & Hmin & Hmax)]
    using rev_ind.
  - eexists. split; [apply record_lookup_eq|]. apply update_nan.
  - rewrite recordMany_snoc. cbn [fst snd].
    destruct (decide (name' = name)) as [->|Hne].
    + eexists. split; [apply record_lookup_eq|]. rewrite Hdata.
      cbn [default from_option]. by apply update_poisoned.
    + exists data. by rewrite record_lookup_ne.
Qed.

(** *** Percentiles *)

Lemma insert_sorted_perm (x : float) (l : list float) :
  Num.insert_sorted x l ≡ₚ x :: l.
Proof.
  induction l as [|y l IH]; cbn [Num.insert_sorted]; [done|].
  destruct (_ <=? _); [done|]. rewrite IH. apply Permutation_swap.
Qed.

(** Sorting an array without holes rearranges it. *)
Lemma sort_numbers_perm (w : list float) :
  ∃ sorted, Num.sort_numbers (Some <$> w) = Some <$> sorted ∧ sorted ≡ₚ w.
Proof.
  exists (foldr Num.insert_sorted [] w). unfold Num.sort_numbers.
  assert (Hdefined : omap id (Some <$> w) = w).
  { induction w as [|x w IH]; [done|]. cbn. by rewrite IH. }
  cbv zeta. rewrite Hdefined, length_fmap, Nat.sub_diag. cbn [replicate].
  rewrite app_nil_r. split; [done|]. clear Hdefined.
  induction w as [|x w IH]; [done|]. cbn [foldr].
  by rewrite insert_sorted_perm, IH.
Qed.

(** The index [Math.floor(n * k)] of each of the four percentiles lies
    within an array of 1 to 500 numbers. *)
Lemma percentile_index_in_range (n : nat) (k : float) :
  (1 ≤ n ≤ 500)%nat → k ∈ [0.5; 0.9; 0.95; 0.99] →
  (Num.floor_index (Num.of_nat n * k) < n)%nat.
Proof.
  intros Hn Hk.
  assert (Hall : forallb (λ k, forallb (λ n, Num.floor_index (Num.of_nat n * k) <? n)%nat
                                       (seq 1 500))
                         [0.5; 0.9; 0.95; 0.99] = true)
    by by_evaluation.
  rewrite forallb_forall in Hall.
  assert (Hk' : In k [0.5; 0.9; 0.95; 0.99]) by (by apply list_elem_of_In).
  specialize (Hall k Hk'). rewrite forallb_forall in Hall.
  apply Nat.ltb_lt, Hall, in_seq. lia.
Qed.

Lemma percentile_elem (w : list float) (k : float) :
  (1 ≤ length w ≤ 500)%nat → k ∈ [0.5; 0.9; 0.95; 0.99] →
  percentile (Num.sort_numbers (Some <$> w)) k ∈ w.
Proof.
  intros Hn Hk. destruct (sort_numbers_perm w) as (sorted & -> & Hperm).
  unfold percentile. rewrite length_fmap.
  pose proof (percentile_index_in_range (length w) k Hn Hk) as Hi.
  rewrite <- (Permutation_length Hperm) in Hi.
  destruct (lookup_lt_is_Some_2 sorted _ Hi) as [x Hx].
  rewrite list_lookup_fmap, Hx. cbn. rewrite <- Hperm.
  by eapply list_elem_of_lookup_2.
Qed.

(** X8. On a manager that started empty, the four percentiles of a snapshot
    are values of the metric's window, that is, samples among the last 500
    recorded for it: a percentile is picked from the sorted window, never
    interpolated, and never the fallback 0 of an empty window. *)
Theorem percentiles_are_recorded_samples (learningPeriodSeconds : float)
    (sampleRateHz : option float) (calls : list (string * float)) (name : string)
    (snap : Snapshot.t) :
  let bm := recordMany (constructor learningPeriodSeconds sampleRateHz) calls in
  getBaseline bm name = Some snap →
  Some (Snapshot.p50 snap) ∈ getValues bm name
  ∧ Some (Snapshot.p90 snap) ∈ getValues bm name
  ∧ Some (Snapshot.p95 snap) ∈ getValues bm name
  ∧ Some (Snapshot.p99 snap) ∈ getValues bm name.
Proof.
  intros bm Hsnap.
  destruct (getBaseline_Some bm name snap Hsnap) as (data & Hdata & _ & _ & _ & Hp).
  destruct (recordMany_new_lookup _ _ _ _ _ Hdata) as (v & vs & Hvs & ->).
  assert (Hwindow : ∃ w, (1 ≤ length w ≤ 500)%nat
            ∧ RingBuffer.toArray (BaselineData.values (foldl update fresh (v :: vs)))
              = Some <$> w).
  { exists (drop (length (v :: vs) - 500) (v :: vs)). split.
    - rewrite length_drop. cbn [length]. lia.
    - rewrite update_values.
      apply (RingBufferFacts.toArray_filled 500); [lia|].
      apply RingBufferFacts.filled_pushAll. lia. }
  destruct Hwindow as (w & Hlen & Hw).
  assert (Hvalues : getValues bm name = Some <$> w).
  { unfold getValues. rewrite Hdata. cbn. by rewrite <- Hw. }
  rewrite Hvalues. rewrite Hw in Hp.
  assert (Hin : ∀ k, k ∈ [(0.5, Snapshot.p50 snap); (0.9, Snapshot.p90 snap);
                          (0.95, Snapshot.p95 snap); (0.99, Snapshot.p99 snap)] →
                     k.1 ∈ [0.5; 0.9; 0.95; 0.99] → Some k.2 ∈ Some <$> w).
  { intros k Hk Hk1. rewrite (Hp k Hk). apply list_elem_of_fmap_2.
    by apply percentile_elem. }
  split; [apply (Hin (0.5, _)); by_membership|].
  split; [apply (Hin (0.9, _)); by_membership|].
  split; [apply (Hin (0.95, _)); by_membership|].
  apply (Hin (0.99, _)); by_membership.
Qed.

Lemma percentiles_are_recorded_samples_witness :
  let calls := [("fps", 60); ("lag", 3); ("fps", 30); ("fps", 45)]%float in
  let bm := recordMany (constructor 3 None) calls in
  ∃ snap,
    getBaseline bm "fps" = Some snap
    ∧ Snapshot.p50 snap = 45 ∧ Snapshot.p99 snap = 60
    ∧ Some (Snapshot.p50 snap) ∈ getValues bm "fps"
    ∧ Some (Snapshot.p90 snap) ∈ getValues bm "fps"
    ∧ Some (Snapshot.p95 snap) ∈ getValues bm "fps"
    ∧ Some (Snapshot.p99 snap) ∈ getValues bm "fps".
Proof.
  cbv zeta. eexists. split; [by_evaluation|].
  split; [reflexivity|]. split; [reflexivity|].
  apply (percentiles_are_recorded_samples 3 None
           [("fps", 60); ("lag", 3); ("fps", 30); ("fps", 45)] "fps").
  by_evaluation.
Defined.

(** X9. The [stdDev] of a snapshot is the square root of its variance, and
    it is never negative: it is NaN (when the variance is negative or NaN)
    or at least 0. *)
Theorem stdDev_is_never_negative (bm : t) (name : string) (snap : Snapshot.t) :
  getBaseline bm name = Some snap →
  Snapshot.stdDev snap = sqrt (Snapshot.variance snap)
  ∧ (is_nan (Snapshot.stdDev snap) = true ∨ (0 <=? Snapshot.stdDev snap) = true).
Proof.
  intros Hsnap.
  destruct (getBaseline_Some bm name snap Hsnap) as (_ & _ & _ & _ & -> & _).
  split; [done|]. apply FloatOrder.sqrt_not_negative.
Qed.

Lemma stdDev_is_never_negative_witness :
  ∃ snap,
    getBaseline (recordAll (constructor 3 None) "render_time" [90; 110; 100])
      "render_time" = Some snap
    ∧ Snapshot.stdDev snap = 10
    ∧ Snapshot.stdDev snap = sqrt (Snapshot.variance snap)
    ∧ (is_nan (Snapshot.stdDev snap) = true ∨ (0 <=? Snapshot.stdDev snap) = true).
Proof.
  eexists. split; [by_evaluation|]. split; [reflexivity|].
  apply (stdDev_is_never_negative
           (recordAll (constructor 3 None) "render_time" [90; 110; 100]) "render_time").
  by_evaluation.
Defined.

(** *** What [restore] replaces *)

Lemma get_own_None props name :
  Json.get_own props name = None ↔ name ∉ props.*1.
Proof.
  induction props as [|[k w] props IH]; cbn; [by split; [intros _ ?%elem_of_nil|]|].
  rewrite not_elem_of_cons, <- IH. case_decide as Hk.
  - split; [done | intros [? _]; congruence].
  - split; [intros ?; split; congruence | by intros [_ ?]].
Qed.

Lemma get_own_elem props name saved :
  NoDup props.*1 → (name, saved) ∈ props → Json.get_own props name = Some saved.
Proof.
  induction props as [|[k w] props IH]; [by intros _ ?%elem_of_nil|].
  cbn. intros [Hk Hnd]%NoDup_cons [[= <- <-]|Hin]%elem_of_cons.
  - by rewrite decide_True.
  - rewrite decide_False; [by apply IH|].
    intros ->. apply Hk, list_elem_of_fmap. by exists (name, saved).
Qed.

(** X10. [restore] of a JSON object none of whose entries is [null] keeps
    the sample-count requirement of the manager, leaves every metric that
    the object does not name exactly as it was, window included, and gives
    every metric that the object names a new record with an empty window. *)
Theorem restore_replaces_named_metrics (bm : t) (props : list (string * Json.value)) :
  NoDup props.*1 →
  Forall (λ entry, entry.2 ≠ Json.JNull) props →
  let restored := restore bm (Json.Text (Json.JObj props)) in
  _minSamples restored = _minSamples bm
  ∧ (∀ name, name ∉ props.*1 →
       _baselines restored !! name = _baselines bm !! name
       ∧ getBaseline restored name = getBaseline bm name
       ∧ getValues restored name = getValues bm name)
  ∧ (∀ name saved, (name, saved) ∈ props →
       _baselines restored !! name = Some (restored_of saved)
       ∧ getValues restored name = []).
Proof.
  intros Hnd Hnn restored.
  assert (Hmin : _minSamples restored = _minSamples bm).
  { unfold restored, restore, restore_try. cbn [Json.parse Json.entries].
    by destruct (restore_entries _ _). }
  assert (Hget : ∀ name,
            _baselines restored !! name
            = match Json.get_own props name with
              | Some saved => Some (restored_of saved)
              | None => _baselines bm !! name
              end).
  { unfold restored, restore, restore_try. cbn [Json.parse Json.entries].
    destruct (restore_entries_spec (_baselines bm) props Hnd Hnn) as [_ Hget].
    by destruct (restore_entries (_baselines bm) props). }
  split; [done|]. split.
  - intros name Hname%get_own_None.
    assert (Hsame : _baselines restored !! name = _baselines bm !! name)
      by (by rewrite Hget, Hname).
    unfold getBaseline, isReady, getValues. by rewrite Hsame, Hmin.
  - intros name saved Hin. specialize (Hget name).
    rewrite (get_own_elem _ _ _ Hnd Hin) in Hget.
    unfold getValues. by rewrite !Hget.
Qed.

Lemma restore_replaces_named_metrics_witness :
  let bm := recordAll (constructor 2 None) "fps" [60; 58] in
  let props := [("lag", Json.JObj [("count", Json.JNum 40); ("mean", Json.JNum 3);
                                   ("m2", Json.JNum 10); ("min", Json.JNum 1);
                                   ("max", Json.JNum 9)])] in
  let restored := restore bm (Json.Text (Json.JObj props)) in
  getValues restored "fps" = [Some 60; Some 58]
  ∧ getValues restored "lag" = []
  ∧ BaselineData.count <$> _baselines restored !! "lag" = Some 40.
Proof.
  cbv zeta.
  destruct (restore_replaces_named_metrics
              (recordAll (constructor 2 None) "fps" [60; 58])
              [("lag", Json.JObj [("count", Json.JNum 40); ("mean", Json.JNum 3);
                                  ("m2", Json.JNum 10); ("min", Json.JNum 1);
                                  ("max", Json.JNum 9)])])
    as (_ & Hkept & Hnamed).
  - cbn. apply NoDup_singleton.
  - by repeat constructor.
  - destruct (Hkept "fps") as (_ & _ & ->).
    { cbn. by intros ?%list_elem_of_singleton. }
    destruct (Hnamed "lag" _ ltac:(apply list_elem_of_here)) as [-> ->].
    split; [by_evaluation|]. split; reflexivity.
Defined.

End BaselineFacts.

(** ** Welford's recurrence on binary64 numbers *)

Module WelfordFacts.
Import Aux Exact FloatFacts FloatOrder RoundingFacts BaselineManager BaselineFacts.
Local Open Scope Z_scope.

Lemma F2Z_one : F2Z 1 = 2 ^ scale.
Proof. vm_compute. reflexivity. Qed.

Lemma F2Z_two : F2Z 2 = 2 * 2 ^ scale.
Proof. vm_compute. reflexivity. Qed.

Lemma counter_finite n : is_finite (counter n) = true.
Proof.
  apply finite_of_number. rewrite counter_spec. unfold int_spec, int_sf.
  destruct (Z.of_nat n =? 0); [done|]. by destruct (Z.of_nat n <? 2 ^ 53).
Qed.

Lemma fresh_sound : sound fresh.
Proof.
  split; try reflexivity; [by exists 0%nat | right; split; reflexivity].
Qed.

Lemma update_fields data value :
  BaselineData.count (update data value) = (BaselineData.count data + 1)%float
  ∧ BaselineData.mean (update data value)
    = (BaselineData.mean data
       + (value - BaselineData.mean data) / (BaselineData.count data + 1))%float
  ∧ BaselineData.m2 (update data value)
    = (BaselineData.m2 data
       + (value - BaselineData.mean data)
         * (value - (BaselineData.mean data
                     + (value - BaselineData.mean data) / (BaselineData.count data + 1))))%float.
Proof. done. Qed.

(** One update without overflow keeps the record sound and does not lower
    [m2]. *)
Lemma update_sound data value :
  sound data → finite_update data value = true →
  sound (update data value)
  ∧ (BaselineData.m2 data <=? BaselineData.m2 (update data value))%float = true.
Proof.
  intros [[n Hcount] Hmean Hm2 Hstart] Hfin.
  destruct (update_fields data value) as (Ec & Em & E2).
  unfold finite_update in Hfin. cbv zeta in Hfin. cbn [forallb] in Hfin.
  set (count := BaselineData.count data) in *.
  set (mean := BaselineData.mean data) in *.
  set (m2 := BaselineData.m2 data) in *.
  set (c := (count + 1)%float) in *.
  set (delta := (value - mean)%float) in *.
  set (q := (delta / c)%float) in *.
  set (mean' := (mean + q)%float) in *.
  set (delta2 := (value - mean')%float) in *.
  set (p := (delta * delta2)%float) in *.
  set (m2' := (m2 + p)%float) in *.
  repeat (apply andb_prop in Hfin as [?Hf Hfin]). clear Hfin.
  rename Hf into Hv, Hf0 into Hdelta, Hf1 into Hdelta2.
  assert (HK : 0 < 2 ^ scale) by (apply Z.pow_pos_nonneg; unfold scale; lia).
  (* the count *)
  assert (Hcountf : is_finite count = true) by (rewrite Hcount; apply counter_finite).
  assert (Hcn : c = counter (S n)) by (unfold c; by rewrite Hcount).
  assert (Hc : is_finite c = true) by (rewrite Hcn; apply counter_finite).
  assert (Hcount0 : 0 <= F2Z count) by (destruct Hstart as [|[-> _]]; lia).
  pose proof (add_rounded count 1 Hcountf eq_refl Hc) as Rc.
  fold c in Rc. rewrite F2Z_one in Rc.
  assert (Hc1 : 2 ^ scale <= F2Z c).
  { destruct (Rc (F2Z 1) (floatZ_float 1 eq_refl)) as [_ HL].
    rewrite F2Z_one in HL. apply HL. lia. }
  assert (Hc2 : 2 * 2 ^ scale <= F2Z c ∨ F2Z mean = 0).
  { destruct Hstart as [Hge|[_ Hz]]; [left | by right].
    destruct (Rc (F2Z 2) (floatZ_float 2 eq_refl)) as [_ HL].
    rewrite F2Z_two in HL. apply HL. lia. }
  (* the step towards the sample *)
  pose proof (sub_rounded value mean Hv Hmean Hdelta) as Rd. fold delta in Rd.
  assert (Hq : is_finite q = true) by (by apply div_finite).
  pose proof (div_rounded delta c Hdelta Hc Hq ltac:(lia)) as Rq. fold q in Rq.
  assert (Hstep : (0 < F2Z delta ∧ 0 <= F2Z q <= F2Z value - F2Z mean)
                  ∨ (F2Z delta = 0 ∧ F2Z q = 0)
                  ∨ (F2Z delta < 0 ∧ F2Z value - F2Z mean <= F2Z q <= 0)).
  { destruct (Z.lt_trichotomy (F2Z delta) 0) as [Hneg|[Hzero|Hpos]].
    - right; right. split; [done|].
      by apply (welford_quot_neg (F2Z value) (F2Z mean) (F2Z delta) (F2Z c) (F2Z q));
        auto using floatZ_float.
    - right; left. split; [done|].
      destruct (Rq 0 floatZ_0) as [HU HL]. rewrite Hzero in HU, HL.
      specialize (HU ltac:(lia)). specialize (HL ltac:(lia)). lia.
    - left. split; [done|].
      by apply (welford_quot_pos (F2Z value) (F2Z mean) (F2Z delta) (F2Z c) (F2Z q));
        auto using floatZ_float. }
  (* the new mean lies between the old one and the sample *)
  assert (Hmean' : is_finite mean' = true).
  { destruct Hstep as [[_ Hs]|[[_ Hs]|[_ Hs]]].
    - apply (add_finite mean q mean value); auto. lia.
    - apply (add_finite mean q mean mean); auto. lia.
    - apply (add_finite mean q value mean); auto. lia. }
  pose proof (add_rounded mean q Hmean Hq Hmean') as Rm. fold mean' in Rm.
  pose proof (sub_rounded value mean' Hv Hmean' Hdelta2) as Rd2. fold delta2 in Rd2.
  (* the increment is not negative *)
  assert (Hprod : not_negative (Prim2SF p) = true).
  { apply mul_not_negative; [assumption..|].
    destruct (Rm (F2Z value) (floatZ_float value Hv)) as [HUv HLv].
    destruct (Rd2 0 floatZ_0) as [HU0 HL0].
    destruct Hstep as [[Hd Hs]|[[Hd Hs]|[Hd Hs]]].
    - left. split; [lia|]. apply HL0. specialize (HUv ltac:(lia)). lia.
    - destruct (Z.le_ge_cases 0 (F2Z delta2)); [left | right]; lia.
    - right. split; [lia|]. apply HU0. specialize (HLv ltac:(lia)). lia. }
  destruct (add_not_negative m2 p Hm2 Hprod) as [Hm2' Hinc]. fold m2' in Hm2', Hinc.
  split; [|by rewrite E2].
  split; rewrite ?Ec, ?Em, ?E2; try assumption; [by exists (S n) | by left].
Qed.

Lemma finite_updates_snoc data values value :
  finite_updates data (values ++ [value])
  = finite_updates data values && finite_update (foldl update data values) value.
Proof.
  revert data. induction values as [|v values IH]; intros data; cbn [finite_updates app foldl].
  - by rewrite andb_true_r.
  - by rewrite IH, andb_assoc.
Qed.

Lemma updates_sound data values :
  sound data → finite_updates data values = true → sound (foldl update data values).
Proof.
  revert data. induction values as [|v values IH]; intros data Hs Hfin; [done|].
  cbn [finite_updates] in Hfin. apply andb_prop in Hfin as [Hv Hfin].
  cbn [foldl]. apply IH; [|done]. by apply update_sound.
Qed.

(** *** The variance and the standard deviation *)

Lemma leb_zero_not_negative (x : float) :
  not_negative (Prim2SF x) = true → (0 <=? x)%float = true.
Proof.
  rewrite leb_spec. change (Prim2SF 0) with (S754_zero false).
  by destruct (Prim2SF x) as [s|[]| |[] m e].
Qed.

Lemma not_negative_not_nan (x : float) :
  not_negative (Prim2SF x) = true → is_nan x = false.
Proof. intros H. apply is_nan_false. by destruct (Prim2SF x). Qed.

Lemma not_negative_of_sign r :
  sign_of r = Some false → not_negative r = true.
Proof. by destruct r as [[]|[]| |[] m e]. Qed.

(** What is not negative, divided by a positive number, is not negative. *)
Lemma div_not_negative (x y : float) :
  not_negative (Prim2SF x) = true →
  is_finite y = true → positive_sf (Prim2SF y) = true →
  not_negative (Prim2SF (x / y)) = true.
Proof.
  intros Hx Hy%number_of_finite Hpos.
  rewrite div_spec. unfold SF64div.
  pose proof (Prim2SF_valid x) as Hvx. pose proof (Prim2SF_valid y) as Hvy.
  destruct (Prim2SF x) as [sx|[]| |[] mx ex]; try discriminate;
    destruct (Prim2SF y) as [sy|[]| |[] my ey]; try discriminate; try reflexivity.
  cbn [SFdiv].
  pose proof (SFdiv_core_binary_spec mx ex my ey
                (valid_exponent _ _ _ Hvx) (valid_exponent _ _ _ Hvy)) as Hcore.
  destruct (SFdiv_core_binary prec emax (Zpos mx) ex (Zpos my) ey) as [[mz ez] lz].
  destruct Hcore as (Hmz & Hez & Hcanon & Htr).
  pose proof (finite_pos false my ey Hvy) as HB.
  pose proof (binary_round_aux_bounds (xorb false false) mz ez lz _ _ Hmz Hez HB Hcanon Htr)
    as [Hs _].
  by apply not_negative_of_sign.
Qed.

Lemma SFsqrt_core_binary_nonneg m e :
  0 <= (SFsqrt_core_binary prec emax (Zpos m) e).1.1.
Proof.
  unfold SFsqrt_core_binary. cbv zeta.
  set (s := e - 2 * _).
  set (m' := match s with 0 => Zpos m | Zpos _ => Z.shiftl (Zpos m) s | Zneg _ => 0 end).
  assert (Hm' : 0 <= m').
  { unfold m'. destruct s; [lia | | lia]. apply Z.shiftl_nonneg. lia. }
  pose proof (Z.sqrtrem_spec m' Hm') as Hspec.
  destruct (Z.sqrtrem m') as [q r]. cbn [fst]. lia.
Qed.

Lemma sqrt_keeps_not_negative (x : float) :
  not_negative (Prim2SF x) = true → not_negative (Prim2SF (sqrt x)) = true.
Proof.
  rewrite sqrt_spec. unfold SF64sqrt.
  destruct (Prim2SF x) as [s|[]| |[] m e]; try done. intros _. cbn [SFsqrt].
  pose proof (SFsqrt_core_binary_nonneg m e) as Hmz.
  destruct (SFsqrt_core_binary prec emax (Zpos m) e) as [[mz ez] lz]. cbn [fst] in Hmz.
  pose proof (binary_round_aux_sign prec emax false mz ez lz) as Hs.
  pose proof (binary_round_aux_not_nan false mz ez lz Hmz) as Hn.
  by destruct (binary_round_aux prec emax false mz ez lz) as [s|s| |s m' e']; subst.
Qed.

(** [count - 1] is a positive number when the count is above 1. *)
Lemma sub_one_positive (count : float) :
  is_finite count = true → (1 <? count)%float = true →
  is_finite (count - 1) = true ∧ positive_sf (Prim2SF (count - 1)) = true.
Proof.
  intros Hc Hlt. rewrite (ltb_of_F2Z 1 count eq_refl Hc) in Hlt.
  apply Z.ltb_lt in Hlt. split.
  - apply (sub_finite count 1 0 count); auto.
    rewrite F2Z_one in *. change (F2Z 0) with 0.
    assert (0 < 2 ^ scale) by (apply Z.pow_pos_nonneg; unfold scale; lia). lia.
  - rewrite sub_spec.
    apply SFsub_positive; auto using Prim2SF_valid, number_of_finite.
Qed.

(** The variance and standard deviation that [getBaseline] computes from a
    sound record. *)
Lemma variance_not_negative data :
  sound data →
  let variance :=
    if Num.gtb (BaselineData.count data) 1
    then (BaselineData.m2 data / (BaselineData.count data - 1))%float
    else 0%float in
  not_negative (Prim2SF variance) = true
  ∧ not_negative (Prim2SF (sqrt variance)) = true.
Proof.
  intros [[n Hcount] Hmean Hm2 Hstart] variance.
  assert (Hv : not_negative (Prim2SF variance) = true).
  { unfold variance, Num.gtb.
    destruct (1 <? BaselineData.count data)%float eqn:Hlt; [|done].
    destruct (sub_one_positive (BaselineData.count data)) as [Hf Hp]; [|done|].
    { rewrite Hcount. apply counter_finite. }
    by apply div_not_negative. }
  split; [done|]. by apply sqrt_keeps_not_negative.
Qed.

Lemma constructor_lookup l r name : _baselines (constructor l r) !! name = None.
Proof. apply lookup_empty. Qed.

(** The record of a metric, after calls none of which overflowed for it. *)
Lemma recordMany_sound l r calls name :
  finite_updates fresh (samples_of name calls) = true →
  sound (default fresh (_baselines (recordMany (constructor l r) calls) !! name)).
Proof.
  intros Hfin. rewrite recordMany_lookup_own, recordAll_lookup, constructor_lookup.
  fold (samples_of name calls).
  replace (default fresh _) with (foldl update fresh (samples_of name calls))
    by (by destruct (samples_of name calls)).
  apply updates_sound; [apply fresh_sound | done].
Qed.

(** C10, amended.  On binary64 numbers, for a manager that started empty and
    any run of [record] calls in which no sample of the metric is NaN or
    infinite and neither of its differences from the mean, [delta] and
    [delta2], overflows ([finite_updates]): the accumulator [m2] of the
    metric's record is not negative; a further such [record] call for the
    metric does not lower it, whatever the roundings, also when [m2] itself
    overflows to +Infinity; and a snapshot that [getBaseline] returns for
    the metric has a variance that is not negative and a standard deviation
    that is not negative and not NaN. *)
Theorem m2_nonnegative_without_overflow
    (learningPeriodSeconds : float) (sampleRateHz : option float)
    (calls : list (string * float)) (name : string) :
  let bm := recordMany (constructor learningPeriodSeconds sampleRateHz) calls in
  let data := default fresh (_baselines bm !! name) in
  finite_updates fresh (samples_of name calls) = true →
  (0 <=? BaselineData.m2 data)%float = true
  ∧ (∀ value data',
       finite_update data value = true →
       _baselines (record bm name value) !! name = Some data' →
       (BaselineData.m2 data <=? BaselineData.m2 data')%float = true)
  ∧ (∀ snap,
       getBaseline bm name = Some snap →
       (0 <=? Snapshot.variance snap)%float = true
       ∧ (0 <=? Snapshot.stdDev snap)%float = true
       ∧ is_nan (Snapshot.stdDev snap) = false).
Proof.
  intros bm data Hfin.
  pose proof (recordMany_sound learningPeriodSeconds sampleRateHz calls name Hfin) as Hsound.
  fold bm in Hsound. fold data in Hsound.
  split; [|split].
  - apply leb_zero_not_negative, (sound_m2 _ Hsound).
  - intros value data' Hvalue Hdata'.
    rewrite record_lookup_eq in Hdata'. fold data in Hdata'. injection Hdata' as <-.
    by destruct (update_sound data value Hsound Hvalue) as [_ Hinc].
  - intros snap Hsnap. unfold getBaseline in Hsnap. unfold data in Hsound.
    destruct (_baselines bm !! name) as [d|]; [|done].
    destruct (negb (isReady bm name)); [done|]. injection Hsnap as <-.
    cbn [Snapshot.variance Snapshot.stdDev default] in *.
    destruct (variance_not_negative d Hsound) as [Hv Hs]. cbv zeta in Hv, Hs.
    split; [by apply leb_zero_not_negative|].
    split; [by apply leb_zero_not_negative | by apply not_negative_not_nan].
Qed.

Lemma m2_nonnegative_without_overflow_witness :
  (let calls := [("fps", 0.1); ("lag", 3); ("fps", 0.2); ("fps", 0.3)]%float in
   let bm := recordMany (constructor 2 None) calls in
   let data := default fresh (_baselines bm !! "fps") in
   finite_updates fresh (samples_of "fps" calls) = true
   ∧ finite_update data 0.7 = true
   ∧ (0 <=? BaselineData.m2 data)%float = true
   ∧ (∃ data', _baselines (record bm "fps" 0.7) !! "fps" = Some data'
               ∧ (BaselineData.m2 data <=? BaselineData.m2 data')%float = true)
   ∧ (∃ snap, getBaseline bm "fps" = Some snap
              ∧ (0 <=? Snapshot.variance snap)%float = true
              ∧ (0 <=? Snapshot.stdDev snap)%float = true
              ∧ is_nan (Snapshot.stdDev snap) = false))
  ∧ (let calls := [("fps", 1e200); ("fps", -1e200)]%float in
     let bm := recordMany (constructor 2 None) calls in
     finite_updates fresh (samples_of "fps" calls) = true
     ∧ BaselineData.m2 (default fresh (_baselines bm !! "fps")) = infinity
     ∧ (∃ snap, getBaseline bm "fps" = Some snap
                ∧ Snapshot.variance snap = infinity
                ∧ (0 <=? Snapshot.variance snap)%float = true
                ∧ (0 <=? Snapshot.stdDev snap)%float = true
                ∧ is_nan (Snapshot.stdDev snap) = false)).
Proof.
  cbv zeta. split.
  - assert (Hfin : finite_updates fresh
                     (samples_of "fps"
                        [("fps", 0.1); ("lag", 3); ("fps", 0.2); ("fps", 0.3)]%float)
                   = true) by (vm_compute; reflexivity).
    destruct (m2_nonnegative_without_overflow 2 None
                [("fps", 0.1); ("lag", 3); ("fps", 0.2); ("fps", 0.3)]%float "fps" Hfin)
      as (Hm2 & Hstep & Hsnap).
    split; [exact Hfin|].
    split; [vm_compute; reflexivity|].
    split; [exact Hm2|].
    split.
    + eexists. split; [apply record_lookup_eq|].
      apply (Hstep 0.7%float); [vm_compute; reflexivity | apply record_lookup_eq].
    + eexists. split; [vm_compute; reflexivity|]. apply Hsnap. vm_compute; reflexivity.
  - assert (Hfin : finite_updates fresh
                     (samples_of "fps" [("fps", 1e200); ("fps", -1e200)]%float)
                   = true) by (vm_compute; reflexivity).
    destruct (m2_nonnegative_without_overflow 2 None
                [("fps", 1e200); ("fps", -1e200)]%float "fps" Hfin)
      as (_ & _ & Hsnap).
    split; [exact Hfin|].
    split; [vm_compute; reflexivity|].
    eexists. split; [vm_compute; reflexivity|].
    split; [reflexivity|]. apply Hsnap. vm_compute; reflexivity.
Defined.

End WelfordFacts.

(** ** Strategies *)

Module StrategyFacts.
Import BaselineManager.
Local Open Scope float_scope.

(** C2. The verdict of [ZScoreStrategy.detect] is the one of the rule of the
    specification: [null] without a ready baseline, with a zero stdDev or
    with [|z| <= threshold], and otherwise a spike that is critical exactly
    when [|z| > 2 * threshold], with score [min(1, |z| / (2 * threshold))].
    With mean 100, stdDev 10 and threshold 2.5, the value 126 gives a
    warning and the value 151 a critical verdict. *)
Theorem zscore_detect_follows_rule (host : Host.t) (self : ZScoreStrategy.t)
    (metric : Metric.t) (bm : t) :
  ((λ ev, (Anomaly.type_ ev, Anomaly.severity_ ev, Anomaly.score ev))
     <$> ZScoreStrategy.detect host self metric bm
   = ZScoreStrategy.rule (ZScoreStrategy.threshold self) (Metric.value metric)
       (getBaseline bm (Metric.name metric)))
  ∧ (∀ base,
       getBaseline bm (Metric.name metric) = Some base →
       Snapshot.mean base = 100 → Snapshot.stdDev base = 10 →
       ZScoreStrategy.threshold self = 2.5 →
       (Metric.value metric = 126 →
        Anomaly.severity_ <$> ZScoreStrategy.detect host self metric bm
        = Some Anomaly.warning)
       ∧ (Metric.value metric = 151 →
          Anomaly.severity_ <$> ZScoreStrategy.detect host self metric bm
          = Some Anomaly.critical)).
Proof.
  split.
  - unfold ZScoreStrategy.detect, ZScoreStrategy.rule, Num.gtb.
    destruct (getBaseline bm (Metric.name metric)) as [base|]; [|done].
    destruct (Snapshot.stdDev base =? 0); [done|].
    destruct (abs _ <=? _); [done|]. cbn.
    by rewrite (FloatFacts.mul_comm (ZScoreStrategy.threshold self) 2).
  - intros base Hbase Hmean Hdev Hthreshold.
    unfold ZScoreStrategy.detect, Num.gtb. rewrite Hbase, Hmean, Hdev, Hthreshold.
    split; intros ->; reflexivity.
Qed.

Lemma zscore_detect_follows_rule_witness :
  let bm := recordAll (constructor 3 None) "render_time" [90; 110; 100] in
  let host := {| Host.toFixed := λ _ _, "0.00"%string; Host.Date_now := 0 |} in
  let sample v := {| Metric.name := "render_time"; Metric.value := v;
                     Metric.unit := "ms"; Metric.tags := [];
                     Metric.timestamp := 0 |} in
  Anomaly.severity_ <$> ZScoreStrategy.detect host (ZScoreStrategy.constructor None)
                          (sample 126) bm = Some Anomaly.warning
  ∧ Anomaly.severity_ <$> ZScoreStrategy.detect host (ZScoreStrategy.constructor None)
                            (sample 151) bm = Some Anomaly.critical.
Proof.
  cbv zeta. split.
  - eapply (zscore_detect_follows_rule _ (ZScoreStrategy.constructor None)
              {| Metric.name := "render_time"; Metric.value := 126;
                 Metric.unit := "ms"; Metric.tags := []; Metric.timestamp := 0 |});
      try reflexivity; by_evaluation.
  - eapply (zscore_detect_follows_rule _ (ZScoreStrategy.constructor None)
              {| Metric.name := "render_time"; Metric.value := 151;
                 Metric.unit := "ms"; Metric.tags := []; Metric.timestamp := 0 |});
      try reflexivity; by_evaluation.
Defined.

(** C3. On a call with a ready baseline of nonzero stdDev,
    [EMAStrategy.detect] stores [alpha * value + (1 - alpha) * prevEma] for
    the metric, where [prevEma] is the baseline mean the first time the
    metric is seen and the stored value afterwards; a verdict whose
    normalized deviation equals [2 * deviationThreshold] is a warning.  With
    alpha 0.5, mean 100, stdDev 10 and threshold 2.5: a first value 100
    gives no verdict, and a next value 200 gives EMA 150, normalized
    deviation 5 and a warning. *)
Theorem ema_seed_update_and_boundary (host : Host.t) (self : EMAStrategy.t)
    (metric : Metric.t) (bm : t) (base : Snapshot.t) :
  getBaseline bm (Metric.name metric) = Some base →
  (Snapshot.stdDev base =? 0) = false →
  let detected := EMAStrategy.detect host self metric bm in
  let ema prevEma :=
    EMAStrategy.alpha self * Metric.value metric
    + (1 - EMAStrategy.alpha self) * prevEma in
  (EMAStrategy._emaValues self !! Metric.name metric = None →
   EMAStrategy._emaValues detected.1 !! Metric.name metric
   = Some (ema (Snapshot.mean base)))
  ∧ (∀ prevEma,
       EMAStrategy._emaValues self !! Metric.name metric = Some prevEma →
       EMAStrategy._emaValues detected.1 !! Metric.name metric
       = Some (ema prevEma))
  ∧ (∀ ev newEma alpha normalizedDeviation,
       detected.2 = Some ev →
       Anomaly.context_ ev = Anomaly.ema_context newEma alpha normalizedDeviation →
       (normalizedDeviation =? 2 * EMAStrategy.deviationThreshold self) = true →
       Anomaly.severity_ ev = Anomaly.warning)
  ∧ (∀ next,
       Snapshot.mean base = 100 → Snapshot.stdDev base = 10 →
       EMAStrategy.alpha self = 0.5 → EMAStrategy.deviationThreshold self = 2.5 →
       EMAStrategy._emaValues self !! Metric.name metric = None →
       Metric.value metric = 100 →
       Metric.name next = Metric.name metric → Metric.value next = 200 →
       detected.2 = None
       ∧ ∃ ev,
           (EMAStrategy.detect host detected.1 next bm).2 = Some ev
           ∧ Anomaly.severity_ ev = Anomaly.warning
           ∧ Anomaly.context_ ev = Anomaly.ema_context 150 0.5 5).
Proof.
  intros Hbase Hdev detected ema.
  assert (Hstate : EMAStrategy._emaValues detected.1 !! Metric.name metric
            = Some (ema (default (Snapshot.mean base)
                           (EMAStrategy._emaValues self !! Metric.name metric)))).
  { unfold detected, EMAStrategy.detect. rewrite Hbase, Hdev.
    destruct (_ <=? _); cbn; by rewrite lookup_insert_eq. }
  split; [intros Hnew; by rewrite Hstate, Hnew|].
  split; [intros prevEma Hprev; by rewrite Hstate, Hprev|].
  split.
  - intros ev newEma alpha nd Hev Hctx Hnd.
    unfold detected, EMAStrategy.detect in Hev. rewrite Hbase, Hdev in Hev.
    destruct (_ <=? _); [done|]. cbn in Hev. injection Hev as <-.
    cbn in Hctx |- *. injection Hctx as _ _ <-.
    rewrite (FloatFacts.mul_comm 2 (EMAStrategy.deviationThreshold self)) in Hnd.
    unfold Num.gtb. by rewrite (FloatFacts.eqb_not_ltb _ _ Hnd).
  - intros next Hmean Hdev' Halpha Hthreshold Hnew Hvalue Hname Hnext.
    assert (Hfirst : detected
              = ({| EMAStrategy.name := EMAStrategy.name self;
                    EMAStrategy.alpha := 0.5;
                    EMAStrategy.deviationThreshold := 2.5;
                    EMAStrategy._emaValues :=
                      <[Metric.name metric := 100]> (EMAStrategy._emaValues self) |},
                 None)).
    { unfold detected, EMAStrategy.detect.
      by rewrite Hbase, Hmean, Hdev', Halpha, Hthreshold, Hnew, Hvalue. }
    rewrite Hfirst. split; [done|].
    unfold EMAStrategy.detect. rewrite Hname, Hbase, Hmean, Hdev', Hnext.
    cbn [fst EMAStrategy._emaValues EMAStrategy.alpha EMAStrategy.deviationThreshold].
    rewrite lookup_insert_eq. eexists. split; [reflexivity|]. split; reflexivity.
Qed.

Lemma ema_seed_update_and_boundary_witness :
  let bm := recordAll (constructor 3 None) "heap_used" [90; 110; 100] in
  let host := {| Host.toFixed := λ _ _, "0.00"%string; Host.Date_now := 0 |} in
  let sample v := {| Metric.name := "heap_used"; Metric.value := v;
                     Metric.unit := "bytes"; Metric.tags := [];
                     Metric.timestamp := 0 |} in
  let self := EMAStrategy.constructor (Some 0.5) None in
  (EMAStrategy.detect host self (sample 100) bm).2 = None
  ∧ ∃ ev,
      (EMAStrategy.detect host (EMAStrategy.detect host self (sample 100) bm).1
         (sample 200) bm).2 = Some ev
      ∧ Anomaly.severity_ ev = Anomaly.warning
      ∧ Anomaly.context_ ev = Anomaly.ema_context 150 0.5 5.
Proof.
  cbv zeta.
  eapply (ema_seed_update_and_boundary _ (EMAStrategy.constructor (Some 0.5) None)
            {| Metric.name := "heap_used"; Metric.value := 100;
               Metric.unit := "bytes"; Metric.tags := []; Metric.timestamp := 0 |}
            (recordAll (constructor 3 None) "heap_used" [90; 110; 100])
            {| Snapshot.mean := 100; Snapshot.stdDev := 10; Snapshot.variance := 100;
               Snapshot.min := 90; Snapshot.max := 110; Snapshot.p50 := 100;
               Snapshot.p90 := 110; Snapshot.p95 := 110; Snapshot.p99 := 110;
               Snapshot.sampleCount := 3 |});
    try reflexivity; by_evaluation.
Defined.

(** C9. When the baseline of the metric is not available, or its stdDev is
    0, [EMAStrategy.detect] returns [null] and the strategy, with its map of
    EMA values, is as it was; otherwise the map is updated at the metric's
    name and nowhere else. *)
Theorem ema_state_untouched_without_baseline (host : Host.t) (self : EMAStrategy.t)
    (metric : Metric.t) (bm : t) :
  match getBaseline bm (Metric.name metric) with
  | None => EMAStrategy.detect host self metric bm = (self, None)
  | Some base =>
      if Snapshot.stdDev base =? 0
      then EMAStrategy.detect host self metric bm = (self, None)
      else ∃ newEma,
             EMAStrategy._emaValues (EMAStrategy.detect host self metric bm).1
             = <[Metric.name metric := newEma]> (EMAStrategy._emaValues self)
  end.
Proof.
  unfold EMAStrategy.detect.
  destruct (getBaseline bm (Metric.name metric)) as [base|]; [|done].
  destruct (Snapshot.stdDev base =? 0); [done|].
  eexists. by destruct (_ <=? _).
Qed.

(** *** Edge cases of the two strategies *)

(** X11. With at most one sample of a metric on a manager that started
    empty, neither strategy gives a verdict for it, however short the
    learning period: there is no snapshot, or its [stdDev] is 0; and
    [EMAStrategy.detect] leaves the strategy as it was. *)
Theorem single_sample_gives_no_verdict (host : Host.t) (zscore : ZScoreStrategy.t)
    (ema : EMAStrategy.t) (learningPeriodSeconds : float) (sampleRateHz : option float)
    (calls : list (string * float)) (metric : Metric.t) :
  (calls_of (Metric.name metric) calls ≤ 1)%nat →
  let bm := recordMany (constructor learningPeriodSeconds sampleRateHz) calls in
  ZScoreStrategy.detect host zscore metric bm = None
  ∧ EMAStrategy.detect host ema metric bm = (ema, None).
Proof.
  intros Hcalls bm.
  assert (Hbase : match getBaseline bm (Metric.name metric) with
                  | None => True
                  | Some base => Snapshot.stdDev base = 0
                  end).
  { unfold getBaseline.
    destruct (BaselineFacts.recordMany_lookup
                (constructor learningPeriodSeconds sampleRateHz)
                calls (Metric.name metric)) as [_ Hcount].
    fold bm in Hcount.
    destruct (_baselines bm !! Metric.name metric) as [data|]; [|done].
    destruct (negb (isReady bm (Metric.name metric))); [done|].
    cbn [Snapshot.stdDev]. cbn [default from_option id] in Hcount. rewrite Hcount.
    change (_baselines (constructor learningPeriodSeconds sampleRateHz)) with
      (∅ : gmap string BaselineData.t).
    rewrite lookup_empty. cbn [default from_option].
    destruct (calls_of (Metric.name metric) calls) as [|[|n]]; [done | done | lia]. }
  unfold ZScoreStrategy.detect, EMAStrategy.detect.
  destruct (getBaseline bm (Metric.name metric)) as [base|]; [|done].
  by rewrite Hbase.
Qed.

Lemma single_sample_gives_no_verdict_witness :
  let host := {| Host.toFixed := λ _ _, "0.00"%string; Host.Date_now := 0 |} in
  let metric := {| Metric.name := "fps"; Metric.value := 5; Metric.unit := "fps";
                   Metric.tags := []; Metric.timestamp := 0 |} in
  let bm := recordMany (constructor 0 None) [("fps", 60); ("lag", 2)] in
  is_Some (getBaseline bm "fps")
  ∧ ZScoreStrategy.detect host (ZScoreStrategy.constructor None) metric bm = None
  ∧ EMAStrategy.detect host (EMAStrategy.constructor None None) metric bm
    = (EMAStrategy.constructor None None, None).
Proof.
  cbv zeta. split; [vm_compute; eauto|].
  apply (single_sample_gives_no_verdict _ _ _ 0 None [("fps", 60); ("lag", 2)]
           {| Metric.name := "fps"; Metric.value := 5; Metric.unit := "fps";
              Metric.tags := []; Metric.timestamp := 0 |}).
  vm_compute. lia.
Defined.

(** X12. The score of a verdict of [ZScoreStrategy.detect] never exceeds 1:
    it is at most 1, or it is NaN. *)
Theorem zscore_score_at_most_one (host : Host.t) (self : ZScoreStrategy.t)
    (metric : Metric.t) (bm : t) (ev : Anomaly.event) :
  ZScoreStrategy.detect host self metric bm = Some ev →
  is_nan (Anomaly.score ev) = true ∨ (Anomaly.score ev <=? 1) = true.
Proof.
  unfold ZScoreStrategy.detect.
  destruct (getBaseline bm (Metric.name metric)) as [base|]; [|done].
  destruct (Snapshot.stdDev base =? 0); [done|].
  destruct (abs _ <=? _); [done|]. intros [= <-]. cbn [Anomaly.score].
  by apply FloatOrder.Math_min_at_most.
Qed.

Lemma zscore_score_at_most_one_witness :
  let bm := recordAll (constructor 3 None) "render_time" [90; 110; 100] in
  let host := {| Host.toFixed := λ _ _, "0.00"%string; Host.Date_now := 0 |} in
  let metric := {| Metric.name := "render_time"; Metric.value := 126;
                   Metric.unit := "ms"; Metric.tags := []; Metric.timestamp := 0 |} in
  ∃ ev,
    ZScoreStrategy.detect host (ZScoreStrategy.constructor None) metric bm = Some ev
    ∧ Anomaly.score ev = 0.52
    ∧ (is_nan (Anomaly.score ev) = true ∨ (Anomaly.score ev <=? 1) = true).
Proof.
  cbv zeta. eexists. split; [by_evaluation|]. split; [reflexivity|].
  apply (zscore_score_at_most_one
           {| Host.toFixed := λ _ _, "0.00"%string; Host.Date_now := 0 |}
           (ZScoreStrategy.constructor None)
           {| Metric.name := "render_time"; Metric.value := 126;
              Metric.unit := "ms"; Metric.tags := []; Metric.timestamp := 0 |}
           (recordAll (constructor 3 None) "render_time" [90; 110; 100])).
  by_evaluation.
Defined.

(** X13. The score of a verdict of [EMAStrategy.detect] never exceeds 1: it
    is at most 1, or it is NaN. *)
Theorem ema_score_at_most_one (host : Host.t) (self : EMAStrategy.t)
    (metric : Metric.t) (bm : t) (ev : Anomaly.event) :
  (EMAStrategy.detect host self metric bm).2 = Some ev →
  is_nan (Anomaly.score ev) = true ∨ (Anomaly.score ev <=? 1) = true.
Proof.
  unfold EMAStrategy.detect.
  destruct (getBaseline bm (Metric.name metric)) as [base|]; [|done].
  destruct (Snapshot.stdDev base =? 0); [done|].
  destruct (_ <=? _); [done|]. intros [= <-]. cbn [Anomaly.score].
  by apply FloatOrder.Math_min_at_most.
Qed.

Lemma ema_score_at_most_one_witness :
  let bm := recordAll (constructor 3 None) "heap_used" [90; 110; 100] in
  let host := {| Host.toFixed := λ _ _, "0.00"%string; Host.Date_now := 0 |} in
  let metric := {| Metric.name := "heap_used"; Metric.value := 200;
                   Metric.unit := "bytes"; Metric.tags := []; Metric.timestamp := 0 |} in
  ∃ ev,
    (EMAStrategy.detect host (EMAStrategy.constructor (Some 0.5) None) metric bm).2
    = Some ev
    ∧ Anomaly.score ev = 1
    ∧ (is_nan (Anomaly.score ev) = true ∨ (Anomaly.score ev <=? 1) = true).
Proof.
  cbv zeta. eexists. split; [by_evaluation|]. split; [reflexivity|].
  apply (ema_score_at_most_one
           {| Host.toFixed := λ _ _, "0.00"%string; Host.Date_now := 0 |}
           (EMAStrategy.constructor (Some 0.5) None)
           {| Metric.name := "heap_used"; Metric.value := 200;
              Metric.unit := "bytes"; Metric.tags := []; Metric.timestamp := 0 |}
           (recordAll (constructor 3 None) "heap_used" [90; 110; 100])).
  by_evaluation.
Defined.

(** X14. A finite value that equals the mean of the baseline is never a
    spike, for any threshold that is not negative and any stdDev other than
    NaN: its z-score is 0. *)
Theorem zscore_value_at_mean_is_no_spike (host : Host.t) (self : ZScoreStrategy.t)
    (metric : Metric.t) (bm : t) (base : Snapshot.t) :
  getBaseline bm (Metric.name metric) = Some base →
  Snapshot.mean base = Metric.value metric →
  is_finite (Metric.value metric) = true →
  is_nan (Snapshot.stdDev base) = false →
  (0 <=? ZScoreStrategy.threshold self) = true →
  ZScoreStrategy.detect host self metric bm = None.
Proof.
  intros Hbase Hmean Hfin Hdev Hthreshold. unfold ZScoreStrategy.detect.
  rewrite Hbase, Hmean. destruct (Snapshot.stdDev base =? 0) eqn:Hzero; [done|].
  by rewrite FloatOrder.sub_diag, FloatOrder.abs_zero_div, Hthreshold.
Qed.

Lemma zscore_value_at_mean_is_no_spike_witness :
  let bm := recordAll (constructor 3 None) "render_time" [90; 110; 100] in
  let host := {| Host.toFixed := λ _ _, "0.00"%string; Host.Date_now := 0 |} in
  let metric := {| Metric.name := "render_time"; Metric.value := 100;
                   Metric.unit := "ms"; Metric.tags := []; Metric.timestamp := 0 |} in
  ZScoreStrategy.detect host (ZScoreStrategy.constructor (Some 0)) metric bm = None.
Proof.
  cbv zeta.
  apply (zscore_value_at_mean_is_no_spike _ (ZScoreStrategy.constructor (Some 0))
           {| Metric.name := "render_time"; Metric.value := 100;
              Metric.unit := "ms"; Metric.tags := []; Metric.timestamp := 0 |}
           (recordAll (constructor 3 None) "render_time" [90; 110; 100])
           {| Snapshot.mean := 100; Snapshot.stdDev := 10; Snapshot.variance := 100;
              Snapshot.min := 90; Snapshot.max := 110; Snapshot.p50 := 100;
              Snapshot.p90 := 110; Snapshot.p95 := 110; Snapshot.p99 := 110;
              Snapshot.sampleCount := 3 |});
    by_evaluation.
Defined.

(** X15. NaN is always reported: when the value of the metric, or the mean
    or the stdDev of its snapshot, is NaN (and the stdDev is not 0),
    [ZScoreStrategy.detect] returns a spike of severity warning whose score
    is NaN, whatever the threshold. *)
Theorem zscore_nan_is_a_warning (host : Host.t) (self : ZScoreStrategy.t)
    (metric : Metric.t) (bm : t) (base : Snapshot.t) :
  getBaseline bm (Metric.name metric) = Some base →
  (Snapshot.stdDev base =? 0) = false →
  is_nan (Metric.value metric) || is_nan (Snapshot.mean base)
  || is_nan (Snapshot.stdDev base) = true →
  ∃ ev,
    ZScoreStrategy.detect host self metric bm = Some ev
    ∧ Anomaly.type_ ev = Anomaly.spike
    ∧ Anomaly.severity_ ev = Anomaly.warning
    ∧ Anomaly.score ev = nan.
Proof.
  intros Hbase Hzero Hnan. unfold ZScoreStrategy.detect. rewrite Hbase, Hzero.
  assert (Hz : (Metric.value metric - Snapshot.mean base) / Snapshot.stdDev base = nan).
  { apply orb_true_iff in Hnan as [[Hv|Hm]%orb_true_iff|Hs].
    - by rewrite (FloatOrder.nan_unique _ Hv), FloatOrder.sub_nan_l, FloatOrder.div_nan_l.
    - by rewrite (FloatOrder.nan_unique _ Hm), FloatOrder.sub_nan_r, FloatOrder.div_nan_l.
    - by rewrite (FloatOrder.nan_unique _ Hs), FloatOrder.div_nan_r. }
  rewrite Hz. change (abs nan) with nan. rewrite FloatOrder.leb_nan_l.
  unfold Num.gtb. rewrite FloatOrder.ltb_nan_r.
  eexists. split; [done|]. cbn. rewrite FloatOrder.div_nan_l.
  split; [done|]. split; [done|]. by apply FloatOrder.Math_min_nan; right.
Qed.

Lemma zscore_nan_is_a_warning_witness :
  let bm := recordAll (constructor 3 None) "render_time" [90; 110; 100] in
  let host := {| Host.toFixed := λ _ _, "0.00"%string; Host.Date_now := 0 |} in
  let metric := {| Metric.name := "render_time"; Metric.value := nan;
                   Metric.unit := "ms"; Metric.tags := []; Metric.timestamp := 0 |} in
  ∃ ev,
    ZScoreStrategy.detect host (ZScoreStrategy.constructor None) metric bm = Some ev
    ∧ Anomaly.type_ ev = Anomaly.spike
    ∧ Anomaly.severity_ ev = Anomaly.warning
    ∧ Anomaly.score ev = nan.
Proof.
  cbv zeta.
  apply (zscore_nan_is_a_warning _ (ZScoreStrategy.constructor None)
           {| Metric.name := "render_time"; Metric.value := nan;
              Metric.unit := "ms"; Metric.tags := []; Metric.timestamp := 0 |}
           (recordAll (constructor 3 None) "render_time" [90; 110; 100])
           {| Snapshot.mean := 100; Snapshot.stdDev := 10; Snapshot.variance := 100;
              Snapshot.min := 90; Snapshot.max := 110; Snapshot.p50 := 100;
              Snapshot.p90 := 110; Snapshot.p95 := 110; Snapshot.p99 := 110;
              Snapshot.sampleCount := 3 |});
    by_evaluation.
Defined.

(** X16. NaN stays in the trend: when the value of the metric is NaN, or the
    EMA stored for it is, [EMAStrategy.detect] (on a snapshot whose stdDev
    is not 0) stores NaN as the new EMA and returns a drift of severity
    warning whose score is NaN; so it does on every later call for the
    metric. *)
Theorem ema_nan_sticks (host : Host.t) (self : EMAStrategy.t)
    (metric : Metric.t) (bm : t) (base : Snapshot.t) :
  getBaseline bm (Metric.name metric) = Some base →
  (Snapshot.stdDev base =? 0) = false →
  is_nan (Metric.value metric) = true
  ∨ EMAStrategy._emaValues self !! Metric.name metric = Some nan →
  let detected := EMAStrategy.detect host self metric bm in
  EMAStrategy._emaValues detected.1 !! Metric.name metric = Some nan
  ∧ ∃ ev,
      detected.2 = Some ev
      ∧ Anomaly.type_ ev = Anomaly.drift
      ∧ Anomaly.severity_ ev = Anomaly.warning
      ∧ Anomaly.score ev = nan.
Proof.
  intros Hbase Hzero Hnan detected. unfold detected, EMAStrategy.detect.
  rewrite Hbase, Hzero.
  assert (Hema : EMAStrategy.alpha self * Metric.value metric
                 + (1 - EMAStrategy.alpha self)
                   * default (Snapshot.mean base)
                       (EMAStrategy._emaValues self !! Metric.name metric) = nan).
  { destruct Hnan as [Hv|Hprev].
    - by rewrite (FloatOrder.nan_unique _ Hv), FloatOrder.mul_nan_r, FloatOrder.add_nan_l.
    - rewrite Hprev. cbn [default from_option].
      by rewrite FloatOrder.mul_nan_r, FloatOrder.add_nan_r. }
  cbn zeta. rewrite Hema, FloatOrder.sub_nan_r. change (abs nan) with nan.
  rewrite FloatOrder.div_nan_l, FloatOrder.leb_nan_l.
  cbn [fst snd EMAStrategy._emaValues]. rewrite lookup_insert_eq.
  split; [done|]. eexists. split; [done|]. cbn.
  unfold Num.gtb. rewrite FloatOrder.ltb_nan_r, FloatOrder.div_nan_l.
  split; [done|]. split; [done|]. by apply FloatOrder.Math_min_nan; right.
Qed.

Lemma ema_nan_sticks_witness :
  let bm := recordAll (constructor 3 None) "heap_used" [90; 110; 100] in
  let host := {| Host.toFixed := λ _ _, "0.00"%string; Host.Date_now := 0 |} in
  let sample v := {| Metric.name := "heap_used"; Metric.value := v;
                     Metric.unit := "bytes"; Metric.tags := [];
                     Metric.timestamp := 0 |} in
  let first := EMAStrategy.detect host (EMAStrategy.constructor None None)
                 (sample nan) bm in
  let second := EMAStrategy.detect host first.1 (sample 100) bm in
  EMAStrategy._emaValues first.1 !! "heap_used" = Some nan
  ∧ EMAStrategy._emaValues second.1 !! "heap_used" = Some nan
  ∧ ∃ ev,
      second.2 = Some ev
      ∧ Anomaly.type_ ev = Anomaly.drift
      ∧ Anomaly.severity_ ev = Anomaly.warning
      ∧ Anomaly.score ev = nan.
Proof.
  cbv zeta. split; [by_evaluation|].
  apply (ema_nan_sticks
           {| Host.toFixed := λ _ _, "0.00"%string; Host.Date_now := 0 |}
           (EMAStrategy.detect
              {| Host.toFixed := λ _ _, "0.00"%string; Host.Date_now := 0 |}
              (EMAStrategy.constructor None None)
              {| Metric.name := "heap_used"; Metric.value := nan;
                 Metric.unit := "bytes"; Metric.tags := []; Metric.timestamp := 0 |}
              (recordAll (constructor 3 None) "heap_used" [90; 110; 100])).1
           {| Metric.name := "heap_used"; Metric.value := 100;
              Metric.unit := "bytes"; Metric.tags := []; Metric.timestamp := 0 |}
           (recordAll (constructor 3 None) "heap_used" [90; 110; 100])
           {| Snapshot.mean := 100; Snapshot.stdDev := 10; Snapshot.variance := 100;
              Snapshot.min := 90; Snapshot.max := 110; Snapshot.p50 := 100;
              Snapshot.p90 := 110; Snapshot.p95 := 110; Snapshot.p99 := 110;
              Snapshot.sampleCount := 3 |}).
  - by_evaluation.
  - by_evaluation.
  - right. by_evaluation.
Defined.

End StrategyFacts.

(** ** Event bus *)

Module EventBusFacts.
Import EventBus.

Section Facts.
Context {P E App : Type}.
Variable call : listener → event P → world P E App → world P E App * option E.

Lemma set_values_app (s1 s2 : list (option listener)) :
  set_values (s1 ++ s2) = set_values s1 ++ set_values s2.
Proof. unfold set_values. apply omap_app. Qed.

Lemma elem_of_set_values (s : list (option listener)) l :
  l ∈ set_values s ↔ Some l ∈ s.
Proof.
  unfold set_values. rewrite list_elem_of_omap. split.
  - intros (x & Hx & Hid). cbn in Hid. by subst.
  - intros Hin. by exists (Some l).
Qed.

(** [add] keeps a listener that is already in the set where it is, and puts
    a new one last. *)
Lemma set_values_add (s : list (option listener)) l :
  set_values (set_add s l)
  = if decide (l ∈ set_values s) then set_values s else set_values s ++ [l].
Proof.
  unfold set_add. destruct (decide (Some l ∈ s)) as [Hin|Hin].
  - rewrite decide_True; [done | by apply elem_of_set_values].
  - rewrite decide_False by (by rewrite elem_of_set_values).
    by rewrite set_values_app.
Qed.

Lemma call_caught_later_entries type ev w l s i :
  later_entries_kept call type →
  _listeners (bus w) !! type = Some s →
  s !! i = Some (Some l) →
  ∃ s', _listeners (bus (call_caught call ev w l)) !! type = Some s'
        ∧ drop (S i) s' = drop (S i) s.
Proof.
  intros Hkept Hs Hi. unfold call_caught.
  destruct (Hkept l ev w s i Hs Hi) as (s' & Hs' & Hdrop).
  destruct (call l ev w) as [w' [e|]]; eauto.
Qed.

(** The loop calls the entries of the set from [i] on, one after the other,
    when the entries still to come stay as they were at the start ([s0]). *)
Lemma dispatch_later_entries fuel ev i w s0 s :
  later_entries_kept call (type_ ev) →
  _listeners (bus w) !! type_ ev = Some s →
  drop i s = drop i s0 →
  length s0 ≤ fuel + i →
  dispatch call fuel ev i w = foldl (call_caught call ev) w (set_values (drop i s0)).
Proof.
  intros Hkept. revert i w s.
  induction fuel as [|fuel IH]; intros i w s Hs Hdrop Hfuel.
  - by rewrite (drop_ge s0) by lia.
  - assert (Hi : s !! i = s0 !! i).
    { pose proof (lookup_drop s i 0) as H1. pose proof (lookup_drop s0 i 0) as H2.
      rewrite Nat.add_0_r in H1, H2. by rewrite <- H1, <- H2, Hdrop. }
    assert (Hnext : drop (S i) s = drop (S i) s0).
    { pose proof (drop_drop s 1 i) as H1. pose proof (drop_drop s0 1 i) as H2.
      rewrite Nat.add_1_r in H1, H2. by rewrite <- H1, <- H2, Hdrop. }
    cbn [dispatch]. rewrite Hs. cbn [mbind option_bind]. rewrite Hi.
    destruct (s0 !! i) as [[l|]|] eqn:Hi0.
    + rewrite (drop_S _ _ _ Hi0). cbn.
      destruct (call_caught_later_entries (type_ ev) ev w l s i Hkept Hs)
        as (s' & Hs' & Hdrop'); [congruence|].
      apply (IH _ _ s'); [done | congruence | lia].
    + rewrite (drop_S _ _ _ Hi0). cbn. apply (IH _ _ s); [done | done | lia].
    + by rewrite (drop_ge s0) by (by apply lookup_ge_None).
Qed.





End Facts.





(** *** Unsubscribing, [once] and the history *)

Section MoreFacts.
Context {P E App : Type}.
Variable call : listener → event P → world P E App → world P E App * option E.

Lemma filter_ne_not_elem (l : listener) (xs : list listener) :
  l ∉ xs → filter (λ x, x ≠ l) xs = xs.
Proof.
  induction xs as [|x xs IH]; [done|]. intros [Hne Hxs]%not_elem_of_cons.
  rewrite filter_cons, decide_True by done. by rewrite IH.
Qed.

(** [delete] takes the listener out of the set and keeps the others in
    their order. *)
Lemma set_values_delete (s : list (option listener)) l :
  NoDup (set_values s) →
  set_values (set_delete s l) = filter (λ x, x ≠ l) (set_values s).
Proof.
  induction s as [|[x|] s IH]; cbn [set_delete]; intros Hnd; [done| |].
  - change (set_values (Some x :: s)) with (x :: set_values s) in *.
    apply NoDup_cons in Hnd as [Hx Hnd].
    destruct (decide (Some x = Some l)) as [[= ->]|Hne].
    + change (set_values (None :: s)) with (set_values s).
      rewrite filter_cons, decide_False by (by intros ?).
      by rewrite filter_ne_not_elem.
    + change (set_values (Some x :: set_delete s l))
        with (x :: set_values (set_delete s l)).
      rewrite filter_cons, decide_True by congruence. by rewrite IH.
  - rewrite decide_False by done.
    change (set_values (None :: set_delete s l)) with (set_values (set_delete s l)).
    by apply IH.
Qed.

Lemma set_add_NoDup (s : list (option listener)) l :
  NoDup (set_values s) → NoDup (set_values (set_add s l)).
Proof.
  intros Hnd. rewrite set_values_add. case_decide as Hin; [done|].
  apply NoDup_app. split; [done|]. split; [|apply NoDup_singleton].
  by intros x Hx ->%list_elem_of_singleton.
Qed.

Lemma listeners_of_on (b : t P) type l type' :
  listeners_of (on b type l) type'
  = if decide (type' = type)
    then set_values (set_add (default [] (_listeners b !! type)) l)
    else listeners_of b type'.
Proof.
  unfold listeners_of, on. cbn [_listeners]. case_decide as Htype.
  - subst. by rewrite lookup_insert_eq.
  - by rewrite lookup_insert_ne.
Qed.

Lemma listeners_of_off (b : t P) type l type' :
  listeners_of (off b type l) type'
  = if decide (type' = type)
    then set_values (set_delete (default [] (_listeners b !! type)) l)
    else listeners_of b type'.
Proof.
  unfold listeners_of, off.
  destruct (_listeners b !! type) as [s|] eqn:Hs; cbn [_listeners].
  - case_decide as Htype.
    + subst. by rewrite lookup_insert_eq.
    + by rewrite lookup_insert_ne.
  - case_decide as Htype; [|done]. subst. by rewrite Hs.
Qed.

(** No listener is twice in a set. *)
Lemma subscriptions_NoDup (ops : list subscription) type :
  NoDup (listeners_of (subscriptions (P:=P) ops) type).
Proof.
  revert type. induction ops as [|op ops IH] using rev_ind; intros type.
  - unfold listeners_of, subscriptions. cbn. rewrite lookup_empty. apply NoDup_nil_2.
  - unfold subscriptions. rewrite foldl_app. cbn [foldl].
    fold (subscriptions (P:=P) ops). destruct op as [type' l|type' l].
    + rewrite listeners_of_on. case_decide; [|done]. apply set_add_NoDup, IH.
    + rewrite listeners_of_off. case_decide; [|done].
      rewrite set_values_delete by apply IH. apply NoDup_filter, IH.
Qed.

(** X17. On a bus built by any run of subscriptions and unsubscriptions,
    the function that [on(type, l)] returned removes [l] from the listeners
    of [type] and nothing else: the other listeners of [type] stay, in their
    order, and so do the listeners of every other type.  Calling it for a
    listener or a type that is not subscribed changes nothing. *)
Theorem unsubscribe_removes_only_the_listener (ops : list subscription)
    (type : string) (l : listener) (type' : string) :
  let b := subscriptions (P:=P) ops in
  listeners_of (off b type l) type'
  = if decide (type' = type)
    then filter (λ x, x ≠ l) (listeners_of b type)
    else listeners_of b type'.
Proof.
  intros b. rewrite listeners_of_off. case_decide; [|done].
  apply set_values_delete, (subscriptions_NoDup ops type).
Qed.

Lemma once_later_entries_kept type wrapper l :
  listeners_kept call → later_entries_kept (call_with_once call type wrapper l) type.
Proof.
  intros Hkept l' ev w s i Hs Hi. unfold call_with_once.
  case_decide as Hwrap.
  - subst l'. rewrite Hkept. unfold off. cbn [bus with_bus]. rewrite Hs.
    cbn [_listeners]. rewrite lookup_insert_eq. eexists. split; [done|].
    clear -Hi. revert i Hi. induction s as [|x s IH]; intros i Hi; [done|].
    cbn [set_delete]. destruct (decide (x = Some wrapper)) as [->|Hx]; [done|].
    destruct i as [|i]; [cbn in Hi; congruence|]. cbn. by apply IH.
  - rewrite Hkept. eauto.
Qed.

Lemma set_delete_last (s : list (option listener)) l :
  Some l ∉ s → set_delete (s ++ [Some l]) l = s ++ [None].
Proof.
  induction s as [|x s IH]; cbn.
  - intros _. by rewrite decide_True.
  - intros [Hne Hs]%not_elem_of_cons. rewrite decide_False by done. by rewrite IH.
Qed.

Lemma call_caught_listeners ev w l :
  listeners_kept call →
  _listeners (bus (call_caught call ev w l)) = _listeners (bus w).
Proof.
  intros Hkept. unfold call_caught. specialize (Hkept l ev w).
  by destruct (call l ev w) as [w' [e|]].
Qed.

Lemma foldl_call_caught_listeners ev w ls :
  listeners_kept call →
  _listeners (bus (foldl (call_caught call ev) w ls)) = _listeners (bus w).
Proof.
  intros Hkept. induction ls as [|l ls IH] using rev_ind; [done|].
  rewrite foldl_app. cbn [foldl]. by rewrite call_caught_listeners.
Qed.

Lemma foldl_call_caught_once ev w ls type wrapper l :
  wrapper ∉ ls →
  foldl (call_caught (call_with_once call type wrapper l) ev) w ls
  = foldl (call_caught call ev) w ls.
Proof.
  revert w. induction ls as [|x ls IH]; intros w; [done|].
  intros [Hne Hls]%not_elem_of_cons. cbn [foldl]. rewrite IH by done.
  f_equal. unfold call_caught, call_with_once. by rewrite decide_False by done.
Qed.

(** X18. A listener subscribed with [once] is called once.  When the
    listeners neither subscribe nor unsubscribe, the first [emit] of the type
    calls the listeners that were subscribed before, then unsubscribes the
    wrapper and calls the listener, which runs (and may throw) on a bus from
    which the wrapper is gone; after that [emit] the listeners of the type
    are those that were there before [once], so that no later [emit] calls
    the listener again. *)
Theorem once_listener_is_called_once (fuel : nat) (amb : ambient)
    (type source : string) (payload : P) (w : world P E App) (wrapper l : listener) :
  listeners_kept call →
  wrapper ∉ listeners_of (bus w) type →
  length (default [] (_listeners (bus w) !! type)) < fuel →
  let ev := event_of amb type source payload in
  let history := _history (bus w) ++ [ev] in
  let w0 := with_bus w
              {| _listeners := _listeners (once (bus w) type wrapper);
                 _history := if decide (_maxHistory (bus w) < length history)
                             then drop 1 history else history;
                 _maxHistory := _maxHistory (bus w) |} in
  let others := foldl (call_caught call ev) w0 (listeners_of (bus w) type) in
  let w1 := emit (call_with_once call type wrapper l) fuel amb type source payload
              (with_bus w (once (bus w) type wrapper)) in
  w1 = call_caught call ev (with_bus others (off (bus others) type wrapper)) l
  ∧ listeners_of (bus w1) type = listeners_of (bus w) type.
Proof.
  intros Hkept Hfresh Hfuel ev history w0 others w1.
  set (s := default [] (_listeners (bus w) !! type)) in *.
  assert (Hnotin : Some wrapper ∉ s).
  { intros Hin. apply Hfresh. by apply elem_of_set_values. }
  assert (Hset : _listeners (bus w0) !! type = Some (s ++ [Some wrapper])).
  { unfold w0, once, on. cbn [bus with_bus _listeners]. rewrite lookup_insert_eq.
    fold s. unfold set_add. by rewrite decide_False. }
  assert (Hw1 : w1 = call_caught call ev
                       (with_bus others (off (bus others) type wrapper)) l).
  { unfold w1.
    change (emit _ fuel amb type source payload _)
      with (match _listeners (bus w0) !! type with
            | None => w0
            | Some _ => dispatch (call_with_once call type wrapper l) fuel ev 0 w0
            end).
    rewrite Hset.
    rewrite (dispatch_later_entries _ fuel ev 0 w0 (s ++ [Some wrapper])
               (s ++ [Some wrapper]));
      [| by apply once_later_entries_kept | done | done
       | rewrite length_app; cbn; lia].
    rewrite drop_0, set_values_app. change (set_values [Some wrapper]) with [wrapper].
    rewrite foldl_app. cbn [foldl].
    rewrite foldl_call_caught_once by done.
    unfold call_caught at 1. unfold call_with_once. by rewrite decide_True by done. }
  split; [done|]. rewrite Hw1. unfold listeners_of.
  rewrite call_caught_listeners by done. cbn [bus with_bus].
  assert (Hothers : _listeners (bus others) !! type = Some (s ++ [Some wrapper])).
  { unfold others. by rewrite foldl_call_caught_listeners. }
  unfold off. rewrite Hothers. cbn [_listeners]. rewrite lookup_insert_eq.
  cbn [default from_option id]. rewrite set_delete_last by done.
  unfold id. rewrite set_values_app. change (set_values [None]) with (@nil listener).
  by rewrite app_nil_r.
Qed.

Lemma call_caught_history ev w l :
  history_kept call →
  _history (bus (call_caught call ev w l)) = _history (bus w)
  ∧ _maxHistory (bus (call_caught call ev w l)) = _maxHistory (bus w).
Proof.
  intros Hkept. unfold call_caught. specialize (Hkept l ev w).
  by destruct (call l ev w) as [w' [e|]].
Qed.

Lemma dispatch_history fuel ev i w :
  history_kept call →
  _history (bus (dispatch call fuel ev i w)) = _history (bus w)
  ∧ _maxHistory (bus (dispatch call fuel ev i w)) = _maxHistory (bus w).
Proof.
  intros Hkept. revert i w. induction fuel as [|fuel IH]; intros i w; [done|].
  cbn [dispatch]. destruct (_ ≫= _) as [[l|]|]; [|apply IH|done].
  destruct (IH (S i) (call_caught call ev w l)) as [-> ->].
  by apply call_caught_history.
Qed.

(** One [emit]: the event goes last, and the oldest event goes when the
    history has grown beyond its bound. *)
Lemma emit_history fuel amb type source payload w :
  history_kept call →
  let history := _history (bus w) ++ [event_of amb type source payload] in
  _history (bus (emit call fuel amb type source payload w))
  = (if decide (_maxHistory (bus w) < length history) then drop 1 history else history)
  ∧ _maxHistory (bus (emit call fuel amb type source payload w)) = _maxHistory (bus w).
Proof.
  intros Hkept history. unfold emit. fold (event_of amb type source payload).
  fold history. cbn [bus with_bus _listeners].
  destruct (_listeners (bus w) !! type); [|done].
  by destruct (dispatch_history fuel (event_of amb type source payload) 0
       (with_bus w {| _listeners := _listeners (bus w);
                      _history := if decide (_maxHistory (bus w) < length history)
                                  then drop 1 history else history;
                      _maxHistory := _maxHistory (bus w) |}) Hkept) as [-> ->].
Qed.

(** X19. The history is a window on the events: when the listeners leave
    the history alone and it is within its bound ([_maxHistory], 1000 on a
    new bus), then after any run of [emit] calls, of any types and with or
    without listeners, it holds the events that were in it followed by the
    emitted ones, in order, cut down to the last [_maxHistory] of them. *)
Theorem history_holds_the_latest_events (fuel : nat) (w : world P E App)
    (calls : list (ambient * string * string * P)) :
  history_kept call →
  length (_history (bus w)) ≤ _maxHistory (bus w) →
  let emitted := (λ '(amb, type, source, payload), event_of amb type source payload)
                   <$> calls in
  let all := _history (bus w) ++ emitted in
  _history (bus (emit_each call fuel w calls))
  = drop (length all - _maxHistory (bus w)) all
  ∧ _maxHistory (bus (emit_each call fuel w calls)) = _maxHistory (bus w).
Proof.
  intros Hkept Hbound. cbv zeta.
  induction calls as [|[[[amb type] source] payload] calls [IHh IHm]] using rev_ind.
  - cbn. rewrite app_nil_r. split; [|done].
    by replace (length (_history (bus w)) - _maxHistory (bus w)) with 0 by lia.
  - unfold emit_each in *. rewrite foldl_app. cbn [foldl].
    set (w' := foldl _ w calls) in *.
    destruct (emit_history fuel amb type source payload w' Hkept) as [-> ->].
    rewrite IHm. split; [|done]. rewrite IHh, fmap_app. cbn [fmap list_fmap].
    set (M := _maxHistory (bus w)).
    set (evs := (λ '(amb, type, source, payload), event_of amb type source payload)
                  <$> calls).
    set (ev := event_of amb type source payload).
    rewrite app_assoc. set (all := _history (bus w) ++ evs).
    rewrite !length_app, length_drop. cbn [length].
    case_decide as Hfull.
    + rewrite <- drop_app_le by lia. rewrite drop_drop. f_equal. lia.
    + rewrite <- drop_app_le by lia. f_equal. lia.
Qed.

End MoreFacts.

Lemma plain_listener_keeps_listeners : listeners_kept plain_listener.
Proof. by intros l ev w. Qed.

Lemma logging_listener_keeps_history : history_kept logging_listener.
Proof.
  intros l ev w. unfold logging_listener. cbn [fst bus].
  case_decide; [|done]. unfold off. by destruct (_listeners (bus w) !! type_ ev).
Qed.

Lemma once_listener_is_called_once_witness :
  let amb := {| performance_now := 12.5; Date_now := 1700000000000;
                getSessionId := "s-1"; location_href := "https://app.example/" |} in
  let w := {| bus := on constructor "anomaly:detected" 3; console := []; app := [] |} in
  let call := call_with_once plain_listener "anomaly:detected" 7 1 in
  let w1 := emit call 3 amb "anomaly:detected" "AnomalyEngine" 0
              (with_bus w (once (bus w) "anomaly:detected" 7)) in
  let w2 := emit call 3 amb "anomaly:detected" "AnomalyEngine" 1 w1 in
  app w1 = [3; 1]
  ∧ console w1 = [("anomaly:detected"%string, "boom"%string)]
  ∧ listeners_of (bus w1) "anomaly:detected" = [3]
  ∧ app w2 = [3; 1; 3].
Proof.
  cbv zeta.
  destruct (once_listener_is_called_once plain_listener 3
              {| performance_now := 12.5; Date_now := 1700000000000;
                 getSessionId := "s-1"; location_href := "https://app.example/" |}
              "anomaly:detected" "AnomalyEngine" 0
              {| bus := on constructor "anomaly:detected" 3; console := []; app := [] |}
              7 1 plain_listener_keeps_listeners)
    as [Hemit Hlisteners].
  - vm_compute. by intros ?%list_elem_of_singleton.
  - vm_compute. lia.
  - cbv zeta in Hemit, Hlisteners. rewrite Hemit.
    split; [by_evaluation|]. split; [by_evaluation|]. split; by_evaluation.
Defined.

Lemma history_holds_the_latest_events_witness :
  let amb t := {| performance_now := t; Date_now := 1700000000000;
                  getSessionId := "s-1"; location_href := "https://app.example/" |} in
  let b := {| _listeners := _listeners (on (constructor (P:=nat)) "metric:collected" 1);
              _history := []; _maxHistory := 2 |} in
  let w := {| bus := b; console := []; app := [] |} in
  let calls := [(amb 1%float, "metric:collected", "CpuCollector", 60);
                (amb 2%float, "lifecycle:event", "Lyte", 0);
                (amb 3%float, "metric:collected", "CpuCollector", 58)] in
  (payload <$> _history (bus (emit_each logging_listener 3 w calls)) = [0; 58])
  ∧ _history (bus (emit_each logging_listener 3 w calls))
    = drop 1 ((λ '(amb, type, source, payload), event_of amb type source payload)
                <$> calls).
Proof.
  cbv zeta. split; [by_evaluation|].
  refine (proj1 (history_holds_the_latest_events logging_listener 3
            {| bus := {| _listeners :=
                           _listeners (on (constructor (P:=nat)) "metric:collected" 1);
                         _history := []; _maxHistory := 2 |};
               console := []; app := [] |}
            _ logging_listener_keeps_history _)).
  vm_compute. lia.
Defined.

End EventBusFacts.

(** ** Configuration *)

Module ConfigFacts.
Import Config.

Lemma merge_loop_lookup (l : list (string * value)) (acc : gmap string value) key :
  NoDup l.*1 →
  foldl (λ merged '(key, v), assign merged key (merged_value key v)) acc l !! key
  = if decide (key = "__proto__") then acc !! key
    else match (list_to_map l : gmap string value) !! key with
         | Some v => Some (merged_value key v)
         | None => acc !! key
         end.
Proof.
  revert acc. induction l as [|[k v] l IH]; intros acc Hnd.
  - cbn. by case_decide.
  - cbn in Hnd. apply NoDup_cons in Hnd as [Hk Hnd]. cbn [foldl].
    rewrite IH by done. cbn [list_to_map foldr uncurry fst snd]. unfold assign.
    destruct (decide (key = "__proto__")) as [->|Hproto].
    { destruct (decide (k = "__proto__")); [done|]. by rewrite lookup_insert_ne. }
    destruct (decide (k = key)) as [->|Hne].
    + rewrite lookup_insert_eq, (not_elem_of_list_to_map_1 l key Hk).
      by rewrite decide_False, lookup_insert_eq.
    + rewrite (lookup_insert_ne (list_to_map l)) by done.
      destruct (list_to_map l !! key); [done|].
      destruct (decide (k = "__proto__")); [done|]. by rewrite lookup_insert_ne.
Qed.

(** The properties of the merged configuration. *)
Lemma mergeConfig_lookup (userConfig : value) (merged : gmap string value) key :
  mergeConfig userConfig = Some merged →
  merged !! key
  = if decide (key = "__proto__") then None
    else match own_properties userConfig !! key with
         | Some v => Some (merged_value key v)
         | None => DEFAULT_CONFIG !! key
         end.
Proof.
  intros Hmerged.
  assert (Hfold : merged
            = foldl (λ merged '(key, v), assign merged key (merged_value key v))
                DEFAULT_CONFIG (map_to_list (own_properties userConfig))).
  { by destruct userConfig; cbn in Hmerged; simplify_eq. }
  rewrite Hfold, merge_loop_lookup by apply NoDup_fst_map_to_list.
  rewrite list_to_map_to_list. case_decide as Hproto; [|done].
  by subst key.
Qed.

(** X20. [mergeConfig] throws for [undefined] and for [null], and for
    nothing else.  In the configuration it returns, a key that the user's
    configuration does not have keeps its default; a key whose value there is
    an object (not [null], not an array) has the properties of the default
    overlaid with the user's, one level deep: an object further down
    replaces its default as a whole; and any other value, [null] and
    [undefined] included, replaces the default. *)
Theorem mergeConfig_merges_one_level (userConfig : value) (key : string) :
  (mergeConfig userConfig = None ↔ userConfig = VUndefined ∨ userConfig = VNull)
  ∧ match mergeConfig userConfig with
    | None => True
    | Some merged =>
        merged !! key
        = if decide (key = "__proto__") then None
          else match own_properties userConfig !! key with
               | None => DEFAULT_CONFIG !! key
               | Some (VObj props) =>
                   Some (VObj (props ∪ own_properties (get DEFAULT_CONFIG key)))
               | Some v => Some v
               end
    end.
Proof.
  split.
  - split.
    + destruct userConfig; cbn; intros Hnone; try done; auto.
    + by intros [-> | ->].
  - destruct (mergeConfig userConfig) as [merged|] eqn:Hmerged; [|done].
    rewrite (mergeConfig_lookup _ _ key Hmerged). case_decide; [done|].
    by destruct (own_properties userConfig !! key) as [[]|].
Qed.

(** X21. Merging is idempotent: a configuration that [mergeConfig]
    returned is returned unchanged when it is merged again. *)
Theorem mergeConfig_is_idempotent (userConfig : value) (merged : gmap string value) :
  mergeConfig userConfig = Some merged →
  mergeConfig (VObj merged) = Some merged.
Proof.
  intros Hmerged.
  destruct (mergeConfig (VObj merged)) as [again|] eqn:Hagain; [|done].
  f_equal. apply map_eq. intros key.
  rewrite (mergeConfig_lookup _ _ key Hagain), (mergeConfig_lookup _ _ key Hmerged).
  case_decide as Hproto; [done|]. cbn [own_properties].
  rewrite (mergeConfig_lookup _ _ key Hmerged), decide_False by done.
  destruct (own_properties userConfig !! key) as [v|].
  - f_equal. unfold merged_value. destruct (mergeable v) eqn:Hv; [|by rewrite Hv].
    cbn [mergeable own_properties]. f_equal.
    by rewrite <- (assoc_L (∪)), (idemp_L (∪)).
  - destruct (DEFAULT_CONFIG !! key) as [d|] eqn:Hd; [|done]. f_equal.
    unfold merged_value, get. rewrite Hd. cbn [default from_option id].
    destruct d; try done. cbn [mergeable own_properties]. f_equal. unfold id.
    apply (idemp_L (∪)).
Qed.

Lemma mergeConfig_is_idempotent_witness :
  let userConfig := object [("debug", VBool true);
                            ("transport", object [("batchSize", VNum 5)])] in
  ∃ merged,
    mergeConfig userConfig = Some merged
    ∧ merged !! "debug" = Some (VBool true)
    ∧ (merged !! "transport" ≫= λ v, own_properties v !! "batchSize") = Some (VNum 5)
    ∧ (merged !! "transport" ≫= λ v, own_properties v !! "retryAttempts")
      = Some (VNum 3)
    ∧ mergeConfig (VObj merged) = Some merged.
Proof.
  cbv zeta. eexists. split; [reflexivity|].
  split; [by_evaluation|]. split; [by_evaluation|]. split; [by_evaluation|].
  apply (mergeConfig_is_idempotent
           (object [("debug", VBool true);
                    ("transport", object [("batchSize", VNum 5)])])).
  reflexivity.
Defined.

End ConfigFacts.

(** ** Timer *)

Module TimerFacts.
Import Timer.

Lemma markAll_snoc self marks m :
  markAll self (marks ++ [m]) = mark (markAll self marks) m.1 m.2.
Proof. unfold markAll. by rewrite foldl_app. Qed.

(** A mark holds the reading of the last [mark] call for its label. *)
Lemma markAll_lookup self marks label :
  _marks (markAll self marks) !! label
  = match last (filter (λ m, m.1 = label) marks) with
    | Some m => Some m.2
    | None => _marks self !! label
    end.
Proof.
  induction marks as [|[l now] marks IH] using rev_ind; [done|].
  rewrite markAll_snoc, filter_app, filter_cons, filter_nil. cbn [fst snd mark _marks].
  case_decide as Hl.
  - subst l. by rewrite last_snoc, lookup_insert_eq.
  - by rewrite lookup_insert_ne, app_nil_r.
Qed.



(** X23. [measure] from a mark that has not been set since the last
    [clear()] returns -1 and calls [performance.measure] not at all,
    whatever the end mark and the clock. *)
Theorem measure_without_start_mark (self : t) (marks : list (string * float))
    (label startMark : string) (endMark : option string) (now : float) :
  startMark ∉ marks.*1 →
  measure (markAll (clear self) marks) label startMark endMark now
  = {| duration := (-1)%float; native := None |}.
Proof.
  intros Hstart. unfold measure. rewrite markAll_lookup.
  assert (Hnone : filter (λ m, m.1 = startMark) marks = []).
  { induction marks as [|[l x] marks IH]; [done|].
    cbn in Hstart. apply not_elem_of_cons in Hstart as [Hne Hstart].
    rewrite filter_cons, decide_False by (cbn; congruence). by apply IH. }
  by rewrite Hnone.
Qed.

Lemma measure_without_start_mark_witness :
  measure (markAll (clear (markAll constructor [("load:start", 5)]%float))
             [("load:end", 40)]%float)
    "load" "load:start" (Some "load:end") 50
  = {| duration := (-1)%float; native := None |}.
Proof.
  apply (measure_without_start_mark (markAll constructor [("load:start", 5)]%float)
           [("load:end", 40)]%float "load" "load:start" (Some "load:end") 50).
  cbn. by intros ?%list_elem_of_singleton.
Defined.

End TimerFacts.
